(** * CrystFEL: prediction, integration, pairing, refinement and scaling

    A shallow embedding of the numerical core of CrystFEL
    (geometry.c, peaks.c, predict-refine.c, scaling.c) and the properties
    of it that the specification states.

    C [double]s are Rocq's primitive binary64 floats, so rounding, infinities
    and NaN behave as on the machine.  C [int]s are [Z]; arrays are lists or
    total functions on [Z]; output parameters become components of the
    result.  Functions of libm, GSL and of CrystFEL files other than the four
    above enter through the classes [Libm], [Utils] and the per-module
    [Externals]. *)

From Stdlib Require Import ZArith List Bool Lia Floats Permutation Sorted.
From Stdlib Require Uint63.
Import ListNotations.

Set Warnings "-inexact-float".
Open Scope float_scope.

(* ================================================================== *)
(** * Part I: the embedding *)
(* ================================================================== *)

(** ** C doubles *)
Module Double.

(** Conversion [int -> double] (exact for every 32-bit [int]). *)
Definition of_int (z : Z) : float :=
  if (z <? 0)%Z then - of_uint63 (Uint63.of_Z (- z))
  else of_uint63 (Uint63.of_Z z).

(** Conversion [double -> int]: truncation toward zero.  C leaves the
    conversion of NaN, infinities and out-of-range values undefined; they
    are mapped to the truncated value, or 0 when there is none. *)
Definition to_int (x : float) : Z :=
  match Prim2SF x with
  | S754_finite s m e =>
      let v := Z.shiftl (Zpos m) e in if s then (- v)%Z else v
  | _ => 0%Z
  end.

Definition fabs (x : float) : float := abs x.
Definition isnan (x : float) : bool := is_nan x.
Definition isinf (x : float) : bool := is_infinity x.

(** [signbit] reads the sign bit of the encoding.  On the machine a NaN
    has one as well (it is set in the NaN that 0.0/0.0 yields on x86-64),
    but Rocq's floats have a single NaN and keep no sign for it:
    [nan_sign] is the bit the machine's NaN carries. *)
Definition signbit (nan_sign : bool) (x : float) : bool :=
  if is_nan x then nan_sign else get_sign x.

(** [x > y] and [x >= y] as C writes them. *)
Definition gtb (x y : float) : bool := y <? x.
Definition geb (x y : float) : bool := y <=? x.

Definition not_nan (x : float) : Prop := is_nan x = false.

(** Shape of a binary64 value: not NaN and the given sign bit. *)
Definition sf_sign_is (s : bool) (f : spec_float) : Prop :=
  match f with
  | S754_nan => False
  | S754_zero s' | S754_infinity s' | S754_finite s' _ _ => s' = s
  end.

Definition sf_finpos (f : spec_float) : Prop :=
  match f with S754_finite false _ _ => True | _ => False end.

End Double.

Notation "x >? y" := (Double.gtb x y) (at level 70, no associativity) : float_scope.
Notation "x >=? y" := (Double.geb x y) (at level 70, no associativity) : float_scope.

(** ** External functions *)

(** libm, and the sign bit of the NaN that the machine's arithmetic
    produces ([nan_signbit], read by [signbit] of math.h). *)
Class Libm := {
  sin : float -> float;
  asin : float -> float;
  log : float -> float;
  exp : float -> float;
  pow : float -> float -> float;
  lrint : float -> Z;
  M_PI_2 : float;
  nan_signbit : bool
}.

(** utils.h of CrystFEL, which is not among the sources. *)
Class Utils := {
  modulus : float -> float -> float -> float;
  modulus_squared : float -> float -> float -> float;
  angle_between : float -> float -> float -> float -> float -> float -> float
}.

(** Modelled from the spec: [modulus] of utils.h, the 3D Euclidean length
    ("real-space distance (3D ...)"), with its square and a stand-in for
    [angle_between]; used where a closed example needs an instance. *)
Definition euclid_utils : Utils := {|
  modulus := fun x y z => sqrt (x * x + y * y + z * z);
  modulus_squared := fun x y z => x * x + y * y + z * z;
  angle_between := fun _ _ _ _ _ _ => 0
|}.

(** A libm instance for closed examples: [pow x 2] is [x * x], [lrint]
    is exact on the whole numbers the examples give it, and the
    transcendental functions are constants (which makes the excitation
    error of the examples [ds - k]); a NaN has its sign bit set, as on
    x86-64. *)
Definition example_libm : Libm := {|
  sin := fun _ => 1;
  asin := fun _ => 0;
  log := fun _ => 0;
  exp := fun _ => 1;
  pow := fun x _ => x * x;
  lrint := Double.to_int;
  M_PI_2 := 0x1.921fb54442d18p+0;
  nan_signbit := true
|}.

(** Integer ranges of [for] loops: [lo, lo+1, ..., hi-1]. *)
Definition Zrange (lo hi : Z) : list Z :=
  map (fun i => (lo + Z.of_nat i)%Z) (seq 0 (Z.to_nat (hi - lo))).

(* ------------------------------------------------------------------ *)
(** ** geometry.c: the spot predictor *)
Module Geometry.

Import Double.

Definition MAX_CPEAKS : Z := 256 * 256.

(** [struct panel] and [struct detector], as far as geometry.c reads them
    (the header is not among the sources; every field enters the
    arithmetic as a double). *)
Record panel := {
  clen : float; res : float; cx : float; cy : float;
  min_x : float; max_x : float; min_y : float; max_y : float
}.

Record detector := { panels : list panel }.

Record image := { det : detector; lambda : float; bw : float; div : float }.

(** The reciprocal axes that [cell_get_reciprocal] reads out. *)
Record UnitCell := {
  asx : float; asy : float; asz : float;
  bsx : float; bsy : float; bsz : float;
  csx : float; csy : float; csz : float
}.

Record cpeak := { h : Z; k : Z; l : Z; x : float; y : float }.

(** State of the panel loop of [locate_peak]: [found] and the two output
    cells [*xdap], [*ydap] ([None] while unwritten). *)
Record locate_state := {
  found : Z; xdap : option float; ydap : option float
}.

(** Projection of the point onto panel [p]: [xda], [yda]. *)
Definition project (x y z k : float) (p : panel) : float * float :=
  let den := k + z in
  let cl := clen p in
  let xd := cl * x / den in
  let yd := cl * y / den in
  let xd := xd * res p in
  let yd := yd * res p in
  (xd + cx p, yd + cy p).

(** "Now, is this on this panel?": none of the four [continue]s fires. *)
Definition on_panel (xda yda : float) (p : panel) : bool :=
  negb (xda <? min_x p) && negb (xda >? max_x p)
  && negb (yda <? min_y p) && negb (yda >? max_y p).

Fixpoint locate_loop (x y z k : float) (ps : list panel) (p : Z)
         (st : locate_state) : locate_state :=
  match ps with
  | [] => st
  | pn :: rest =>
      let '(xda, yda) := project x y z k pn in
      if xda <? min_x pn then locate_loop x y z k rest (p + 1) st
      else if xda >? max_x pn then locate_loop x y z k rest (p + 1) st
      else if yda <? min_y pn then locate_loop x y z k rest (p + 1) st
      else if yda >? max_y pn then locate_loop x y z k rest (p + 1) st
      else if negb (found st =? -1)%Z then
        (* peak appears on multiple panels: return -1 *)
        {| found := -1; xdap := xdap st; ydap := ydap st |}
      else
        locate_loop x y z k rest (p + 1)
          {| found := p; xdap := Some xda; ydap := Some yda |}
  end.

Definition locate_peak (x y z k : float) (d : detector) : locate_state :=
  locate_loop x y z k (panels d) 0
    {| found := -1; xdap := None; ydap := None |}.

Section WithExternals.
Context {libm : Libm} {utils : Utils}.

Definition excitation_error (xl yl zl ds k : float) : float :=
  let tt := angle_between 0 0 1 xl yl (zl + k) in
  let al := M_PI_2 - asin (- zl / ds) in
  (ds * sin al / sin tt) - k.

Definition profile_cutoff : float := 0.005e9.
Definition mres : float := 1.0 / 8.0e-10.

(** The two clamping statements applied to one excitation error. *)
Definition clamp (r : float) : float :=
  let r := if r >? profile_cutoff then profile_cutoff else r in
  if r <? - profile_cutoff then - profile_cutoff else r.

(** Outcome of the loop body for one (h,k,l): which [continue] was
    taken, or the prediction that was stored, with the values of
    [rlow], [rhigh] (clamped), [close] and [inside] it reached. *)
Inductive verdict :=
| CentralBeam
| InFront
| OutsideResolution
| ShellMiss (rlow rhigh : float)
| OffDetector (rlow rhigh : float) (close inside : bool)
| Predicted (pk : cpeak) (rlow rhigh : float) (close inside : bool).

(** The reciprocal lattice point of (h,k,l). *)
Definition lattice_point (cell : UnitCell) (h k l : Z)
  : float * float * float :=
  let zl := of_int h * asz cell + of_int k * bsz cell + of_int l * csz cell in
  let xl := of_int h * asx cell + of_int k * bsx cell + of_int l * csx cell in
  let yl := of_int h * asy cell + of_int k * bsy cell + of_int l * csy cell in
  (xl, yl, zl).

Definition klow (im : image) : float :=
  1.0 / (lambda im - lambda im * bw im / 2.0).
Definition kcen (im : image) : float := 1.0 / lambda im.
Definition khigh (im : image) : float :=
  1.0 / (lambda im + lambda im * bw im / 2.0).

Definition candidate (im : image) (cell : UnitCell) (h k l : Z) : verdict :=
  if ((h =? 0) && (k =? 0) && (l =? 0))%Z then CentralBeam
  else
    let '(xl, yl, zl) := lattice_point cell h k l in
    if zl >? profile_cutoff then InFront
    else
      let ds_sq := modulus_squared xl yl zl in
      let ds := sqrt ds_sq in
      if ds >? mres then OutsideResolution
      else
        let rlow := excitation_error xl yl zl ds (klow im) in
        let rhigh := excitation_error xl yl zl ds (khigh im) in
        let close := (fabs rlow <? profile_cutoff)
                     || (fabs rhigh <? profile_cutoff) in
        let inside :=
          xorb (signbit nan_signbit rlow) (signbit nan_signbit rhigh) in
        let close := if inside then false else close in
        if negb (close || inside) then ShellMiss rlow rhigh
        else
          let rlow := clamp rlow in
          let rhigh := clamp rhigh in
          let st := locate_peak xl yl zl (kcen im) (det im) in
          if (found st =? -1)%Z then OffDetector rlow rhigh close inside
          else
            match xdap st, ydap st with
            | Some xda, Some yda =>
                Predicted {| h := h; k := k; l := l; x := xda; y := yda |}
                          rlow rhigh close inside
            | _, _ => OffDetector rlow rhigh close inside
            end.

(** The three nested loops, flattened in execution order. *)
Definition candidates (hmax kmax lmax : Z) : list (Z * Z * Z) :=
  flat_map (fun h =>
    flat_map (fun k =>
      map (fun l => (h, k, l)) (Zrange (- lmax) lmax))
      (Zrange (- kmax) kmax))
    (Zrange (- hmax) hmax).

(** Run of the loops from a given position: [cpeaks] holds the [np]
    entries written so far; [goto out] when [np == MAX_CPEAKS]. *)
Fixpoint scan (im : image) (cell : UnitCell) (cands : list (Z * Z * Z))
         (cpeaks : list cpeak) (np : Z) : list cpeak * Z :=
  match cands with
  | [] => (cpeaks, np)
  | (h, k, l) :: rest =>
      match candidate im cell h k l with
      | Predicted pk _ _ _ _ =>
          let cpeaks := cpeaks ++ [pk] in
          let np := (np + 1)%Z in
          if (np =? MAX_CPEAKS)%Z then (cpeaks, np)
          else scan im cell rest cpeaks np
      | _ => scan im cell rest cpeaks np
      end
  end.

(** [find_intersections]: the array (or NULL when [malloc] fails, told
    by [alloc_ok]) and the count stored in [*n].  The optional
    [printf] of each prediction is not modelled. *)
Definition find_intersections (alloc_ok : bool) (im : image)
           (cell : UnitCell) : option (list cpeak) * Z :=
  if negb alloc_ok then (None, 0%Z)
  else
    let hmax := to_int (mres / modulus (asx cell) (asy cell) (asz cell)) in
    let kmax := to_int (mres / modulus (bsx cell) (bsy cell) (bsz cell)) in
    let lmax := to_int (mres / modulus (csx cell) (csy cell) (csz cell)) in
    let '(cpeaks, np) := scan im cell (candidates hmax kmax lmax) [] 0 in
    (Some cpeaks, np).

End WithExternals.

End Geometry.

(* ------------------------------------------------------------------ *)
(** ** peaks.c: aperture photometry *)
Module Peaks.

Import Double.

(** [struct panel], [struct detector] and [struct image] as far as
    [integrate_peak] reads them. *)
Record panel := {
  min_fs : Z; max_fs : Z; min_ss : Z; max_ss : Z;
  no_index : bool;
  adu_per_eV : float;
  max_adu : float
}.

Record detector := { panels : list panel; mask_good : Z; mask_bad : Z }.

(** [data] and [flags] are the pixel arrays, read at a linear index;
    [flags] may be NULL.  The samples of [data] are single-precision in C
    and widened to double when read, which changes no value. *)
Record image := {
  det : detector;
  width : Z;
  data : Z -> float;
  flags : option (Z -> Z);
  lambda : float
}.

(** detector.c and utils.h of libcrystfel, which are not among the
    sources. *)
Class Externals := {
  find_panel : detector -> Z -> Z -> option panel;
  in_bad_region : detector -> Z -> Z -> bool;
  ph_lambda_to_eV : float -> float
}.

(** What a call leaves behind: the return value, the output cells that
    were written, and whether [*saturated] was set. *)
Record result := {
  ret : Z;
  pfs : option float;
  pss : option float;
  intensity : option float;
  sigma : option float;
  saturated : bool
}.

Definition veto (sat : bool) : result :=
  {| ret := 1; pfs := None; pss := None;
     intensity := None; sigma := None; saturated := sat |}.

Fixpoint take_while {A} (f : A -> bool) (l : list A) : list A :=
  match l with
  | [] => []
  | a :: l' => if f a then a :: take_while f l' else []
  end.

(** [for ( d=-ir; d<=+ir; d++ )] with [signed int d] and [double ir]:
    [d] starts at the truncation of [-ir] and the loop goes on while
    [d <= ir]; no [d] beyond the truncation of [ir] passes that test. *)
Definition loop_range (ir : float) : list Z :=
  take_while (fun d => of_int d <=? ir)
             (Zrange (to_int (- ir)) (to_int ir + 1)).

(** The two nested loops over [dfs] (outer) and [dss] (inner). *)
Definition pixels (ir : float) : list (Z * Z) :=
  flat_map (fun dfs => map (fun dss => (dfs, dss)) (loop_range ir))
           (loop_range ir).

(** One pass of a pixel loop: each pixel either goes on with a new state
    or executes [return 1]. *)
Inductive step (S : Type) := Go (s : S) | Ret1 (s : S).
Arguments Go {S} s.
Arguments Ret1 {S} s.

Fixpoint run {S} (body : S -> Z * Z -> step S) (pxs : list (Z * Z)) (st : S)
  : step S :=
  match pxs with
  | [] => Go st
  | px :: rest =>
      match body st px with
      | Go st' => run body rest st'
      | Ret1 st' => Ret1 st'
      end
  end.

Record bg_state := {
  bg_tot : float; bg_tot_sq : float; bg_counts : Z; bg_sat : bool
}.

Record pk_state := {
  pk_total : float; pk_counts : Z; fsct : float; ssct : float; pk_sat : bool
}.

Section WithExternals.
Context {libm : Libm} {ext : Externals}.

Variable im : image.
Variables cfs css : Z.
Variables ir_inn ir_mid ir_out : float.
Variable use_max_adu : bool.
Variable bgPkMask : option (Z -> Z).

(** [dfs*dfs + dss*dss], an [int] compared with doubles. *)
Definition sq_dist (dfs dss : Z) : float := of_int (dfs * dfs + dss * dss).

Section OnPanel.
Variable p : panel.

Definition p_cfs : Z := cfs - min_fs p.
Definition p_css : Z := css - min_ss p.
Definition p_w : Z := max_fs p - min_fs p + 1.
Definition p_h : Z := max_ss p - min_ss p + 1.

Definition aduph : float := adu_per_eV p * ph_lambda_to_eV (lambda im).

Definition lim_sq : float := pow ir_inn 2.0.
Definition mid_lim_sq : float := pow ir_mid 2.0.
Definition out_lim_sq : float := pow ir_out 2.0.

(** "Strayed off one panel?" *)
Definition off_panel (dfs dss : Z) : bool :=
  (p_cfs + dfs >=? p_w)%Z || (p_css + dss >=? p_h)%Z
  || (p_cfs + dfs <? 0)%Z || (p_css + dss <? 0)%Z.

(** "Wandered into a bad region?" *)
Definition bad_region (dfs dss : Z) : bool :=
  in_bad_region (det im) (min_fs p + p_cfs + dfs) (min_ss p + p_css + dss).

(** "Check if there is a peak in the background region". *)
Definition bg_masked (dfs dss : Z) : bool :=
  match bgPkMask with
  | None => false
  | Some m => negb (m ((p_cfs + dfs) + p_w * (p_css + dss)) =? 0)%Z
  end.

Definition pixel_index (dfs dss : Z) : Z :=
  dfs + cfs + width im * (dss + css).

(** The two flag tests: the pixel lacks a "good" bit, or has a "bad"
    one. *)
Definition lacks_good_bits (idx : Z) : bool :=
  match flags im with
  | None => false
  | Some fl =>
      negb (Z.land (fl idx) (mask_good (det im)) =? mask_good (det im))%Z
  end.

Definition has_bad_bits (idx : Z) : bool :=
  match flags im with
  | None => false
  | Some fl => negb (Z.land (fl idx) (mask_bad (det im)) =? 0)%Z
  end.

(** Body of the background loop. *)
Definition bg_pixel (st : bg_state) (px : Z * Z) : step bg_state :=
  let '(dfs, dss) := px in
  if sq_dist dfs dss >? out_lim_sq then Go st
  else if sq_dist dfs dss <? mid_lim_sq then Go st
  else if off_panel dfs dss then Ret1 st
  else if bad_region dfs dss then Ret1 st
  else if bg_masked dfs dss then Go st
  else
    let idx := pixel_index dfs dss in
    if lacks_good_bits idx then Ret1 st
    else if has_bad_bits idx then Ret1 st
    else
      let val := data im idx in
      let sat :=
        if use_max_adu && (val >? max_adu p) then true else bg_sat st in
      Go {| bg_tot := bg_tot st + val;
            bg_tot_sq := bg_tot_sq st + pow val 2.0;
            bg_counts := bg_counts st + 1;
            bg_sat := sat |}.

(** Body of the peak loop. *)
Definition pk_pixel (bg_mean : float) (st : pk_state) (px : Z * Z)
  : step pk_state :=
  let '(dfs, dss) := px in
  if sq_dist dfs dss >? lim_sq then Go st
  else if off_panel dfs dss then Ret1 st
  else if bad_region dfs dss then Ret1 st
  else
    let idx := pixel_index dfs dss in
    if lacks_good_bits idx then Ret1 st
    else if has_bad_bits idx then Ret1 st
    else
      let val := data im idx - bg_mean in
      let sat :=
        if use_max_adu && (val >? max_adu p) then true else pk_sat st in
      Go {| pk_total := pk_total st + val;
            pk_counts := pk_counts st + 1;
            fsct := fsct st + val * of_int (cfs + dfs);
            ssct := ssct st + val * of_int (css + dss);
            pk_sat := sat |}.

Definition integrate_on_panel : result :=
  match run bg_pixel (pixels ir_out)
            {| bg_tot := 0; bg_tot_sq := 0; bg_counts := 0;
               bg_sat := false |} with
  | Ret1 st => veto (bg_sat st)
  | Go bg =>
      if (bg_counts bg =? 0)%Z then veto (bg_sat bg)
      else
        let bg_mean := bg_tot bg / of_int (bg_counts bg) in
        let bg_var :=
          (bg_tot_sq bg / of_int (bg_counts bg)) - pow bg_mean 2.0 in
        match run (pk_pixel bg_mean) (pixels ir_inn)
                  {| pk_total := 0; pk_counts := 0;
                     fsct := 0; ssct := 0; pk_sat := bg_sat bg |} with
        | Ret1 st => veto (pk_sat st)
        | Go pk =>
            if (pk_counts pk =? 0)%Z then veto (pk_sat pk)
            else
              let fs := (fsct pk / pk_total pk) + 0.5 in
              let ss := (ssct pk / pk_total pk) + 0.5 in
              let var := of_int (pk_counts pk) * bg_var in
              let var := var + aduph * pk_total pk in
              if var <? 0.0 then
                {| ret := 1; pfs := Some fs; pss := Some ss;
                   intensity := None; sigma := None;
                   saturated := pk_sat pk |}
              else
                {| ret := 0; pfs := Some fs; pss := Some ss;
                   intensity := Some (pk_total pk);
                   sigma := Some (sqrt var);
                   saturated := pk_sat pk |}
        end
  end.

End OnPanel.

(** [integrate_peak].  "Returns non-zero if peak has been vetoed." *)
Definition integrate_peak : result :=
  match find_panel (det im) cfs css with
  | None => veto false
  | Some p => if no_index p then veto false else integrate_on_panel p
  end.

End WithExternals.

(** *** [make_BgMask] *)

(** The detector position of a predicted reflection, as
    [get_detector_pos] reads it. *)
Record predicted := { pk2_fs : float; pk2_ss : float }.

Section BgMask.

(** [find_panel(image->det, pk2_fs, pk2_ss) == p]: whether the position
    lies on the very panel the mask is made for. *)
Variable on_this_panel : predicted -> bool.

Variable p : panel.
Variable ir_inn : float.

(** Body of the two pixel loops for a reflection at [(pk2_cfs, pk2_css)]
    relative to the panel: the index at which it stores 1, if it stores.
    [fs] and [ss] are [signed int]s assigned from a double. *)
Definition mask_index (pk2_cfs pk2_css : float) (px : Z * Z) : option Z :=
  let '(dfs, dss) := px in
  let w := (max_fs p - min_fs p + 1)%Z in
  let h := (max_ss p - min_ss p + 1)%Z in
  if of_int (dfs * dfs + dss * dss) >? ir_inn * ir_inn then None
  else
    let fs := to_int (pk2_cfs + of_int dfs) in
    let ss := to_int (pk2_css + of_int dss) in
    if (fs >=? w)%Z then None
    else if (ss >=? h)%Z then None
    else if (fs <? 0)%Z then None
    else if (ss <? 0)%Z then None
    else Some (fs + ss * w)%Z.

Definition mask_pixel (pk2_cfs pk2_css : float) (mask : Z -> Z)
           (px : Z * Z) : Z -> Z :=
  match mask_index pk2_cfs pk2_css px with
  | None => mask
  | Some idx => fun i => if (i =? idx)%Z then 1%Z else mask i
  end.

(** Body of the loop over all reflections. *)
Definition mask_reflection (mask : Z -> Z) (refl : predicted) : Z -> Z :=
  if negb (on_this_panel refl) then mask
  else
    let pk2_cfs := pk2_fs refl - of_int (min_fs p) in
    let pk2_css := pk2_ss refl - of_int (min_ss p) in
    fold_left (mask_pixel pk2_cfs pk2_css) (pixels ir_inn) mask.

(** [make_BgMask]: the mask ([calloc] gives zeros), or NULL when the
    allocation fails ([alloc_ok] tells).  [reflections] is
    [image->reflections], which may be NULL; the parameter [ir_out] is
    not used by the function. *)
Definition make_BgMask (alloc_ok : bool)
           (reflections : option (list predicted)) : option (Z -> Z) :=
  if negb alloc_ok then None
  else
    match reflections with
    | None => Some (fun _ => 0%Z)
    | Some refls => Some (fold_left mask_reflection refls (fun _ => 0%Z))
    end.

End BgMask.

(** *** [validate_peaks] *)

(** A feature of an [ImageFeatureList]: position and intensity. *)
Record imagefeature := { f_fs : float; f_ss : float; f_intensity : float }.

(** What the loop body does with one feature: the counter it increments
    before [continue], or the feature it adds to the new list. *)
Inductive validation :=
| Wtf          (* n_wtf: NULL feature, or on no panel *)
| Integration  (* n_int: integrate_peak returned non-zero *)
| Drifted      (* n_dft: the centroid left the panel *)
| Snr          (* n_snr: below the minimum signal-to-noise ratio *)
| Proximity    (* n_prx: too close to a feature already added *)
| Added (f : imagefeature).

Record counters := {
  n_wtf : Z; n_int : Z; n_dft : Z; n_snr : Z; n_prx : Z
}.

Section Validate.
Context {libm : Libm} {ext : Externals}.

(** detector.c and image.c, which are not among the sources:
    [find_panel] at a position given in doubles, and the distance [d]
    that [image_feature_closest] reports for a list and a position. *)
Variable find_panel_at : detector -> float -> float -> option panel.
Variable image_feature_closest : list imagefeature -> float -> float -> float.

Variable im : image.
Variable min_snr : float.
Variables ir_inn ir_mid ir_out : Z.

(** The loop body for feature [f], [flist] being the list built so far.
    [integrate_peak] takes the position as [int]s and the radii as
    doubles; it has written all four outputs when it returns 0. *)
Definition validate_peak (flist : list imagefeature)
           (f : option imagefeature) : validation :=
  match f with
  | None => Wtf
  | Some f =>
      match find_panel_at (det im) (f_fs f) (f_ss f) with
      | None => Wtf
      | Some p =>
          let r := integrate_peak im (to_int (f_fs f)) (to_int (f_ss f))
                                  (of_int ir_inn) (of_int ir_mid)
                                  (of_int ir_out) false None in
          if negb (ret r =? 0)%Z then Integration
          else
            match pfs r, pss r, intensity r, sigma r with
            | Some fs, Some ss, Some intens, Some sig =>
                if (fs <? of_int (min_fs p)) || (fs >? of_int (max_fs p))
                   || (ss <? of_int (min_ss p)) || (ss >? of_int (max_ss p))
                then Drifted
                else if fabs intens / sig <? min_snr then Snr
                else if image_feature_closest flist fs ss
                        <? 2.0 * of_int ir_inn
                then Proximity
                else Added {| f_fs := fs; f_ss := ss;
                              f_intensity := intens |}
            | _, _, _, _ => Integration
            end
      end
  end.

Definition validate_step (st : list imagefeature * counters)
           (f : option imagefeature) : list imagefeature * counters :=
  let '(flist, c) := st in
  match validate_peak flist f with
  | Wtf => (flist, {| n_wtf := n_wtf c + 1; n_int := n_int c;
                      n_dft := n_dft c; n_snr := n_snr c;
                      n_prx := n_prx c |})
  | Integration => (flist, {| n_wtf := n_wtf c; n_int := n_int c + 1;
                              n_dft := n_dft c; n_snr := n_snr c;
                              n_prx := n_prx c |})
  | Drifted => (flist, {| n_wtf := n_wtf c; n_int := n_int c;
                          n_dft := n_dft c + 1; n_snr := n_snr c;
                          n_prx := n_prx c |})
  | Snr => (flist, {| n_wtf := n_wtf c; n_int := n_int c;
                      n_dft := n_dft c; n_snr := n_snr c + 1;
                      n_prx := n_prx c |})
  | Proximity => (flist, {| n_wtf := n_wtf c; n_int := n_int c;
                            n_dft := n_dft c; n_snr := n_snr c;
                            n_prx := n_prx c + 1 |})
  | Added g => (flist ++ [g], c)
  end.

(** [validate_peaks] on [image->features]: the list that replaces it
    ([image_add_feature] appends), and the five counters.  A failing
    [image_feature_list_new] (nothing is done) is not modelled. *)
Definition validate_peaks (features : list (option imagefeature))
  : list imagefeature * counters :=
  fold_left validate_step features
            ([], {| n_wtf := 0; n_int := 0; n_dft := 0; n_snr := 0;
                    n_prx := 0 |}).

End Validate.

(** *** [cull_peaks_in_panel], [cull_peaks] *)

(** What a call does to the process: it returns, or it calls [abort()]. *)
Inductive outcome (A : Type) :=
| Returned (a : A)
| Aborted.
Arguments Returned {A} a.
Arguments Aborted {A}.

(** The values of [p->badrow], a [char], that the code names. *)
Definition char_f : Z := 102.
Definition char_s : Z := 115.
Definition char_dash : Z := 45.

Section Cull.

(** image.c, which is not among the sources: the feature list with its
    count, its accessor (NULL for a removed entry) and its removal.  A
    feature read before a removal keeps the values it was read with. *)
Variable FeatureList : Type.
Variable image_feature_count : FeatureList -> Z.
Variable image_get_feature : FeatureList -> Z -> option imagefeature.
Variable image_remove_feature : FeatureList -> Z -> FeatureList.

Section InPanel.
Variable p : panel.
Variable badrow : Z.

(** "How many peaks are in the same column?" *)
Definition count_in_line (features : FeatureList) (n i : Z)
           (f : imagefeature) : Z :=
  fold_left
    (fun (ncol : Z) (j : Z) =>
       if (i =? j)%Z then ncol
       else
         match image_get_feature features j with
         | None => ncol
         | Some g =>
             if (badrow =? char_f)%Z then
               if fabs (f_ss f - f_ss g) <? 2.0 then (ncol + 1)%Z else ncol
             else if (badrow =? char_s)%Z then
               if fabs (f_fs f - f_fs g) <? 2.0 then (ncol + 1)%Z else ncol
             else ncol
         end)
    (Zrange 0 n) 0%Z.

(** "Delete them all...": the list and [nelim] after the loop over [js],
    or the call of [abort()]. *)
Fixpoint delete_in_line (f : imagefeature) (js : list Z)
         (features : FeatureList) (nelim : Z)
  : outcome (FeatureList * Z) :=
  match js with
  | [] => Returned (features, nelim)
  | j :: rest =>
      match image_get_feature features j with
      | None => delete_in_line f rest features nelim
      | Some g =>
          if (badrow =? char_f)%Z then
            if fabs (f_ss f - f_ss g) <? 2.0 then
              delete_in_line f rest (image_remove_feature features j)
                             (nelim + 1)%Z
            else delete_in_line f rest features nelim
          else if (badrow =? char_s)%Z then
            if fabs (f_fs f - f_ss g) <? 2.0 then
              delete_in_line f rest (image_remove_feature features j)
                             (nelim + 1)%Z
            else delete_in_line f rest features nelim
          else Aborted
      end
  end.

(** The loop over [i]. *)
Fixpoint cull_loop (n : Z) (positions : list Z) (features : FeatureList)
         (nelim : Z) : outcome (FeatureList * Z) :=
  match positions with
  | [] => Returned (features, nelim)
  | i :: rest =>
      match image_get_feature features i with
      | None => cull_loop n rest features nelim
      | Some f =>
          if f_fs f <? of_int (min_fs p) then cull_loop n rest features nelim
          else if f_fs f >? of_int (max_fs p)
          then cull_loop n rest features nelim
          else if f_ss f <? of_int (min_ss p)
          then cull_loop n rest features nelim
          else if f_ss f >? of_int (max_ss p)
          then cull_loop n rest features nelim
          else if (count_in_line features n i f <=? 3)%Z
          then cull_loop n rest features nelim
          else
            match delete_in_line f (Zrange 0 n) features nelim with
            | Aborted => Aborted
            | Returned (features, nelim) => cull_loop n rest features nelim
            end
      end
  end.

(** [cull_peaks_in_panel]: the list as it is left and [nelim]. *)
Definition cull_peaks_in_panel (features : FeatureList)
  : outcome (FeatureList * Z) :=
  let n := image_feature_count features in
  cull_loop n (Zrange 0 n) features 0%Z.

End InPanel.

(** The loop of [cull_peaks] over the panels of the detector, each with
    its [badrow]. *)
Fixpoint cull_panels (panels : list (panel * Z)) (features : FeatureList)
         (nelim : Z) : outcome (FeatureList * Z) :=
  match panels with
  | [] => Returned (features, nelim)
  | (p, badrow) :: rest =>
      if negb (badrow =? char_dash)%Z then
        match cull_peaks_in_panel p badrow features with
        | Aborted => Aborted
        | Returned (features, n) => cull_panels rest features (nelim + n)%Z
        end
      else cull_panels rest features nelim
  end.

Definition cull_peaks (panels : list (panel * Z)) (features : FeatureList)
  : outcome (FeatureList * Z) :=
  cull_panels panels features 0%Z.

End Cull.

End Peaks.

(* ------------------------------------------------------------------ *)
(** ** predict-refine.c: pairing and prediction refinement *)
Module PredictRefine.

Import Double.

Definition MAX_CYCLES : nat := 10.
Definition EXC_WEIGHT : float := 4e-20.

(** Parameters to refine, in the order of [rv]. *)
Inductive gparam :=
| GPARAM_ASX | GPARAM_ASY | GPARAM_ASZ
| GPARAM_BSX | GPARAM_BSY | GPARAM_BSZ
| GPARAM_CSX | GPARAM_CSY | GPARAM_CSZ
| GPARAM_DETX | GPARAM_DETY.

Definition rv : list gparam :=
  [GPARAM_ASX; GPARAM_ASY; GPARAM_ASZ;
   GPARAM_BSX; GPARAM_BSY; GPARAM_BSZ;
   GPARAM_CSX; GPARAM_CSY; GPARAM_CSZ;
   GPARAM_DETX; GPARAM_DETY].

Definition num_params : Z := 11.

(** [struct detgeom_panel], as far as [twod_mapping] reads it. *)
Record detgeom_panel := {
  fsx : float; fsy : float; ssx : float; ssy : float;
  cnx : float; cny : float; pixel_pitch : float
}.

Definition null_panel : detgeom_panel :=
  {| fsx := 0; fsy := 0; ssx := 0; ssy := 0;
     cnx := 0; cny := 0; pixel_pitch := 0 |}.

(** One observed peak. *)
Record imagefeature := {
  fs : float; ss : float; intensity : float; pn : Z
}.

(** The data of a [Reflection] that this file reads or writes: indices,
    predicted detector position, panel number, excitation error. *)
Record Reflection := {
  h : Z; k : Z; l : Z;
  refl_fs : float; refl_ss : float;
  panel_number : Z;
  exerr : float
}.

Definition reflection_new (h k l : Z) : Reflection :=
  {| h := h; k := k; l := l; refl_fs := 0; refl_ss := 0;
     panel_number := 0; exerr := 0 |}.

Definition set_panel_number (r : Reflection) (n : Z) : Reflection :=
  {| h := h r; k := k r; l := l r; refl_fs := refl_fs r; refl_ss := refl_ss r;
     panel_number := n; exerr := exerr r |}.

Record reflpeak := {
  refl : Reflection;
  peak : imagefeature;
  Ih : float;
  panel : detgeom_panel
}.

Definition set_Ih (rp : reflpeak) (v : float) : reflpeak :=
  {| refl := refl rp; peak := peak rp; Ih := v; panel := panel rp |}.

Definition set_refl (rp : reflpeak) (r : Reflection) : reflpeak :=
  {| refl := r; peak := peak rp; Ih := Ih rp; panel := panel rp |}.

(** The nine reciprocal components, as [cell_get_reciprocal] and
    [cell_set_reciprocal] exchange them. *)
Record UnitCell := {
  asx : float; asy : float; asz : float;
  bsx : float; bsy : float; bsz : float;
  csx : float; csy : float; csz : float
}.

(** The state of a [Crystal] that refinement touches.  [reflections] is
    the list handed to [crystal_set_reflections] ([None] for NULL);
    [notes] collects the residuals written by [crystal_add_notes]. *)
Record Crystal := {
  cell : UnitCell;
  det_shift_x : float;
  det_shift_y : float;
  reflections : option (list Reflection);
  notes : list float
}.

Definition crystal_set_reflections (cr : Crystal)
           (rl : option (list Reflection)) : Crystal :=
  {| cell := cell cr; det_shift_x := det_shift_x cr;
     det_shift_y := det_shift_y cr; reflections := rl; notes := notes cr |}.

Definition crystal_set_det_shift (cr : Crystal) (x y : float) : Crystal :=
  {| cell := cell cr; det_shift_x := x; det_shift_y := y;
     reflections := reflections cr; notes := notes cr |}.

Definition crystal_set_cell (cr : Crystal) (c : UnitCell) : Crystal :=
  {| cell := c; det_shift_x := det_shift_x cr; det_shift_y := det_shift_y cr;
     reflections := reflections cr; notes := notes cr |}.

Definition crystal_add_notes (cr : Crystal) (res : float) : Crystal :=
  {| cell := cell cr; det_shift_x := det_shift_x cr;
     det_shift_y := det_shift_y cr; reflections := reflections cr;
     notes := notes cr ++ [res] |}.

(** [image->features] (an entry may be NULL), the panels and the
    wavelength. *)
Record image := {
  features : list (option imagefeature);
  panels : list detgeom_panel;
  lambda : float
}.

Definition panel_at (im : image) (n : Z) : detgeom_panel :=
  nth (Z.to_nat n) (panels im) null_panel.

Definition vector := Z -> float.
Definition matrix := Z -> Z -> float.

Definition gsl_vector_set (v : vector) (i : Z) (x : float) : vector :=
  fun j => if (j =? i)%Z then x else v j.

Definition gsl_matrix_set (M : matrix) (i j : Z) (x : float) : matrix :=
  fun a b => if ((a =? i) && (b =? j))%Z then x else M a b.

(** cell.c, cell-utils.c, detgeom.c, geometry.c and the SVD solver of
    libcrystfel, which are not among the sources.  [update_prediction] is
    what [update_predictions] does to one reflection of the crystal's
    list.

    The last two fields are the allocator during the call that is
    modelled.  [malloc_rps] is what [malloc] returns for the array of
    pairs: NULL, or a fresh array, given by its [Ih] fields (fresh memory
    holds anything; the other fields of a slot are written before they
    are read).  [reflection_new_ok c i] tells whether [reflection_new]
    succeeds for feature [i] in the first loop of the call of
    [pair_peaks] number [c] (0 for the first call, 1 for the
    re-pairing).  The allocations the code does not test ([reflist_new],
    and [reflection_new] in the second loop of [pair_peaks]) are taken
    to succeed. *)
Class Externals := {
  cell_get_cartesian : UnitCell ->
    (float * float * float) * (float * float * float) * (float * float * float);
  lowest_reflection : UnitCell -> float;
  detgeom_transform_coords :
    detgeom_panel -> float -> float -> float -> float -> float ->
    float * float * float;
  update_prediction : Crystal -> image -> Reflection -> Reflection;
  r_gradient : UnitCell -> gparam -> Reflection -> image -> float;
  x_gradient : gparam -> Reflection -> UnitCell -> detgeom_panel -> float;
  y_gradient : gparam -> Reflection -> UnitCell -> detgeom_panel -> float;
  solve_svd : vector -> matrix -> option vector;
  malloc_rps : option (Z -> float);
  reflection_new_ok : Z -> Z -> bool
}.

Definition twod_mapping (fs ss : float) (p : detgeom_panel) (dx dy : float)
  : float * float :=
  let xs := fs * fsx p + ss * ssx p in
  let ys := fs * fsy p + ss * ssy p in
  ((xs + cnx p) * pixel_pitch p + dx, (ys + cny p) * pixel_pitch p + dy).

Definition r_dev (rp : reflpeak) : float := exerr (refl rp).

Definition x_dev (rp : reflpeak) (dx dy : float) : float :=
  let '(xpk, ypk) := twod_mapping (fs (peak rp)) (ss (peak rp)) (panel rp) dx dy in
  let '(xh, yh) :=
    twod_mapping (refl_fs (refl rp)) (refl_ss (refl rp)) (panel rp) dx dy in
  xh - xpk.

Definition y_dev (rp : reflpeak) (dx dy : float) : float :=
  let '(xpk, ypk) := twod_mapping (fs (peak rp)) (ss (peak rp)) (panel rp) dx dy in
  let '(xh, yh) :=
    twod_mapping (refl_fs (refl rp)) (refl_ss (refl rp)) (panel rp) dx dy in
  yh - ypk.

Definition cmpd2 (a b : reflpeak) : Z :=
  if fabs (r_dev a) <? fabs (r_dev b) then (-1)%Z else 1%Z.

(** [qsort]: the C library fixes the result only up to the order of
    elements the comparison does not separate; an insertion sort driven
    by the comparison function stands for it. *)
Fixpoint qsort_insert {A} (cmp : A -> A -> Z) (x : A) (l : list A) : list A :=
  match l with
  | [] => [x]
  | y :: l' => if (cmp x y <? 0)%Z then x :: y :: l'
               else y :: qsort_insert cmp x l'
  end.

Definition qsort {A} (cmp : A -> A -> Z) (l : list A) : list A :=
  fold_right (qsort_insert cmp) [] l.

Definition rps_at (rps : list reflpeak) (i : Z) : reflpeak :=
  nth (Z.to_nat i) rps
      {| refl := reflection_new 0 0 0;
         peak := {| fs := 0; ss := 0; intensity := 0; pn := 0 |};
         Ih := 0; panel := null_panel |}.

(** The inner loop over [j]: the value of [j] when the loop is left. *)
Fixpoint transition_inner (rps : list reflpeak) (grad : float) (n : Z)
         (js : list Z) : Z :=
  match js with
  | [] => n
  | j :: rest =>
      if fabs (r_dev (rps_at rps j)) <? 0.001e9 + grad * of_int j then j
      else transition_inner rps grad n rest
  end.

Fixpoint transition_outer (rps : list reflpeak) (n : Z) (positions : list Z) : Z :=
  match positions with
  | [] => n
  | i :: rest =>
      let grad := fabs (r_dev (rps_at rps i)) / of_int i in
      if (transition_inner rps grad n (Zrange (i + 1) n) =? n)%Z then i
      else transition_outer rps n rest
  end.

(** [check_outlier_transition] on the [n] pairs of [rps]: the array as it
    is left (sorted when [n >= 3]) and the returned position. *)
Definition check_outlier_transition (rps : list reflpeak) : list reflpeak * Z :=
  let n := Z.of_nat (length rps) in
  if (n <? 3)%Z then (rps, n)
  else
    let rps := qsort cmpd2 rps in
    (rps, transition_outer rps n (Zrange 1 (n - 1))).

Section WithExternals.
Context {libm : Libm} {utils : Utils} {ext : Externals}.

(** First loop of [pair_peaks] for one feature: the provisional pair,
    unless the feature is NULL, indexes as 000, or has an index of
    magnitude 512 or more.  The loop writes [refl], [peak] and [panel]
    of the slot and leaves its [Ih] as the array holds it, [slot_Ih]. *)
Definition candidate_pair (im : image) (cr : Crystal) (dx dy : float)
           (slot_Ih : float) (f : option imagefeature) : option reflpeak :=
  match f with
  | None => None
  | Some f =>
      let '((ax, ay, az), (bx, by_, bz), (cx, cy, cz)) :=
        cell_get_cartesian (cell cr) in
      let '(r0, r1, r2) :=
        detgeom_transform_coords (panel_at im (pn f)) (fs f) (ss f)
                                 (lambda im) dx dy in
      let hd := r0 * ax + r1 * ay + r2 * az in
      let kd := r0 * bx + r1 * by_ + r2 * bz in
      let ld := r0 * cx + r1 * cy + r2 * cz in
      let h := lrint hd in
      let k := lrint kd in
      let l := lrint ld in
      if ((h =? 0) && (k =? 0) && (l =? 0))%Z then None
      else if ((Z.abs h >=? 512) || (Z.abs k >=? 512)
               || (Z.abs l >=? 512))%Z then None
      else
        Some {| refl := set_panel_number (reflection_new h k l) (pn f);
                peak := f; Ih := slot_Ih; panel := panel_at im (pn f) |}
  end.

(** The first loop from feature number [i] on, [rps] being the pairs
    stored so far (slots 0 .. n-1): the pairs at the end of the loop, or
    [None] when [reflection_new] fails ([return 0]).  [rps_Ih] gives the
    [Ih] fields of the caller's array. *)
Fixpoint candidate_pairs (im : image) (cr : Crystal) (dx dy : float)
         (rps_Ih : Z -> float) (new_ok : Z -> bool)
         (fts : list (option imagefeature)) (i : Z) (rps : list reflpeak)
  : option (list reflpeak) :=
  match fts with
  | [] => Some rps
  | f :: rest =>
      let n := Z.of_nat (length rps) in
      match candidate_pair im cr dx dy (rps_Ih n) f with
      | None => candidate_pairs im cr dx dy rps_Ih new_ok rest (i + 1) rps
      | Some rp =>
          if new_ok i
          then candidate_pairs im cr dx dy rps_Ih new_ok rest (i + 1)
                               (rps ++ [rp])
          else None
      end
  end.

(** [update_predictions] on the crystal's list.  The list holds the very
    [Reflection] objects the pairs point to, so the pairs see the new
    predictions. *)
Definition update_predictions (im : image) (cr : Crystal)
           (rps : list reflpeak) : list reflpeak :=
  map (fun rp => set_refl rp (update_prediction cr im (refl rp))) rps.

(** Distance between the predicted and the observed position of a
    pair, both mapped by [detgeom_transform_coords]. *)
Definition pair_distance (im : image) (dx dy : float) (rp : reflpeak)
  : float :=
  let pnl := panel_number (refl rp) in
  let '(a0, a1, a2) :=
    detgeom_transform_coords (panel_at im pnl)
                             (refl_fs (refl rp)) (refl_ss (refl rp))
                             (lambda im) dx dy in
  let '(b0, b1, b2) :=
    detgeom_transform_coords (panel_at im pnl)
                             (fs (peak rp)) (ss (peak rp))
                             (lambda im) dx dy in
  modulus (a0 - b0) (a1 - b1) (a2 - b2).

(** The distance test of the second loop: the pair is dropped
    ([continue]) when the distance exceeds a third of
    [lowest_one_over_d]. *)
Definition good_pairing (im : image) (dx dy lowest_one_over_d : float)
           (rp : reflpeak) : bool :=
  negb (pair_distance im dx dy rp >? lowest_one_over_d / 3.0).

(** [pair_peaks] on the caller's array, whose [Ih] fields are [rps_Ih]:
    the number of pairs kept, the pairs themselves (the first [n_final]
    entries of [rps]), the crystal, whose reflection list ends up NULL
    unless the first loop returned early, and the [Ih] fields of the
    array as it is left (those of the pairs that passed the distance
    test travel with them; no other is touched).  The pairs are also
    what is added to [reflist] when the caller passes one. *)
Definition pair_peaks (im : image) (cr : Crystal)
           (rps_Ih : Z -> float) (new_ok : Z -> bool)
  : Z * list reflpeak * Crystal * (Z -> float) :=
  let lowest_one_over_d := lowest_reflection (cell cr) in
  let dx := det_shift_x cr in
  let dy := det_shift_y cr in
  match candidate_pairs im cr dx dy rps_Ih new_ok (features im) 0 [] with
  | None => (0%Z, [], cr, rps_Ih)
  | Some rps =>
      let cr := crystal_set_reflections cr (Some (map refl rps)) in
      let rps := update_predictions im cr rps in
      let rps := filter (good_pairing im dx dy lowest_one_over_d) rps in
      let cr := crystal_set_reflections cr None in
      let '(rps, n_final) := check_outlier_transition rps in
      (n_final, firstn (Z.to_nat n_final) rps, cr,
       fun j => if ((0 <=? j) && (j <? Z.of_nat (length rps)))%Z
                then Ih (rps_at rps j) else rps_Ih j)
  end.

(** Accumulation of one residual term into the normal equations:
    [M += w g gT] on the lower triangle and its mirror,
    [v += -(w r) g]. *)
Definition add_term (w : option float) (grad : Z -> float) (dev : float)
           (Mv : matrix * vector) : matrix * vector :=
  fold_left
    (fun (Mv : matrix * vector) (k : Z) =>
       let '(M, v) := Mv in
       let M :=
         fold_left
           (fun (M : matrix) (g : Z) =>
              if (g >? k)%Z then M
              else
                let M_c := match w with
                           | Some w => w * grad g * grad k
                           | None => grad g * grad k
                           end in
                let M_curr := M k g in
                gsl_matrix_set (gsl_matrix_set M k g (M_curr + M_c))
                               g k (M_curr + M_c))
           (Zrange 0 num_params) M in
       let v_c := match w with Some w => w * dev | None => dev end in
       let v_c := v_c * - grad k in
       (M, gsl_vector_set v k (v k + v_c)))
    (Zrange 0 num_params) Mv.

Definition rv_at (k : Z) : gparam := nth (Z.to_nat k) rv GPARAM_ASX.

Definition normal_equations (rps : list reflpeak) (c : UnitCell)
           (im : image) (total_x total_y : float) : matrix * vector :=
  let '(M, v) :=
    fold_left
      (fun Mv rp =>
         let w := EXC_WEIGHT * Ih rp in
         let Mv := add_term (Some w)
                     (fun k => r_gradient c (rv_at k) (refl rp) im)
                     (r_dev rp) Mv in
         let Mv := add_term None
                     (fun k => x_gradient (rv_at k) (refl rp) c (panel rp))
                     (x_dev rp total_x total_y) Mv in
         add_term None
                  (fun k => y_gradient (rv_at k) (refl rp) c (panel rp))
                  (y_dev rp total_x total_y) Mv)
      rps ((fun _ _ => 0) : matrix, (fun _ => 0) : vector) in
  let M :=
    fold_left
      (fun (M : matrix) (k : Z) =>
         let M_curr := M k k in
         let M_curr := match rv_at k with
                       | GPARAM_DETX | GPARAM_DETY => M_curr + 10.0
                       | _ => M_curr + 1e-18
                       end in
         gsl_matrix_set M k k M_curr)
      (Zrange 0 num_params) M in
  (M, v).

(** "clamp any NaN-valued shift component to zero". *)
Definition clean_shifts (shifts : vector) : vector :=
  fold_left (fun s i => if isnan (s i) then gsl_vector_set s i 0.0 else s)
            (Zrange 0 num_params) shifts.

Definition apply_shifts (c : UnitCell) (shifts : vector) : UnitCell :=
  {| asx := asx c + shifts 0%Z; asy := asy c + shifts 1%Z;
     asz := asz c + shifts 2%Z;
     bsx := bsx c + shifts 3%Z; bsy := bsy c + shifts 4%Z;
     bsz := bsz c + shifts 5%Z;
     csx := csx c + shifts 6%Z; csy := csy c + shifts 7%Z;
     csz := csz c + shifts 8%Z |}.

(** [iterate]: [None] for the return value 1 (nothing was changed),
    otherwise the new cell and the new totals. *)
Definition iterate (rps : list reflpeak) (c : UnitCell) (im : image)
           (total_x total_y total_z : float)
  : option (UnitCell * float * float * float) :=
  let '(M, v) := normal_equations rps c im total_x total_y in
  match solve_svd v M with
  | None => None
  | Some shifts =>
      let shifts := clean_shifts shifts in
      Some (apply_shifts c shifts,
            total_x + shifts 9%Z, total_y + shifts 10%Z, total_z + 0.0)
  end.

Definition pred_residual (rps : list reflpeak) (dx dy : float) : float :=
  let res := 0.0 in
  let r := fold_left (fun r rp => r + EXC_WEIGHT * Ih rp * pow (r_dev rp) 2.0)
                     rps 0.0 in
  let res := res + r in
  let r := fold_left (fun r rp => r + pow (x_dev rp dx dy) 2.0) rps 0.0 in
  let res := res + r in
  let r := fold_left (fun r rp => r + pow (y_dev rp dx dy) 2.0) rps 0.0 in
  res + r.

(** The return statement through which [refine_prediction] leaves. *)
Inductive exit_point :=
| NoMemory            (* rps == NULL *)
| InitialPairing      (* n < 10 after the first pair_peaks *)
| AllPeaksNegative    (* max_I <= 0 *)
| SolveFailed         (* iterate returned non-zero *)
| FinalPairing        (* n < 10 after the re-pairing *)
| Refined.            (* return 0 *)

Record outcome := {
  status : Z;
  exit : exit_point;
  crystal : Crystal;
  cycles : nat          (* calls of [iterate] made *)
}.

(** State of the refinement loop. *)
Record refine_state := {
  st_crystal : Crystal;
  st_rps : list reflpeak;
  total_x : float; total_y : float; total_z : float;
  st_cycles : nat
}.

(** The [for ( i=0; i<MAX_CYCLES; i++ )] loop with [todo] rounds left:
    [inl] when [iterate] failed, with the state at that point. *)
Fixpoint refine_loop (im : image) (todo : nat) (st : refine_state)
  : refine_state + refine_state :=
  match todo with
  | O => inr st
  | S todo' =>
      let cr := st_crystal st in
      let rps := update_predictions im cr (st_rps st) in
      let cr := crystal_set_reflections cr (Some (map refl rps)) in
      match iterate rps (cell cr) im (total_x st) (total_y st) (total_z st) with
      | None =>
          inl {| st_crystal := cr; st_rps := rps;
                 total_x := total_x st; total_y := total_y st;
                 total_z := total_z st;
                 st_cycles := S (st_cycles st) |}
      | Some (c, tx, ty, tz) =>
          let cr := crystal_set_cell cr c in
          let cr := crystal_set_det_shift cr tx ty in
          refine_loop im todo'
            {| st_crystal := cr; st_rps := rps;
               total_x := tx; total_y := ty; total_z := tz;
               st_cycles := S (st_cycles st) |}
      end
  end.

(** "Normalise the intensities to max 1": the maximum ... *)
Definition max_intensity (rps : list reflpeak) : float :=
  fold_left (fun max_I rp =>
               let cur_I := intensity (peak rp) in
               if cur_I >? max_I then cur_I else max_I)
            rps neg_infinity.

(** ... and the normalised [Ih] of every pair. *)
Definition normalise (max_I : float) (rps : list reflpeak) : list reflpeak :=
  map (fun rp =>
         if intensity (peak rp) >? 0.0
         then set_Ih rp (intensity (peak rp) / max_I)
         else set_Ih rp 0.0) rps.

Definition refine_prediction (im : image) (cr : Crystal) : outcome :=
  match malloc_rps with
  | None => {| status := 1; exit := NoMemory; crystal := cr; cycles := 0 |}
  | Some rps_Ih =>
  let '(n, rps, cr, rps_Ih) :=
    pair_peaks im cr rps_Ih (reflection_new_ok 0) in
  if (n <? 10)%Z then
    {| status := 1; exit := InitialPairing; crystal := cr; cycles := 0 |}
  else
    let cr := crystal_set_reflections cr (Some (map refl rps)) in
    let orig_shift_x := det_shift_x cr in
    let orig_shift_y := det_shift_y cr in
    let max_I := max_intensity rps in
    if max_I <=? 0.0 then
      {| status := 1; exit := AllPeaksNegative;
         crystal := crystal_set_reflections cr None; cycles := 0 |}
    else
      let rps := normalise max_I rps in
      match refine_loop im MAX_CYCLES
              {| st_crystal := cr; st_rps := rps;
                 total_x := orig_shift_x; total_y := orig_shift_y;
                 total_z := 0.0; st_cycles := 0 |} with
      | inl st =>
          {| status := 1; exit := SolveFailed;
             crystal := crystal_set_reflections (st_crystal st) None;
             cycles := st_cycles st |}
      | inr st =>
          let cr := st_crystal st in
          let cr := crystal_add_notes cr
                      (pred_residual (st_rps st) (total_x st) (total_y st)) in
          let cr := crystal_set_det_shift cr (total_x st) (total_y st) in
          let cr := crystal_set_reflections cr None in
          let rps_Ih := fun j => if ((0 <=? j) && (j <? n))%Z
                                 then Ih (rps_at (st_rps st) j)
                                 else rps_Ih j in
          let '(n, _, cr, _) :=
            pair_peaks im cr rps_Ih (reflection_new_ok 1) in
          if (n <? 10)%Z then
            {| status := 1; exit := FinalPairing;
               crystal := crystal_set_det_shift cr orig_shift_x orig_shift_y;
               cycles := st_cycles st |}
          else
            {| status := 0; exit := Refined; crystal := cr;
               cycles := st_cycles st |}
      end
  end.

(** [refine_radius]: the status, the value handed to
    [crystal_set_profile_radius] ([None] when it is not called) and the
    crystal as it is left.  The pairs are re-predicted through the list
    [pair_peaks] filled, sorted, and the radius is read at position
    [(n_acc-1) - n_acc/50]. *)
Definition refine_radius (im : image) (cr : Crystal)
  : Z * option float * Crystal :=
  match malloc_rps with
  | None => (1%Z, None, cr)
  | Some rps_Ih =>
  let '(n_acc, rps, cr, _) :=
    pair_peaks im cr rps_Ih (reflection_new_ok 0) in
  if (n_acc <? 3)%Z then (1%Z, None, cr)
  else
    let cr := crystal_set_reflections cr (Some (map refl rps)) in
    let rps := update_predictions im cr rps in
    let cr := crystal_set_reflections cr None in
    let rps := qsort cmpd2 rps in
    let n := ((n_acc - 1) - Z.quot n_acc 50)%Z in
    let n := if (n <? 2)%Z then 2%Z else n in
    (0%Z, Some (fabs (r_dev (rps_at rps n))), cr)
  end.

End WithExternals.

End PredictRefine.

(* ------------------------------------------------------------------ *)
(** ** scaling.c: scale factor and B factor against a merged reference *)
Module Scaling.

Import Double.

Definition MAX_CYCLES : nat := 10.

Inductive gparam := GPARAM_OSF | GPARAM_BFAC.

Inductive prflag := PRFLAG_OK | PRFLAG_FEWREFL | PRFLAG_SOLVEFAIL.

(** The data of a [Reflection] that scaling reads. *)
Record Reflection := {
  h : Z; k : Z; l : Z;
  intensity : float;
  esd_intensity : float;
  partiality : float;
  lorentz : float;
  redundancy : Z;
  flag : bool               (* free-flagged: held out for validation *)
}.

(** A [RefList] in the order [first_refl] / [next_refl] walk it. *)
Definition RefList := list Reflection.

(** Modelled from the spec: [find_refl] of reflist.c, which is not among
    the sources.  "ReflectionList: mapping from (h,k,l) to Reflection, keys
    unique": the reflection with the given indices, or NULL. *)
Definition find_refl (list : RefList) (h' k' l' : Z) : option Reflection :=
  find (fun r => (h r =? h') && (k r =? k') && (l r =? l'))%Z list.

Record UnitCell := {
  asx : float; asy : float; asz : float;
  bsx : float; bsy : float; bsz : float;
  csx : float; csy : float; csz : float
}.

Record Crystal := {
  osf : float;
  Bfac : float;
  cell : UnitCell;
  reflections : RefList;
  user_flag : prflag
}.

Definition crystal_set_osf (cr : Crystal) (G : float) : Crystal :=
  {| osf := G; Bfac := Bfac cr; cell := cell cr;
     reflections := reflections cr; user_flag := user_flag cr |}.

Definition crystal_set_Bfac (cr : Crystal) (B : float) : Crystal :=
  {| osf := osf cr; Bfac := B; cell := cell cr;
     reflections := reflections cr; user_flag := user_flag cr |}.

Definition crystal_set_user_flag (cr : Crystal) (f : prflag) : Crystal :=
  {| osf := osf cr; Bfac := Bfac cr; cell := cell cr;
     reflections := reflections cr; user_flag := f |}.

Definition vector := Z -> float.
Definition matrix := Z -> Z -> float.

Definition gsl_vector_set (v : vector) (i : Z) (x : float) : vector :=
  fun j => if (j =? i)%Z then x else v j.

Definition gsl_matrix_set (M : matrix) (i j : Z) (x : float) : matrix :=
  fun a b => if ((a =? i) && (b =? j))%Z then x else M a b.

(** cell-utils.c, the SVD solver and GSL's weighted fit without intercept.
    [gsl_fit_wmul x w y] yields the status, the slope [c1], [cov11] and
    [sumsq]. *)
Class Externals := {
  resolution : UnitCell -> Z -> Z -> Z -> float;
  solve_svd : vector -> matrix -> option vector;
  gsl_fit_wmul : list float -> list float -> list float ->
                 Z * float * float * float
}.

(** What a call does to the process: it returns, or it calls [abort()]. *)
Inductive outcome (A : Type) :=
| Returned (a : A)
| Aborted.
Arguments Returned {A} a.
Arguments Aborted {A}.

Section WithExternals.
Context {libm : Libm} {ext : Externals}.

(** [apply_shift] for the two parameters of [scale_iterate]. *)
Definition apply_shift (cr : Crystal) (k : gparam) (shift : float) : Crystal :=
  match k with
  | GPARAM_BFAC =>
      let t := Bfac cr in
      let t := t + shift in
      crystal_set_Bfac cr t
  | GPARAM_OSF =>
      let t := - log (osf cr) in
      let t := t + shift in
      crystal_set_osf cr (exp (- t))
  end.

Definition rv : list gparam := [GPARAM_OSF; GPARAM_BFAC].
Definition num_params : Z := 2.
Definition rv_at (k : Z) : gparam := nth (Z.to_nat k) rv GPARAM_OSF.

(** The normal equations under construction, and the count [nref]. *)
Record fit_state := { M : matrix; v : vector; nref : Z }.

(** The part of the loop body after the last [continue]: the terms of one
    reflection. *)
Definition accumulate (cr : Crystal) (refl match_ : Reflection)
           (st : fit_state) : fit_state :=
  let G := osf cr in
  let B := Bfac cr in
  let I_full := intensity match_ in
  let I_partial := intensity refl in
  let p := partiality refl in
  let L := lorentz refl in
  let s := resolution (cell cr) (h refl) (k refl) (l refl) in
  let w := 1.0 in
  let gradients := fun k => match rv_at k with
                            | GPARAM_OSF => 1.0
                            | GPARAM_BFAC => - s * s
                            end in
  let '(M, v) :=
    fold_left
      (fun (Mv : matrix * vector) (k : Z) =>
         let '(M, v) := Mv in
         let M :=
           fold_left
             (fun (M : matrix) (g : Z) =>
                if (g >? k)%Z then M
                else
                  let M_c := w * gradients g * gradients k in
                  let M_curr := M k g in
                  gsl_matrix_set (gsl_matrix_set M k g (M_curr + M_c))
                                 g k (M_curr + M_c))
             (Zrange 0 num_params) M in
         let fx := - log G + log p - log L - B * s * s + log I_full in
         let delta_I := log I_partial - fx in
         let v_c := w * delta_I * gradients k in
         (M, gsl_vector_set v k (v k + v_c)))
      (Zrange 0 num_params) (M st, v st) in
  {| M := M; v := v; nref := nref st + 1 |}.

(** The loop body of [scale_iterate] for one reflection of the crystal. *)
Definition scale_term (cr : Crystal) (full : RefList) (st : fit_state)
           (refl : Reflection) : fit_state :=
  if flag refl then st
  else
    match find_refl full (h refl) (k refl) (l refl) with
    | None => st
    | Some match_ =>
        let I_full := intensity match_ in
        let I_partial := intensity refl in
        let esd := esd_intensity refl in
        let p := partiality refl in
        if I_partial <=? 3.0 * esd then st
        else if (redundancy match_ <? 2)%Z then st
        else if I_full <=? 0 then st
        else if p <=? 0.0 then st
        else accumulate cr refl match_ st
    end.

(** [scale_iterate]: the returned maximum shift, the crystal as it is left,
    and the count stored in [*nr]. *)
Definition scale_iterate (cr : Crystal) (full : RefList)
  : float * Crystal * Z :=
  let st := fold_left (scale_term cr full) (reflections cr)
                      {| M := fun _ _ => 0; v := fun _ => 0; nref := 0 |} in
  if (nref st <? num_params)%Z then
    (0.0, crystal_set_user_flag cr PRFLAG_FEWREFL, nref st)
  else
    match solve_svd (v st) (M st) with
    | Some shifts =>
        let '(cr, max_shift) :=
          fold_left
            (fun (acc : Crystal * float) (param : Z) =>
               let '(cr, max_shift) := acc in
               let shift := shifts param in
               (apply_shift cr (rv_at param) shift,
                if fabs shift >? max_shift then fabs shift else max_shift))
            (Zrange 0 num_params) (cr, 0.0) in
        (max_shift, cr, nref st)
    | None => (0.0, crystal_set_user_flag cr PRFLAG_SOLVEFAIL, nref st)
    end.

(** The loop body of [log_residual] for one reflection: the sum [dev]
    after it. *)
Definition residual_term (cr : Crystal) (full : RefList) (free : bool)
           (dev : float) (refl : Reflection) : float :=
  let G := osf cr in
  let B := Bfac cr in
  if free && negb (flag refl) then dev
  else
    match find_refl full (h refl) (k refl) (l refl) with
    | None => dev
    | Some match_ =>
        let p := partiality refl in
        let L := lorentz refl in
        let I_partial := intensity refl in
        let I_full := intensity match_ in
        let esd := esd_intensity refl in
        let s := resolution (cell cr) (h refl) (k refl) (l refl) in
        if I_partial <=? 3.0 * esd then dev
        else if (redundancy match_ <? 2)%Z then dev
        else if I_full <=? 0 then dev
        else if p <=? 0.0 then dev
        else
          let fx := - log G + log p - log L - B * s * s + log I_full in
          let dc := log I_partial - fx in
          let w := 1.0 in
          dev + w * dc * dc
    end.

(** [log_residual] (the optional file output is not modelled). *)
Definition log_residual (cr : Crystal) (full : RefList) (free : bool) : float :=
  fold_left (residual_term cr full free) (reflections cr) 0.0.

(** The loop body of [linear_scale] for one reflection of [list1]: the
    triple ([x], [y], [w]) it appends, if any. *)
Definition scale_point (list2 : RefList) (refl1 : Reflection)
  : option (float * float * float) :=
  match find_refl list2 (h refl1) (k refl1) (l refl1) with
  | None => None
  | Some refl2 =>
      let Ih1 := intensity refl1 in
      let Ih2 := intensity refl2 in
      if (Ih1 <=? 0.0) || (Ih2 <=? 0.0) then None
      else if isnan Ih1 || isinf Ih1 then None
      else if isnan Ih2 || isinf Ih2 then None
      else Some (Ih2 / partiality refl2, Ih1, partiality refl2)
  end.

Definition scale_points (list1 list2 : RefList)
  : list (float * float * float) :=
  flat_map (fun refl1 => match scale_point list2 refl1 with
                         | Some pt => [pt]
                         | None => []
                         end) list1.

(** [linear_scale]: the status, with the value left in [*G] ([None] while
    unwritten); or the call of [abort()].  The arrays grow as needed; a
    failing [malloc]/[realloc] (status 1) is not modelled. *)
Definition linear_scale (list1 list2 : RefList)
  : outcome (Z * option float) :=
  let pts := scale_points list1 list2 in
  let n := Z.of_nat (length pts) in
  if (n <? 2)%Z then Returned (1%Z, None)
  else
    let x := map (fun pt => fst (fst pt)) pts in
    let y := map (fun pt => snd (fst pt)) pts in
    let w := map (fun pt => snd pt) pts in
    let '(r, G, cov11, sumsq) := gsl_fit_wmul x w y in
    if negb (r =? 0)%Z then Returned (1%Z, Some G)
    else if isnan G then Aborted
    else Returned (0%Z, Some G).

(** [scale_all_to_reference]: every crystal whose [linear_scale] returns 0
    gets the fitted [G] and [B = 0]; the loop goes on after a failure that
    returns, and ends where a call aborts. *)
Fixpoint scale_all_to_reference (crystals : list Crystal) (reference : RefList)
  : outcome (list Crystal) :=
  match crystals with
  | [] => Returned []
  | cr :: rest =>
      match linear_scale reference (reflections cr) with
      | Aborted => Aborted
      | Returned (status, G) =>
          let cr :=
            match status, G with
            | 0%Z, Some G => crystal_set_Bfac (crystal_set_osf cr G) 0.0
            | _, _ => cr
            end in
          match scale_all_to_reference rest reference with
          | Aborted => Aborted
          | Returned done => Returned (cr :: done)
          end
      end
  end.

(** The [do { ... } while ( i < MAX_CYCLES && !done )] loop of
    [do_scale_refine], entered with [todo] further passes allowed after
    the one that starts: the crystal, the value last stored in [*nr] and
    the number of passes made. *)
Fixpoint scale_refine_loop (full : RefList) (todo : nat) (cr : Crystal)
         (old_dev : float) {struct todo} : Crystal * Z * nat :=
  let '(_, cr, nr) := scale_iterate cr full in
  let dev := log_residual cr full false in
  let done := fabs (dev - old_dev) <? dev * 0.01 in
  match todo with
  | O => (cr, nr, 1%nat)
  | S todo' =>
      if done then (cr, nr, 1%nat)
      else
        let '(cr, nr, passes) := scale_refine_loop full todo' cr dev in
        (cr, nr, S passes)
  end.

Definition do_scale_refine (cr : Crystal) (full : RefList)
  : Crystal * Z * nat :=
  scale_refine_loop full (MAX_CYCLES - 1) cr (log_residual cr full false).

(** [if ( crystal_get_user_flag(cr) ) continue;]: the flag is set when
    it is not [PRFLAG_OK], the zero of the enumeration. *)
Definition flagged (cr : Crystal) : bool :=
  match user_flag cr with
  | PRFLAG_OK => false
  | _ => true
  end.

(** [total_log_r]: the total and the count stored in [*ninc]. *)
Definition total_log_r (crystals : list Crystal) (full : RefList)
  : float * Z :=
  fold_left
    (fun (acc : float * Z) (cr : Crystal) =>
       let '(total, n) := acc in
       if flagged cr then acc
       else
         let r := log_residual cr full false in
         if isnan r then acc
         else (total + r, (n + 1)%Z))
    crystals (0.0, 0%Z).

Section ScaleAll.

(** merge.c, which is not among the sources: the merged reference of the
    crystals as they are. *)
Variable merge_intensities : list Crystal -> RefList.

(** One pass of the outer loop of [scale_all], with [todo] further passes
    allowed.  [run_threads] hands every crystal, each once, to
    [do_scale_refine] with the same reference; a task touches nothing but
    its own crystal, so the order in which they run does not show. *)
Fixpoint scale_all_loop (todo : nat) (crystals : list Crystal)
         (new_res : float) {struct todo} : list Crystal * float * nat :=
  let full := merge_intensities crystals in
  let old_res := new_res in
  let crystals :=
    map (fun cr => fst (fst (do_scale_refine cr full))) crystals in
  let new_res := fst (total_log_r crystals full) in
  let again := fabs (new_res - old_res) >=? 0.01 * old_res in
  match todo with
  | O => (crystals, new_res, 1%nat)
  | S todo' =>
      if again then
        let '(crystals, res, niter) :=
          scale_all_loop todo' crystals new_res in
        (crystals, res, S niter)
      else (crystals, new_res, 1%nat)
  end.

(** [scale_all]: the crystals, the last total residual and [niter]. *)
Definition scale_all (crystals : list Crystal)
  : list Crystal * float * nat :=
  scale_all_loop 9 crystals infinity.

End ScaleAll.

End WithExternals.

End Scaling.

(* ------------------------------------------------------------------ *)
(** ** detector.c: panels of the detector *)
Module Detector.

(** [struct panel] as far as [find_panel] and the checks of
    [get_detector_geometry] read it.  The header is not among the sources:
    the bounds are compared and looped over with [int]s, and the centre,
    camera length and resolution take part in floating-point arithmetic. *)
Record panel := {
  min_x : Z; max_x : Z; min_y : Z; max_y : Z;
  cx : float; cy : float; clen : float; res : float
}.

Record detector := { panels : list panel }.

Definition contains (p : panel) (x y : Z) : bool :=
  (x >=? min_x p)%Z && (x <=? max_x p)%Z
  && (y >=? min_y p)%Z && (y <=? max_y p)%Z.

(** The loop of [find_panel] over the panels from some position on. *)
Fixpoint find_panel_loop (ps : list panel) (x y : Z) : option panel :=
  match ps with
  | [] => None
  | p :: rest => if contains p x y then Some p else find_panel_loop rest x y
  end.

(** [find_panel]: the panel found, or NULL. *)
Definition find_panel (det : detector) (x y : Z) : option panel :=
  find_panel_loop (panels det) x y.

(** The first loop of the checks that end [get_detector_geometry], for
    one panel: [reject] is set when a field still has the value -1 it was
    initialised with, and [max_x], [max_y] follow the largest bound. *)
Definition check_panel (st : Z * Z * Z) (p : panel) : Z * Z * Z :=
  let '(reject, mx, my) := st in
  let reject := if (min_x p =? -1)%Z then 1%Z else reject in
  let reject := if (max_x p =? -1)%Z then 1%Z else reject in
  let reject := if (min_y p =? -1)%Z then 1%Z else reject in
  let reject := if (max_y p =? -1)%Z then 1%Z else reject in
  let reject := if cx p =? -1 then 1%Z else reject in
  let reject := if cy p =? -1 then 1%Z else reject in
  let reject := if clen p =? -1 then 1%Z else reject in
  let reject := if res p =? -1 then 1%Z else reject in
  let mx := if (max_x p >? mx)%Z then max_x p else mx in
  let my := if (max_y p >? my)%Z then max_y p else my in
  (reject, mx, my).

(** The second loop: whether some pixel [(x, y)] with [0 <= x <= max_x],
    [0 <= y <= max_y] is on no panel ("contains gaps"). *)
Definition has_gap (det : detector) (mx my : Z) : bool :=
  existsb (fun x => existsb (fun y => match find_panel det x y with
                                      | None => true
                                      | Some _ => false
                                      end)
                            (Zrange 0 (my + 1)))
          (Zrange 0 (mx + 1)).

(** The checks from [max_x = 0] to the end of [get_detector_geometry],
    entered with the value [reject] has after the file was read: the
    final [reject] (the function returns NULL when it is not 0) and the
    [max_x], [max_y] stored in the detector. *)
Definition check_geometry (det : detector) (reject : Z) : Z * Z * Z :=
  let '(reject, mx, my) :=
    fold_left check_panel (panels det) (reject, 0%Z, 0%Z) in
  let reject := if has_gap det mx my then 1%Z else reject in
  (reject, mx, my).

End Detector.

(* ================================================================== *)
(** * Part II: properties *)
(* ================================================================== *)

(** ** Order and sign facts about binary64 *)
Module DoubleFacts.

Import Double.

Lemma SFcompare_refl f : f <> S754_nan -> SFcompare f f = Some Eq.
Proof.
  destruct f as [s|s| |s m e]; simpl; try congruence; intros _.
  - now destruct s.
  - rewrite Z.compare_refl, Pos.compare_cont_refl. now destruct s.
Qed.

Lemma is_nan_spec x : is_nan x = true <-> Prim2SF x = S754_nan.
Proof.
  unfold is_nan. rewrite eqb_spec. unfold SFeqb. split.
  - intros H. destruct (Prim2SF x) eqn:E; try reflexivity;
      rewrite SFcompare_refl in H by congruence; discriminate.
  - intros ->. reflexivity.
Qed.

Lemma not_nan_spec x : not_nan x <-> Prim2SF x <> S754_nan.
Proof.
  unfold not_nan. rewrite <- is_nan_spec.
  destruct (is_nan x); split; congruence.
Qed.

Lemma SFcompare_antisym f g :
  SFcompare g f = option_map CompOpp (SFcompare f g).
Proof.
  destruct f as [s|s| |s m e], g as [s'|s'| |s' m' e']; simpl;
    try reflexivity;
    try (destruct s; reflexivity); try (destruct s'; reflexivity);
    try (destruct s, s'; reflexivity).
  assert (Hm : Pos.compare_cont Eq m' m = CompOpp (Pos.compare_cont Eq m m'))
    by (symmetry; apply (Pos.compare_cont_antisym m m' Eq)).
  rewrite (Z.compare_antisym e e'), Hm.
  destruct s, s', (e ?= e')%Z; simpl; try reflexivity;
    destruct (Pos.compare_cont Eq m m'); reflexivity.
Qed.

Lemma SFcompare_some f g :
  f <> S754_nan -> g <> S754_nan -> exists c, SFcompare f g = Some c.
Proof.
  destruct f as [s|s| |s m e], g as [s'|s'| |s' m' e']; simpl; intros;
    try congruence; eauto.
Qed.

(** Comparisons through [SFcompare], for case analysis. *)
Ltac by_compare x y :=
  rewrite ?ltb_spec, ?leb_spec; unfold SFltb, SFleb;
  rewrite ?(SFcompare_antisym (Prim2SF x) (Prim2SF y)).

Lemma ltb_asym x y : (x <? y) = true -> (y <? x) = false.
Proof.
  by_compare x y.
  destruct (SFcompare (Prim2SF x) (Prim2SF y)) as [[]|]; simpl; congruence.
Qed.

Lemma ltb_leb x y : (x <? y) = true -> (x <=? y) = true.
Proof.
  by_compare x y.
  destruct (SFcompare (Prim2SF x) (Prim2SF y)) as [[]|]; simpl; congruence.
Qed.

Lemma ltb_false_leb x y :
  not_nan x -> not_nan y -> (x <? y) = false <-> (y <=? x) = true.
Proof.
  rewrite !not_nan_spec. intros Hx Hy. by_compare x y.
  destruct (SFcompare_some _ _ Hx Hy) as [c ->].
  destruct c; simpl; split; congruence.
Qed.

Lemma leb_false_ltb x y :
  not_nan x -> not_nan y -> (x <=? y) = false <-> (y <? x) = true.
Proof.
  rewrite !not_nan_spec. intros Hx Hy. by_compare x y.
  destruct (SFcompare_some _ _ Hx Hy) as [c ->].
  destruct c; simpl; split; congruence.
Qed.

Lemma ltb_not_nan x y : (x <? y) = true -> not_nan x /\ not_nan y.
Proof.
  rewrite !not_nan_spec, ltb_spec. unfold SFltb.
  destruct (Prim2SF x), (Prim2SF y); simpl; intros; split; congruence.
Qed.

Lemma leb_not_nan x y : (x <=? y) = true -> not_nan x /\ not_nan y.
Proof.
  rewrite !not_nan_spec, leb_spec. unfold SFleb.
  destruct (Prim2SF x), (Prim2SF y); simpl; intros; split; congruence.
Qed.

Lemma sign_is_not_nan s x : sf_sign_is s (Prim2SF x) -> not_nan x.
Proof.
  rewrite not_nan_spec. destruct (Prim2SF x); simpl; congruence.
Qed.

Lemma finpos_sign f : sf_finpos f -> sf_sign_is false f.
Proof. destruct f as [| | |[] m e]; simpl; tauto. Qed.

Lemma abs_sign x : not_nan x -> sf_sign_is false (Prim2SF (abs x)).
Proof.
  rewrite not_nan_spec, abs_spec.
  destruct (Prim2SF x); simpl; congruence.
Qed.

(** Rounding never turns a non-negative mantissa into NaN. *)
Lemma iter_pos_inv {A} (P : A -> Prop) (f : A -> A) :
  (forall x, P x -> P (f x)) -> forall n x, P x -> P (iter_pos f n x).
Proof.
  intros Hf. induction n as [n IH|n IH|]; simpl; intros x Hx; auto.
Qed.

Lemma shr_1_nonneg mrs : (0 <= shr_m mrs)%Z -> (0 <= shr_m (shr_1 mrs))%Z.
Proof.
  destruct mrs as [m r s]; simpl. destruct m as [|[p|p|]|p]; simpl; lia.
Qed.

Lemma shr_nonneg mrs e n :
  (0 <= shr_m mrs)%Z -> (0 <= shr_m (fst (shr mrs e n)))%Z.
Proof.
  intros H. destruct n; simpl; auto.
  apply (iter_pos_inv (fun x => 0 <= shr_m x)%Z); auto using shr_1_nonneg.
Qed.

Lemma shr_record_of_loc_m m l : shr_m (shr_record_of_loc m l) = m.
Proof. destruct l as [|[]]; reflexivity. Qed.

Lemma shr_fexp_nonneg p em m e l :
  (0 <= m)%Z -> (0 <= shr_m (fst (shr_fexp p em m e l)))%Z.
Proof.
  intros H. unfold shr_fexp. apply shr_nonneg.
  now rewrite shr_record_of_loc_m.
Qed.

Lemma round_nearest_even_nonneg m l :
  (0 <= m)%Z -> (0 <= round_nearest_even m l)%Z.
Proof.
  intros H. destruct l as [|[]]; simpl; try lia. destruct (Z.even m); lia.
Qed.

Lemma binary_round_aux_sign p em sx mx ex lx :
  (0 <= mx)%Z -> sf_sign_is sx (binary_round_aux p em sx mx ex lx).
Proof.
  intros H. unfold binary_round_aux.
  pose proof (shr_fexp_nonneg p em mx ex lx H) as H1.
  destruct (shr_fexp p em mx ex lx) as [mrs' e']. simpl in H1.
  pose proof (shr_fexp_nonneg p em _ e' loc_Exact
                (round_nearest_even_nonneg _ (loc_of_shr_record mrs') H1)) as H2.
  destruct (shr_fexp p em _ e' loc_Exact) as [mrs'' e'']. simpl in H2.
  destruct (shr_m mrs''); simpl; try reflexivity; try lia.
  destruct (Z.leb _ _); reflexivity.
Qed.

Lemma SFmul_sign x y :
  sf_sign_is false x -> sf_finpos y -> sf_sign_is false (SFmul prec emax x y).
Proof.
  destruct x as [s|s| |s m e], y as [s'|s'| |[] m' e']; simpl; try tauto;
    intros -> _; try reflexivity.
  apply binary_round_aux_sign. lia.
Qed.

Lemma SFdiv_sign x y :
  sf_sign_is false x -> sf_finpos y -> sf_sign_is false (SFdiv prec emax x y).
Proof.
  destruct x as [s|s| |s m e], y as [s'|s'| |[] m' e']; simpl; try tauto;
    intros -> _; try reflexivity.
  unfold SFdiv_core_binary.
  match goal with |- context [Z.div_eucl ?a ?b] =>
    pose proof (Z_div_mod a b ltac:(lia)) as Hd;
    assert (Ha : (0 <= a)%Z); [|destruct (Z.div_eucl a b) as [q r]] end.
  - destruct (_ - _ - _)%Z; try lia. apply Z.shiftl_nonneg. lia.
  - simpl. apply binary_round_aux_sign. nia.
Qed.

Lemma SFadd_sign x y :
  sf_finpos x -> sf_sign_is false y -> sf_sign_is false (SFadd prec emax x y).
Proof.
  destruct x as [s|s| |[] m e], y as [s'|s'| |s' m' e']; simpl; try tauto;
    intros _ Hy; subst; try reflexivity.
  unfold binary_normalize. simpl.
  unfold binary_round. destruct (shl_align _ _ _) as [mz ez].
  apply binary_round_aux_sign. lia.
Qed.

(** Multiplying by a finite positive constant keeps a number a number. *)
Lemma SFmul_finpos_not_nan x y :
  sf_finpos x -> y <> S754_nan -> SFmul prec emax x y <> S754_nan.
Proof.
  destruct x as [s|s| |[] m e], y as [s'|s'| |s' m' e']; simpl; try tauto;
    try congruence.
  intros _ _ E.
  pose proof (binary_round_aux_sign prec emax (xorb false s')
                (Z.pos (m * m')) (e + e') loc_Exact ltac:(lia)) as H.
  simpl in E, H. rewrite E in H. exact H.
Qed.

(** [of_int] of a positive [int] is a finite positive double. *)
Lemma digits2_pos_iter_xO p d :
  Zpos (digits2_pos (Pos.iter xO p d)) = (Zpos (digits2_pos p) + Zpos d)%Z.
Proof.
  induction d as [|d IH] using Pos.peano_ind.
  - simpl. lia.
  - rewrite Pos.iter_succ. simpl digits2_pos. lia.
Qed.

Lemma digits2_pos_bound p k :
  (Zpos p < 2 ^ k)%Z -> (0 <= k)%Z -> (Zpos (digits2_pos p) <= k)%Z.
Proof.
  revert k. induction p as [p IH|p IH|]; intros k Hp Hk; simpl digits2_pos;
    assert (k <> 0)%Z by (intros ->; simpl in Hp; lia); try lia;
    replace k with (Z.succ (k - 1)) in Hp by lia;
    rewrite Z.pow_succ_r in Hp by lia;
    specialize (IH (k - 1)%Z); lia.
Qed.

Lemma binary_round_aux_exact s m e :
  (Z.max (Zpos (digits2_pos m) + e - 53) (-1074) = e)%Z -> (e <= 971)%Z ->
  binary_round_aux prec emax s (Zpos m) e loc_Exact = S754_finite s m e.
Proof.
  intros He Hle.
  assert (Hs : shr_fexp prec emax (Zpos m) e loc_Exact =
               ({| shr_m := Zpos m; shr_r := false; shr_s := false |}, e)).
  { unfold shr_fexp, fexp, SpecFloat.emin, prec, emax. simpl Zdigits2.
    replace (Z.max _ _ - e)%Z with 0%Z by lia. reflexivity. }
  unfold binary_round_aux. rewrite Hs. simpl. rewrite Hs. simpl.
  destruct (Z.leb_spec e 971); [reflexivity | lia].
Qed.

Lemma binary_round_small p :
  (Zpos p < 2 ^ 53)%Z -> sf_finpos (binary_round prec emax false p 0).
Proof.
  intros Hp. pose proof (digits2_pos_bound p 53 Hp ltac:(lia)) as Hd.
  unfold binary_round, shl_align, fexp, SpecFloat.emin, prec, emax.
  set (d := Zpos (digits2_pos p)) in *.
  assert (0 < d)%Z by (unfold d; lia).
  replace (Z.max (d + 0 - 53) (3 - 1024 - 53) - 0)%Z with (d - 53)%Z by lia.
  destruct (d - 53)%Z as [|q|q] eqn:Eq; try lia.
  - rewrite binary_round_aux_exact; [exact I| fold d; lia | lia].
  - rewrite binary_round_aux_exact; [exact I| | lia].
    rewrite digits2_pos_iter_xO. fold d. lia.
Qed.

Lemma of_int_finpos z : (1 <= z < 2 ^ 53)%Z -> sf_finpos (Prim2SF (of_int z)).
Proof.
  intros Hz. unfold of_int. destruct (Z.ltb_spec z 0); [lia|].
  rewrite of_uint63_spec, Uint63.of_Z_spec.
  rewrite Z.mod_small by (change Uint63.wB with (2 ^ 63)%Z; lia).
  destruct z as [|p|p]; try lia. simpl. apply binary_round_small. lia.
Qed.

(** [<=] is transitive, and antisymmetric on magnitudes. *)
Ltac cmp_cases :=
  repeat match goal with
  | |- context [(?a ?= ?b)%Z] => destruct (Z.compare_spec a b)
  | |- context [Pos.compare_cont Eq ?a ?b] =>
      change (Pos.compare_cont Eq a b) with (Pos.compare a b);
      destruct (Pos.compare_spec a b)
  end.

Lemma SFleb_trans f g h :
  SFleb f g = true -> SFleb g h = true -> SFleb f h = true.
Proof.
  unfold SFleb, SFcompare.
  destruct f as [s1|s1| |s1 m1 e1], g as [s2|s2| |s2 m2 e2],
           h as [s3|s3| |s3 m3 e3];
    try discriminate; try reflexivity;
    destruct s1; try discriminate; try reflexivity;
    destruct s2; try discriminate; try reflexivity;
    destruct s3; try discriminate; try reflexivity;
    cmp_cases; subst; simpl; try discriminate; try reflexivity; try lia.
Qed.

Lemma leb_trans x y z :
  (x <=? y) = true -> (y <=? z) = true -> (x <=? z) = true.
Proof. rewrite !leb_spec. apply SFleb_trans. Qed.

Lemma SFleb_antisym f g :
  sf_sign_is false f -> sf_sign_is false g ->
  SFleb f g = true -> SFleb g f = true -> f = g.
Proof.
  unfold SFleb, SFcompare.
  destruct f as [s1|s1| |s1 m1 e1], g as [s2|s2| |s2 m2 e2]; simpl;
    try tauto; intros -> ->; try discriminate; try reflexivity.
  cmp_cases; subst; simpl; try discriminate; try reflexivity; try lia.
Qed.

Example to_int_truncates :
  (to_int 4.5, to_int (- 4.5), to_int 0.75, to_int 65536)
  = (4, -4, 0, 65536)%Z.
Proof. vm_compute. reflexivity. Qed.

Example of_int_exact :
  (of_int 0, of_int 3, of_int (-512), of_int 65536) = (0, 3, -512, 65536).
Proof. vm_compute. reflexivity. Qed.

Lemma leb_antisym_magnitude x y :
  sf_sign_is false (Prim2SF x) -> sf_sign_is false (Prim2SF y) ->
  (x <=? y) = true -> (y <=? x) = true -> x = y.
Proof.
  rewrite !leb_spec. intros Hx Hy H1 H2.
  apply Prim2SF_inj. now apply SFleb_antisym.
Qed.

(** Comparisons with oneself and with NaN. *)
Lemma leb_refl x : not_nan x -> (x <=? x) = true.
Proof.
  rewrite not_nan_spec, leb_spec. intros H. unfold SFleb.
  now rewrite SFcompare_refl.
Qed.

Lemma ltb_nan_r x y : is_nan y = true -> (x <? y) = false.
Proof.
  rewrite is_nan_spec, ltb_spec. intros ->. unfold SFltb.
  destruct (Prim2SF x); reflexivity.
Qed.


Lemma leb_not_ltb x y : (x <=? y) = true -> (y <? x) = false.
Proof.
  by_compare x y.
  destruct (SFcompare (Prim2SF x) (Prim2SF y)) as [[]|]; simpl; congruence.
Qed.

(** [x <= y] and [y <= z] in the form the loops test them. *)
Lemma not_ltb_trans x y z :
  not_nan y -> (y <? x) = false -> (z <? y) = false -> (z <? x) = false.
Proof.
  intros Hy Hxy Hyz.
  destruct (is_nan x) eqn:Ex; [apply ltb_nan_r, Ex|].
  destruct (is_nan z) eqn:Ez.
  { apply is_nan_spec in Ez. rewrite ltb_spec, Ez. reflexivity. }
  apply ltb_false_leb in Hxy; [|assumption..].
  apply ltb_false_leb in Hyz; [|assumption..].
  apply (leb_not_ltb x z). eapply leb_trans; eassumption.
Qed.

Lemma abs_not_nan_inv x : not_nan (abs x) -> not_nan x.
Proof.
  rewrite !not_nan_spec, abs_spec. destruct (Prim2SF x); simpl; congruence.
Qed.

(** Sums and products of non-negative doubles. *)
Lemma SFadd_nonneg x y :
  sf_sign_is false x -> sf_sign_is false y ->
  sf_sign_is false (SFadd prec emax x y).
Proof.
  destruct x as [s|s| |s m e], y as [s'|s'| |s' m' e']; simpl; try tauto;
    intros -> ->; try reflexivity.
  unfold binary_normalize. simpl.
  unfold binary_round. destruct (shl_align _ _ _) as [mz ez].
  apply binary_round_aux_sign. lia.
Qed.

Lemma SFmul_sign_or_nan s s' x y :
  sf_sign_is s x -> sf_sign_is s' y ->
  SFmul prec emax x y = S754_nan
  \/ sf_sign_is (xorb s s') (SFmul prec emax x y).
Proof.
  destruct x as [sx|sx| |sx m e], y as [sy|sy| |sy m' e']; simpl; try tauto;
    intros -> ->; auto.
  right. apply binary_round_aux_sign. lia.
Qed.

(** A double that is NaN or carries no sign: what a sum of squares can
    be. *)
Definition nan_or_nonneg (x : float) : Prop :=
  is_nan x = true \/ sf_sign_is false (Prim2SF x).

Lemma square_nan_or_nonneg w y :
  sf_finpos (Prim2SF w) -> nan_or_nonneg (w * y * y).
Proof.
  intros Hw. unfold nan_or_nonneg. rewrite is_nan_spec, !mul_spec.
  unfold SF64mul.
  destruct (Prim2SF y) as [s|s| |s m e] eqn:Ey;
    try (left; destruct (Prim2SF w); reflexivity).
  - destruct (SFmul_sign_or_nan false s (Prim2SF w) (S754_zero s)
                (finpos_sign _ Hw) eq_refl) as [E|Hs].
    + left. rewrite E. reflexivity.
    + destruct (SFmul_sign_or_nan _ s _ (S754_zero s) Hs eq_refl) as [E|Hs'];
        [left; exact E | right].
      now destruct s.
  - destruct (SFmul_sign_or_nan false s (Prim2SF w) (S754_infinity s)
                (finpos_sign _ Hw) eq_refl) as [E|Hs].
    + left. rewrite E. reflexivity.
    + destruct (SFmul_sign_or_nan _ s _ (S754_infinity s) Hs eq_refl)
        as [E|Hs']; [left; exact E | right].
      now destruct s.
  - destruct (SFmul_sign_or_nan false s (Prim2SF w) (S754_finite s m e)
                (finpos_sign _ Hw) eq_refl) as [E|Hs].
    + left. rewrite E. reflexivity.
    + destruct (SFmul_sign_or_nan _ s _ (S754_finite s m e) Hs eq_refl)
        as [E|Hs']; [left; exact E | right].
      now destruct s.
Qed.

Lemma add_nan_or_nonneg x y :
  nan_or_nonneg x -> nan_or_nonneg y -> nan_or_nonneg (x + y).
Proof.
  unfold nan_or_nonneg. rewrite !is_nan_spec, add_spec.
  intros [Ex|Hx] [Ey|Hy].
  - left. rewrite Ex. reflexivity.
  - left. rewrite Ex. reflexivity.
  - left. rewrite Ey. destruct (Prim2SF x); reflexivity.
  - right. apply SFadd_nonneg; assumption.
Qed.

Lemma add_nonneg x y :
  sf_sign_is false (Prim2SF x) -> sf_sign_is false (Prim2SF y) ->
  sf_sign_is false (Prim2SF (x + y)).
Proof. rewrite add_spec. apply SFadd_nonneg. Qed.

Lemma nonneg_leb x : sf_sign_is false (Prim2SF x) -> (0 <=? x) = true.
Proof.
  rewrite leb_spec. unfold SFleb.
  replace (Prim2SF 0) with (S754_zero false) by reflexivity.
  destruct (Prim2SF x) as [s|s| |s m e]; simpl; try tauto;
    intros ->; reflexivity.
Qed.

(** Measured against an infinite previous value, a change counts as large
    unless the new value is infinite too. *)
Lemma change_from_infinity r :
  sf_sign_is false (Prim2SF r) ->
  (abs (r - infinity) >=? 0.01 * infinity) = negb (is_infinity r).
Proof.
  unfold geb, is_infinity.
  rewrite leb_spec, eqb_spec, !abs_spec, sub_spec.
  replace (Prim2SF (0.01 * infinity)) with (S754_infinity false)
    by (vm_compute; reflexivity).
  replace (Prim2SF infinity) with (S754_infinity false) by reflexivity.
  destruct (Prim2SF r) as [s|s| |s m e]; simpl; try tauto;
    intros ->; reflexivity.
Qed.

(** The shape of a double greater than zero. *)
Lemma positive_sign x : (0 <? x) = true -> sf_sign_is false (Prim2SF x).
Proof.
  rewrite ltb_spec. unfold SFltb.
  replace (Prim2SF 0) with (S754_zero false) by reflexivity.
  destruct (Prim2SF x) as [s|[]| |[] m e]; simpl; try discriminate;
    reflexivity.
Qed.

Lemma positive_finite_finpos x :
  (0 <? x) = true -> is_infinity x = false -> sf_finpos (Prim2SF x).
Proof.
  unfold is_infinity. rewrite ltb_spec, eqb_spec, abs_spec. unfold SFltb.
  replace (Prim2SF 0) with (S754_zero false) by reflexivity.
  replace (Prim2SF infinity) with (S754_infinity false) by reflexivity.
  destruct (Prim2SF x) as [s|[]| |[] m e]; simpl; try discriminate;
    intros; exact I.
Qed.

End DoubleFacts.

(** ** Lists and loops *)
Module ListFacts.

Lemma fold_left_inv {A B} (P : A -> Prop) (f : A -> B -> A) (l : list B) :
  (forall s x, In x l -> P s -> P (f s x)) ->
  forall s, P s -> P (fold_left f l s).
Proof.
  induction l as [|x l IH]; intros Hf s Hs; simpl; [exact Hs|].
  apply IH.
  - intros s' y Hy. apply Hf. right. exact Hy.
  - apply Hf; [left; reflexivity | exact Hs].
Qed.

Lemma flat_map_option_length {A B} (f : A -> option B) (l : list A) :
  (length (flat_map (fun a => match f a with
                              | Some b => [b]
                              | None => []
                              end) l) <= length l)%nat.
Proof.
  induction l as [|a l IH]; simpl; [lia|].
  rewrite length_app. destruct (f a); simpl; lia.
Qed.

Lemma flat_map_option_In {A B} (f : A -> option B) (l : list A) b :
  In b (flat_map (fun a => match f a with
                           | Some b => [b]
                           | None => []
                           end) l) <->
  exists a, In a l /\ f a = Some b.
Proof.
  rewrite in_flat_map. split; intros (a & Ha & H); exists a; split; auto.
  - destruct (f a); simpl in H; [|contradiction].
    destruct H as [->|[]]. reflexivity.
  - rewrite H. left. reflexivity.
Qed.

Lemma In_firstn {A} (n : nat) (l : list A) x : In x (firstn n l) -> In x l.
Proof.
  intros H. rewrite <- (firstn_skipn n l). apply in_or_app. left. exact H.
Qed.

Lemma filter_none {A} (f : A -> bool) (l : list A) :
  Forall (fun a => f a = false) l -> filter f l = [].
Proof.
  induction 1 as [|a l Ha _ IH]; simpl; [reflexivity|]. now rewrite Ha.
Qed.

(** An invariant of a loop body is an invariant of the loop. *)
Lemma fold_left_invariant {A B} (P : A -> Prop) (f : A -> B -> A)
      (l : list B) :
  (forall s x, P s -> P (f s x)) -> forall s, P s -> P (fold_left f l s).
Proof.
  intros Hf. induction l as [|x l IH]; intros s Hs; simpl; auto.
Qed.

Lemma Zrange_spec x lo hi : In x (Zrange lo hi) <-> (lo <= x < hi)%Z.
Proof.
  unfold Zrange. rewrite in_map_iff. split.
  - intros (i & <- & Hi). apply in_seq in Hi. lia.
  - intros H. exists (Z.to_nat (x - lo)). split; [lia|]. apply in_seq. lia.
Qed.

Lemma Zrange_NoDup lo hi : NoDup (Zrange lo hi).
Proof.
  unfold Zrange. apply NoDup_map_NoDup_ForallPairs; [|apply seq_NoDup].
  intros i j _ _ H. lia.
Qed.

(** Lists built from distinct keys, each list without repetition and
    telling its key, concatenate without repetition. *)
Lemma NoDup_flat_map {A B} (f : A -> list B) (l : list A) :
  NoDup l ->
  (forall a, In a l -> NoDup (f a)) ->
  (forall a a' b, In a l -> In a' l -> In b (f a) -> In b (f a') -> a = a') ->
  NoDup (flat_map f l).
Proof.
  induction 1 as [|a l Ha Hl IH]; intros Hf Hk; simpl; [constructor|].
  apply NoDup_app.
  - apply Hf. left. reflexivity.
  - apply IH.
    + intros a' Ha'. apply Hf. right. exact Ha'.
    + intros a1 a2 b H1 H2. apply Hk; right; assumption.
  - intros b Hb Hb'. apply in_flat_map in Hb'. destruct Hb' as (a' & Ha' & Hb').
    assert (a = a') by (apply (Hk a a' b); auto; [left | right]; auto).
    subst. contradiction.
Qed.

End ListFacts.

(** ** The spot predictor *)
Module GeometryFacts.

Import Double DoubleFacts Geometry.

(** Panels whose bounds contain the projection of the point. *)
Definition hits (x y z k : float) (pn : panel) : bool :=
  let '(xda, yda) := project x y z k pn in on_panel xda yda pn.

Definition matching (x y z k : float) (d : detector) : list panel :=
  filter (hits x y z k) (panels d).

Lemma locate_loop_cons x y z k pn rest p st :
  locate_loop x y z k (pn :: rest) p st =
  if hits x y z k pn then
    if negb (found st =? -1)%Z
    then {| found := -1; xdap := xdap st; ydap := ydap st |}
    else locate_loop x y z k rest (p + 1)
           {| found := p;
              xdap := Some (fst (project x y z k pn));
              ydap := Some (snd (project x y z k pn)) |}
  else locate_loop x y z k rest (p + 1) st.
Proof.
  unfold hits, on_panel. cbn [locate_loop].
  destruct (project x y z k pn) as [xda yda]. cbn [fst snd].
  destruct (xda <? min_x pn); [reflexivity|].
  destruct (xda >? max_x pn); [reflexivity|].
  destruct (yda <? min_y pn); [reflexivity|].
  destruct (yda >? max_y pn); reflexivity.
Qed.

(** Once a panel has been found, the loop keeps it exactly when no later
    panel matches. *)
Lemma locate_loop_after_hit x y z k ps : forall p st,
  found st <> (-1)%Z ->
  (filter (hits x y z k) ps = [] -> locate_loop x y z k ps p st = st) /\
  (filter (hits x y z k) ps <> [] ->
   found (locate_loop x y z k ps p st) = (-1)%Z).
Proof.
  induction ps as [|pn rest IH]; intros p st Hst.
  - simpl. split; congruence.
  - rewrite locate_loop_cons. simpl filter.
    destruct (hits x y z k pn).
    + destruct (Z.eqb_spec (found st) (-1)); [contradiction|]. simpl.
      split; [discriminate | reflexivity].
    + apply IH. exact Hst.
Qed.

Lemma locate_loop_before_hit x y z k ps : forall p st,
  found st = (-1)%Z -> (0 <= p)%Z ->
  let r := locate_loop x y z k ps p st in
  match filter (hits x y z k) ps with
  | [] => r = st
  | [pn] =>
      (p <= found r)%Z /\
      nth_error ps (Z.to_nat (found r - p)) = Some pn /\
      xdap r = Some (fst (project x y z k pn)) /\
      ydap r = Some (snd (project x y z k pn))
  | _ => found r = (-1)%Z
  end.
Proof.
  induction ps as [|pn rest IH]; intros p st Hst Hp.
  - reflexivity.
  - cbv zeta. rewrite locate_loop_cons. simpl filter.
    destruct (hits x y z k pn) eqn:Hh.
    + rewrite Hst. simpl negb. cbv iota.
      set (st' := {| found := p |}).
      assert (Hst' : found st' <> (-1)%Z) by (simpl; lia).
      destruct (locate_loop_after_hit x y z k rest (p + 1) st' Hst') as [H0 H1].
      destruct (filter (hits x y z k) rest) as [|q qs].
      * rewrite H0 by reflexivity. simpl.
        rewrite Z.sub_diag. simpl. repeat split; try reflexivity; lia.
      * apply H1. discriminate.
    + specialize (IH (p + 1)%Z st Hst ltac:(lia)). cbv zeta in IH.
      destruct (filter (hits x y z k) rest) as [|q [|q' qs]]; auto.
      destruct IH as (Hle & Hn & Hx & Hy). repeat split; auto; try lia.
      replace (Z.to_nat (found (locate_loop x y z k rest (p + 1) st) - p))
        with (S (Z.to_nat (found (locate_loop x y z k rest (p + 1) st) - (p + 1))))
        by lia.
      exact Hn.
Qed.

Lemma locate_peak_spec x y z k d :
  let r := locate_peak x y z k d in
  match matching x y z k d with
  | [] => found r = (-1)%Z
  | [pn] =>
      (0 <= found r)%Z /\
      nth_error (panels d) (Z.to_nat (found r)) = Some pn /\
      xdap r = Some (fst (project x y z k pn)) /\
      ydap r = Some (snd (project x y z k pn))
  | _ => found r = (-1)%Z
  end.
Proof.
  unfold locate_peak, matching.
  pose proof (locate_loop_before_hit x y z k (panels d) 0
                {| found := -1; xdap := None; ydap := None |}
                eq_refl ltac:(lia)) as H.
  cbv zeta in *.
  destruct (filter (hits x y z k) (panels d)) as [|q [|q' qs]]; auto.
  - now rewrite H.
  - now rewrite Z.sub_0_r in H.
Qed.

(** C6.  [locate_peak] yields a panel number (something other than -1)
    exactly when the projected coordinate lies within the bounds of
    exactly one panel; the number is then that panel's index and the
    outputs are its projected coordinates.  In [find_intersections] a
    lattice point that passed the shell test becomes a prediction when
    exactly one panel matches and is dropped ([continue]) when none or
    several do. *)
Theorem C6_locate_peak_exactly_one_panel :
  (forall x y z k d,
      (found (locate_peak x y z k d) <> (-1)%Z <->
       length (matching x y z k d) = 1%nat) /\
      (forall pn, matching x y z k d = [pn] ->
         nth_error (panels d)
                   (Z.to_nat (found (locate_peak x y z k d))) = Some pn /\
         xdap (locate_peak x y z k d) = Some (fst (project x y z k pn)) /\
         ydap (locate_peak x y z k d) = Some (snd (project x y z k pn)))) /\
  (forall (libm : Libm) (utils : Utils) im cell h k l,
      let '(xl, yl, zl) := lattice_point cell h k l in
      let n := length (matching xl yl zl (kcen im) (det im)) in
      match candidate im cell h k l with
      | Predicted pk _ _ _ _ =>
          n = 1%nat /\
          exists pn, matching xl yl zl (kcen im) (det im) = [pn] /\
                     x pk = fst (project xl yl zl (kcen im) pn) /\
                     y pk = snd (project xl yl zl (kcen im) pn)
      | OffDetector _ _ _ _ => n <> 1%nat
      | _ => True
      end).
Proof.
  split.
  - intros x y z k d. pose proof (locate_peak_spec x y z k d) as H.
    cbv zeta in H.
    destruct (matching x y z k d) as [|q [|q' qs]]; simpl.
    + split; [split; [congruence | discriminate] | discriminate].
    + destruct H as (H0 & Hn & Hx & Hy).
      split; [split; [reflexivity | lia] |].
      intros pn E. injection E as <-. auto.
    + split; [split; [congruence | discriminate] | discriminate].
  - intros libm utils im cell h k l.
    unfold candidate.
    destruct (lattice_point cell h k l) as [[xl yl] zl].
    destruct ((h =? 0)%Z && (k =? 0)%Z && (l =? 0)%Z); [exact I|].
    destruct (zl >? profile_cutoff); [exact I|].
    destruct (sqrt (modulus_squared xl yl zl) >? mres); [exact I|].
    match goal with |- context [if negb ?c then _ else _] => destruct c end;
      simpl negb; cbv iota; [|exact I].
    pose proof (locate_peak_spec xl yl zl (kcen im) (det im)) as H.
    cbv zeta in H.
    destruct (matching xl yl zl (kcen im) (det im)) as [|q [|q' qs]].
    + rewrite H. simpl. discriminate.
    + destruct H as (H0 & Hn & Hx & Hy).
      destruct (Z.eqb_spec (found (locate_peak xl yl zl (kcen im) (det im))) (-1));
        [lia|].
      rewrite Hx, Hy. simpl. split; [reflexivity|]. eauto.
    + rewrite H. simpl. discriminate.
Qed.

Section Scan.
Context {libm : Libm} {utils : Utils}.

Lemma scan_bound im cell cands : forall cpeaks np,
  Z.of_nat (length cpeaks) = np -> (np < MAX_CPEAKS)%Z ->
  Z.of_nat (length (fst (scan im cell cands cpeaks np)))
  = snd (scan im cell cands cpeaks np) /\
  (np <= snd (scan im cell cands cpeaks np) <= MAX_CPEAKS)%Z.
Proof.
  induction cands as [|[[h k] l] rest IH]; intros cpeaks np Hlen Hnp.
  - simpl. lia.
  - simpl. destruct (candidate im cell h k l); try (apply IH; assumption).
    assert (Hlen' : Z.of_nat (length (cpeaks ++ [pk])) = (np + 1)%Z)
      by (rewrite length_app; simpl; lia).
    destruct (Z.eqb_spec (np + 1) MAX_CPEAKS) as [E|E].
    + simpl. lia.
    + specialize (IH (cpeaks ++ [pk]) (np + 1)%Z Hlen' ltac:(lia)). lia.
Qed.

(** Candidates after the one that fills the array are never examined. *)
Lemma scan_stops_at_cap im cell pre post : forall cpeaks np,
  (np < MAX_CPEAKS)%Z ->
  snd (scan im cell pre cpeaks np) = MAX_CPEAKS ->
  scan im cell (pre ++ post) cpeaks np = scan im cell pre cpeaks np.
Proof.
  induction pre as [|[[h k] l] rest IH]; intros cpeaks np Hnp Hcap.
  - simpl in Hcap. lia.
  - simpl in *. destruct (candidate im cell h k l); try (apply IH; assumption).
    destruct (Z.eqb_spec (np + 1) MAX_CPEAKS) as [E|E]; [reflexivity|].
    apply IH; [lia | assumption].
Qed.
End Scan.

(** C10.  [find_intersections] never returns more than 65536 = 256*256
    predictions: the count [n] it stores satisfies [0 <= n <= 65536] and
    is the number of array entries written, and the enumeration stops at
    the candidate that fills the array (later candidates change
    nothing). *)
Theorem C10_find_intersections_at_most_MAX_CPEAKS :
  forall (libm : Libm) (utils : Utils) alloc_ok im cell,
    MAX_CPEAKS = 65536%Z /\
    (0 <= snd (find_intersections alloc_ok im cell) <= 65536)%Z /\
    match fst (find_intersections alloc_ok im cell) with
    | Some cpeaks =>
        Z.of_nat (length cpeaks) = snd (find_intersections alloc_ok im cell)
    | None => snd (find_intersections alloc_ok im cell) = 0%Z
    end /\
    (forall pre post,
        snd (scan im cell pre [] 0) = MAX_CPEAKS ->
        scan im cell (pre ++ post) [] 0 = scan im cell pre [] 0).
Proof.
  intros libm utils alloc_ok im cell.
  split; [reflexivity|].
  unfold find_intersections.
  destruct alloc_ok; simpl negb; cbv iota.
  - match goal with |- context [scan im cell ?c [] 0] =>
      pose proof (scan_bound im cell c [] 0%Z eq_refl eq_refl) as [Hl Hb];
      destruct (scan im cell c [] 0) as [cpeaks np] end.
    simpl in *. change MAX_CPEAKS with 65536%Z in Hb.
    repeat split; try lia.
    intros pre post. apply scan_stops_at_cap. reflexivity.
  - simpl. repeat split; try lia.
    intros pre post. apply scan_stops_at_cap. reflexivity.
Qed.

(** *** The Ewald-shell test *)







(** A cell tilted into the diffracting condition and a detector of one
    panel, on the examples' instances of the external functions. *)
Definition tilted_cell : UnitCell :=
  {| asx := 3e8; asy := 0; asz := -9.5e8;
     bsx := 0; bsy := 1e9; bsz := 0;
     csx := 0; csy := 0; csz := 1e9 |}.

Definition square_panel : panel :=
  {| clen := 0.1; res := 1000; cx := 100; cy := 512;
     min_x := 0; max_x := 1023; min_y := 0; max_y := 1023 |}.

Definition one_panel_image : image :=
  {| det := {| panels := [square_panel] |};
     lambda := 1e-9; bw := 0.01; div := 0 |}.

Example candidate_inside_shell :
  match @candidate example_libm euclid_utils one_panel_image tilted_cell 1 0 0
  with
  | Predicted pk rlow rhigh close inside =>
      (h pk, k pk, l pk) = (1, 0, 0)%Z /\ y pk = 512 /\
      rlow = - profile_cutoff /\ close = false /\ inside = true
  | _ => False
  end.
Proof. vm_compute. repeat split. Qed.

Example candidate_in_front :
  @candidate example_libm euclid_utils one_panel_image tilted_cell 0 0 1
  = InFront.
Proof. vm_compute. reflexivity. Qed.

Example find_intersections_small :
  let r := @find_intersections example_libm euclid_utils true
                               one_panel_image tilted_cell in
  snd r = 2%Z /\
  option_map (map (fun pk => (h pk, k pk, l pk))) (fst r)
  = Some [(0, -1, 0); (0, 0, -1)]%Z.
Proof. vm_compute. split; reflexivity. Qed.

Example find_intersections_without_memory :
  @find_intersections example_libm euclid_utils false
                      one_panel_image tilted_cell = (None, 0%Z).
Proof. reflexivity. Qed.

(** Two panels that overlap in [500, 523] x [0, 1023]. *)
Definition overlapping_detector : detector :=
  {| panels := [ {| clen := 0.1; res := 1000; cx := 512; cy := 512;
                    min_x := 0; max_x := 523; min_y := 0; max_y := 1023 |};
                 {| clen := 0.1; res := 1000; cx := 512; cy := 512;
                    min_x := 500; max_x := 1023; min_y := 0; max_y := 1023 |} ] |}.

Example locate_peak_on_second_panel :
  found (locate_peak 8.8e8 0 0 1e9 overlapping_detector) = 1%Z.
Proof. vm_compute. reflexivity. Qed.

Example locate_peak_on_both_panels :
  found (locate_peak 0 0 0 1e9 overlapping_detector) = (-1)%Z
  /\ length (matching 0 0 0 1e9 overlapping_detector) = 2%nat.
Proof. vm_compute. split; reflexivity. Qed.

Example locate_peak_off_detector :
  found (locate_peak 1e10 0 0 1e9 overlapping_detector) = (-1)%Z
  /\ matching 1e10 0 0 1e9 overlapping_detector = [].
Proof. vm_compute. split; reflexivity. Qed.

(** For coordinates and bounds that are numbers, "on this panel" reads
    [min <= coordinate <= max] in both directions. *)
Lemma on_panel_within_bounds xda yda p :
  not_nan xda -> not_nan yda ->
  not_nan (min_x p) -> not_nan (max_x p) ->
  not_nan (min_y p) -> not_nan (max_y p) ->
  on_panel xda yda p = true <->
  (min_x p <=? xda) = true /\ (xda <=? max_x p) = true /\
  (min_y p <=? yda) = true /\ (yda <=? max_y p) = true.
Proof.
  intros Hx Hy H1 H2 H3 H4. unfold on_panel, gtb.
  rewrite !andb_true_iff, !negb_true_iff.
  rewrite (ltb_false_leb xda (min_x p)), (ltb_false_leb (max_x p) xda),
    (ltb_false_leb yda (min_y p)), (ltb_false_leb (max_y p) yda) by assumption.
  tauto.
Qed.



(** *** What the enumeration yields *)

Import ListFacts.

(** The indices of a prediction. *)
Definition indices (pk : cpeak) : Z * Z * Z := (h pk, k pk, l pk).

Lemma In_candidates hmax kmax lmax h' k' l' :
  In (h', k', l') (candidates hmax kmax lmax) <->
  (- hmax <= h' < hmax)%Z /\ (- kmax <= k' < kmax)%Z
  /\ (- lmax <= l' < lmax)%Z.
Proof.
  unfold candidates. rewrite in_flat_map. split.
  - intros (h0 & Hh & H). apply in_flat_map in H.
    destruct H as (k0 & Hk & H). apply in_map_iff in H.
    destruct H as (l0 & E & Hl). injection E as -> -> ->.
    apply Zrange_spec in Hh, Hk, Hl. auto.
  - intros (Hh & Hk & Hl). exists h'. split; [apply Zrange_spec, Hh|].
    apply in_flat_map. exists k'. split; [apply Zrange_spec, Hk|].
    apply in_map_iff. exists l'. split; [reflexivity | apply Zrange_spec, Hl].
Qed.

Lemma candidates_NoDup hmax kmax lmax : NoDup (candidates hmax kmax lmax).
Proof.
  unfold candidates. apply NoDup_flat_map.
  - apply Zrange_NoDup.
  - intros h0 _. apply NoDup_flat_map.
    + apply Zrange_NoDup.
    + intros k0 _. apply NoDup_map_NoDup_ForallPairs; [|apply Zrange_NoDup].
      intros l1 l2 _ _ E. now injection E.
    + intros k1 k2 [[h1 k3] l3] _ _ H1 H2.
      apply in_map_iff in H1, H2.
      destruct H1 as (? & E1 & _), H2 as (? & E2 & _). congruence.
  - intros h1 h2 [[h3 k3] l3] _ _ H1 H2.
    apply in_flat_map in H1, H2.
    destruct H1 as (? & _ & H1), H2 as (? & _ & H2).
    apply in_map_iff in H1, H2.
    destruct H1 as (? & E1 & _), H2 as (? & E2 & _). congruence.
Qed.

Section Enumeration.
Context {libm : Libm} {utils : Utils}.

(** A stored prediction carries the indices of the lattice point it was
    computed for, and that point is not the origin. *)
Lemma candidate_Predicted im cell h' k' l' pk rlow rhigh close inside :
  candidate im cell h' k' l' = Predicted pk rlow rhigh close inside ->
  indices pk = (h', k', l') /\ (h', k', l') <> (0, 0, 0)%Z.
Proof.
  unfold candidate.
  destruct ((h' =? 0)%Z && (k' =? 0)%Z && (l' =? 0)%Z) eqn:E0; [discriminate|].
  destruct (lattice_point cell h' k' l') as [[xl yl] zl].
  destruct (zl >? profile_cutoff); [discriminate|].
  destruct (sqrt (modulus_squared xl yl zl) >? mres); [discriminate|].
  match goal with |- context [if negb ?c then _ else _] => destruct c end;
    simpl negb; cbv iota; [|discriminate].
  destruct (found _ =? -1)%Z; [discriminate|].
  destruct (xdap _) as [xda|]; [|discriminate].
  destruct (ydap _) as [yda|]; [|discriminate].
  intros E. injection E as <- _ _ _ _. split; [reflexivity|].
  intros Ez. injection Ez as -> -> ->. discriminate.
Qed.

Lemma scan_NoDup im cell cands : forall cpeaks np,
  NoDup (map indices cpeaks ++ cands) ->
  NoDup (map indices (fst (scan im cell cands cpeaks np))).
Proof.
  induction cands as [|[[h' k'] l'] rest IH]; intros cpeaks np Hnd.
  - simpl. now rewrite app_nil_r in Hnd.
  - simpl.
    destruct (candidate im cell h' k' l') eqn:Ec;
      try (apply IH; eapply NoDup_remove_1; exact Hnd).
    apply candidate_Predicted in Ec. destruct Ec as [Ei _].
    assert (Hnd' : NoDup (map indices (cpeaks ++ [pk]) ++ rest)).
    { rewrite map_app, <- app_assoc. simpl. rewrite Ei. exact Hnd. }
    destruct (np + 1 =? MAX_CPEAKS)%Z.
    + simpl. eapply NoDup_app_remove_r. exact Hnd'.
    + apply IH. exact Hnd'.
Qed.

Lemma scan_Forall (P : cpeak -> Prop) im cell cands : forall cpeaks np,
  Forall P cpeaks ->
  (forall h' k' l' pk rlow rhigh close inside,
      In (h', k', l') cands ->
      candidate im cell h' k' l' = Predicted pk rlow rhigh close inside ->
      P pk) ->
  Forall P (fst (scan im cell cands cpeaks np)).
Proof.
  induction cands as [|[[h' k'] l'] rest IH]; intros cpeaks np Hacc Hc.
  - exact Hacc.
  - simpl.
    assert (Hrest : forall h0 k0 l0 pk rlow rhigh close inside,
               In (h0, k0, l0) rest ->
               candidate im cell h0 k0 l0
               = Predicted pk rlow rhigh close inside -> P pk).
    { intros. eapply Hc; [right|]; eassumption. }
    destruct (candidate im cell h' k' l') eqn:Ec; try (apply IH; assumption).
    assert (Hacc' : Forall P (cpeaks ++ [pk])).
    { apply Forall_app. split; [exact Hacc|]. constructor; [|constructor].
      eapply Hc; [left; reflexivity | exact Ec]. }
    destruct (np + 1 =? MAX_CPEAKS)%Z; [exact Hacc'|].
    apply IH; assumption.
Qed.

End Enumeration.

(** The index box that [find_intersections] scans. *)
Definition index_box {utils : Utils} (cell : UnitCell) : Z * Z * Z :=
  (to_int (mres / modulus (asx cell) (asy cell) (asz cell)),
   to_int (mres / modulus (bsx cell) (bsy cell) (bsz cell)),
   to_int (mres / modulus (csx cell) (csy cell) (csz cell))).

(** X17.  No reflection is predicted twice: the predictions that
    [find_intersections] returns have pairwise different index triples
    (h,k,l).  The array is missing only when its allocation failed. *)
Theorem X17_find_intersections_no_duplicates
        (libm : Libm) (utils : Utils) alloc_ok im cell :
  match fst (find_intersections alloc_ok im cell) with
  | Some cpeaks => NoDup (map indices cpeaks)
  | None => alloc_ok = false
  end.
Proof.
  unfold find_intersections. destruct alloc_ok; simpl negb; cbv iota;
    [|reflexivity].
  match goal with |- context [scan im cell ?c [] 0] =>
    pose proof (scan_NoDup im cell c [] 0%Z) as H;
    destruct (scan im cell c [] 0) as [cpeaks np] end.
  cbn [fst] in *. apply H. simpl. apply candidates_NoDup.
Qed.

(** X18.  Every prediction that [find_intersections] returns belongs to a
    lattice point other than the origin whose indices lie in the scanned
    box, [-hmax <= h < hmax] and likewise for k and l, and it is the
    prediction the loop body computes for that point. *)
Theorem X18_find_intersections_inside_the_box
        (libm : Libm) (utils : Utils) alloc_ok im cell :
  let '(hmax, kmax, lmax) := index_box cell in
  match fst (find_intersections alloc_ok im cell) with
  | Some cpeaks =>
      Forall (fun pk =>
                indices pk <> (0, 0, 0)%Z /\
                (- hmax <= h pk < hmax)%Z /\
                (- kmax <= k pk < kmax)%Z /\
                (- lmax <= l pk < lmax)%Z /\
                exists rlow rhigh close inside,
                  candidate im cell (h pk) (k pk) (l pk)
                  = Predicted pk rlow rhigh close inside)
             cpeaks
  | None => alloc_ok = false
  end.
Proof.
  unfold index_box, find_intersections.
  destruct alloc_ok; simpl negb; cbv iota; [|reflexivity].
  match goal with |- context [scan im cell ?c [] 0] =>
    pose proof (fun P => scan_Forall P im cell c [] 0%Z) as H;
    destruct (scan im cell c [] 0) as [cpeaks np] end.
  cbn [fst] in *. apply H; [constructor|].
  intros h' k' l' pk rlow rhigh close inside Hin Ec.
  apply In_candidates in Hin.
  destruct (candidate_Predicted _ _ _ _ _ _ _ _ _ _ Ec) as [Ei Hnz].
  unfold indices in *. injection Ei as Eh Ek El.
  rewrite Eh, Ek, El.
  split; [exact Hnz|]. repeat (split; [lia|]). eauto.
Qed.

End GeometryFacts.

(** ** Aperture photometry *)
Module PeaksFacts.

Import Double Peaks.

(** A loop whose body either returns, accumulates, or skips. *)
Lemma run_spec {S} (body : S -> Z * Z -> step S)
      (blocked usable : Z * Z -> bool) (add : S -> Z * Z -> S) :
  (forall st px,
      body st px = if blocked px then Ret1 st
                   else if usable px then Go (add st px) else Go st) ->
  forall pxs st,
    (existsb blocked pxs = true -> exists st', run body pxs st = Ret1 st') /\
    (existsb blocked pxs = false ->
     run body pxs st = Go (fold_left add (filter usable pxs) st)).
Proof.
  intros Hbody. induction pxs as [|px rest IH]; intros st.
  - simpl. split; [discriminate | reflexivity].
  - simpl. rewrite Hbody. destruct (blocked px); simpl.
    + split; [eauto | discriminate].
    + destruct (usable px); simpl; apply IH.
Qed.

Section OnPanel.
Context {libm : Libm} {ext : Externals}.

Variable im : image.
Variables cfs css : Z.
Variables ir_inn ir_mid ir_out : float.
Variable use_max_adu : bool.
Variable bgPkMask : option (Z -> Z).
Variable p : panel.

(** The background annulus and the signal aperture, as the loops
    delimit them. *)
Definition in_annulus (px : Z * Z) : bool :=
  negb (sq_dist (fst px) (snd px) >? out_lim_sq ir_out)
  && negb (sq_dist (fst px) (snd px) <? mid_lim_sq ir_mid).

Definition in_aperture (px : Z * Z) : bool :=
  negb (sq_dist (fst px) (snd px) >? lim_sq ir_inn).

Definition strays (px : Z * Z) : bool :=
  off_panel cfs css p (fst px) (snd px).

Definition in_bad (px : Z * Z) : bool :=
  bad_region im cfs css p (fst px) (snd px).

Definition masked_out (px : Z * Z) : bool :=
  bg_masked cfs css bgPkMask p (fst px) (snd px).

Definition bad_flags (px : Z * Z) : bool :=
  lacks_good_bits im (pixel_index im cfs css (fst px) (snd px))
  || has_bad_bits im (pixel_index im cfs css (fst px) (snd px)).

Definition value (px : Z * Z) : float :=
  data im (pixel_index im cfs css (fst px) (snd px)).

(** Background samples: annulus pixels outside predicted-peak regions. *)
Definition bg_usable (px : Z * Z) : bool :=
  in_annulus px && negb (masked_out px).

Definition bg_blocked (px : Z * Z) : bool :=
  in_annulus px
  && (strays px || in_bad px || (negb (masked_out px) && bad_flags px)).

Definition pk_blocked (px : Z * Z) : bool :=
  in_aperture px && (strays px || in_bad px || bad_flags px).

Definition bg_add (st : bg_state) (px : Z * Z) : bg_state :=
  {| bg_tot := bg_tot st + value px;
     bg_tot_sq := bg_tot_sq st + pow (value px) 2.0;
     bg_counts := bg_counts st + 1;
     bg_sat := if use_max_adu && (value px >? max_adu p) then true
               else bg_sat st |}.

Definition pk_add (bg_mean : float) (st : pk_state) (px : Z * Z) : pk_state :=
  {| pk_total := pk_total st + (value px - bg_mean);
     pk_counts := pk_counts st + 1;
     fsct := fsct st + (value px - bg_mean) * of_int (cfs + fst px);
     ssct := ssct st + (value px - bg_mean) * of_int (css + snd px);
     pk_sat := if use_max_adu && (value px - bg_mean >? max_adu p) then true
               else pk_sat st |}.

Lemma bg_pixel_spec st px :
  bg_pixel im cfs css ir_mid ir_out use_max_adu bgPkMask p st px =
  if bg_blocked px then Ret1 st
  else if bg_usable px then Go (bg_add st px) else Go st.
Proof.
  destruct px as [dfs dss].
  unfold bg_pixel, bg_blocked, bg_usable, in_annulus, strays, in_bad,
    masked_out, bad_flags, bg_add, value. cbn [fst snd].
  destruct (sq_dist dfs dss >? out_lim_sq ir_out); [reflexivity|].
  destruct (sq_dist dfs dss <? mid_lim_sq ir_mid); [reflexivity|].
  destruct (off_panel cfs css p dfs dss); [reflexivity|].
  destruct (bad_region im cfs css p dfs dss); [reflexivity|].
  destruct (bg_masked cfs css bgPkMask p dfs dss); [reflexivity|].
  destruct (lacks_good_bits im _); [reflexivity|].
  destruct (has_bad_bits im _); reflexivity.
Qed.

Lemma pk_pixel_spec bg_mean st px :
  pk_pixel im cfs css ir_inn use_max_adu p bg_mean st px =
  if pk_blocked px then Ret1 st
  else if in_aperture px then Go (pk_add bg_mean st px) else Go st.
Proof.
  destruct px as [dfs dss].
  unfold pk_pixel, pk_blocked, in_aperture, strays, in_bad,
    bad_flags, pk_add, value. cbn [fst snd].
  destruct (sq_dist dfs dss >? lim_sq ir_inn); [reflexivity|].
  destruct (off_panel cfs css p dfs dss); [reflexivity|].
  destruct (bad_region im cfs css p dfs dss); [reflexivity|].
  destruct (lacks_good_bits im _); [reflexivity|].
  destruct (has_bad_bits im _); reflexivity.
Qed.

(** The quantities of the variance model, computed from the samples in
    loop order. *)
Definition bg_samples : list float :=
  map value (filter bg_usable (pixels ir_out)).

Definition bg_n : Z := Z.of_nat (length bg_samples).

Definition bg_mean : float :=
  fold_left (fun a v => a + v) bg_samples 0 / of_int bg_n.

Definition bg_var : float :=
  (fold_left (fun a v => a + pow v 2.0) bg_samples 0 / of_int bg_n)
  - pow bg_mean 2.0.

Definition pk_samples : list float :=
  map (fun px => value px - bg_mean) (filter in_aperture (pixels ir_inn)).

Definition pk_n : Z := Z.of_nat (length pk_samples).

Definition pk_sum : float := fold_left (fun a v => a + v) pk_samples 0.

Definition variance : float :=
  of_int pk_n * bg_var + aduph im p * pk_sum.

Lemma fold_bg_add pxs : forall st,
  let st' := fold_left bg_add pxs st in
  bg_tot st' = fold_left (fun a v => a + v) (map value pxs) (bg_tot st) /\
  bg_tot_sq st' =
    fold_left (fun a v => a + pow v 2.0) (map value pxs) (bg_tot_sq st) /\
  bg_counts st' = (bg_counts st + Z.of_nat (length pxs))%Z.
Proof.
  induction pxs as [|px rest IH]; intros st.
  - simpl. repeat split. lia.
  - cbn [fold_left map length]. cbv zeta in *.
    destruct (IH (bg_add st px)) as (H1 & H2 & H3).
    rewrite H1, H2, H3. simpl. repeat split. lia.
Qed.

Lemma fold_pk_add m pxs : forall st,
  let st' := fold_left (pk_add m) pxs st in
  pk_total st' =
    fold_left (fun a v => a + v) (map (fun px => value px - m) pxs)
              (pk_total st) /\
  pk_counts st' = (pk_counts st + Z.of_nat (length pxs))%Z.
Proof.
  induction pxs as [|px rest IH]; intros st.
  - simpl. split; [reflexivity | lia].
  - cbn [fold_left map length]. cbv zeta in *.
    destruct (IH (pk_add m st px)) as (H1 & H2).
    rewrite H1, H2. simpl. split; [reflexivity | lia].
Qed.

(** The reasons for which the specification says a peak is vetoed. *)
Inductive veto_cause : Prop :=
| annulus_off_panel px :
    In px (pixels ir_out) -> in_annulus px = true -> strays px = true ->
    veto_cause
| aperture_off_panel px :
    In px (pixels ir_inn) -> in_aperture px = true -> strays px = true ->
    veto_cause
| annulus_in_bad_region px :
    In px (pixels ir_out) -> in_annulus px = true -> in_bad px = true ->
    veto_cause
| aperture_in_bad_region px :
    In px (pixels ir_inn) -> in_aperture px = true -> in_bad px = true ->
    veto_cause
| annulus_masked_pixel px :
    In px (pixels ir_out) -> bg_usable px = true -> bad_flags px = true ->
    veto_cause
| aperture_masked_pixel px :
    In px (pixels ir_inn) -> in_aperture px = true -> bad_flags px = true ->
    veto_cause
| no_background_samples : bg_n = 0%Z -> veto_cause
| no_signal_samples : pk_n = 0%Z -> veto_cause
| negative_variance : (variance <? 0.0) = true -> veto_cause.

Definition bg_init : bg_state :=
  {| bg_tot := 0; bg_tot_sq := 0; bg_counts := 0; bg_sat := false |}.

(** The run of the function on its panel, in terms of the samples. *)
Lemma integrate_on_panel_cases :
  let r := integrate_on_panel im cfs css ir_inn ir_mid ir_out
                              use_max_adu bgPkMask p in
  if existsb bg_blocked (pixels ir_out) then ret r = 1%Z
  else if (bg_n =? 0)%Z then ret r = 1%Z
  else if existsb pk_blocked (pixels ir_inn) then ret r = 1%Z
  else if (pk_n =? 0)%Z then ret r = 1%Z
  else if variance <? 0.0 then ret r = 1%Z
  else ret r = 0%Z /\ intensity r = Some pk_sum
       /\ sigma r = Some (sqrt variance).
Proof.
  cbv zeta. unfold integrate_on_panel.
  destruct (run_spec _ _ _ _ bg_pixel_spec (pixels ir_out) bg_init)
    as [Hb1 Hb0]. fold bg_init.
  destruct (existsb bg_blocked (pixels ir_out)).
  { destruct (Hb1 eq_refl) as [st' ->]. reflexivity. }
  rewrite (Hb0 eq_refl).
  destruct (fold_bg_add (filter bg_usable (pixels ir_out)) bg_init)
    as (Ht & Hq & Hc). cbv zeta in Ht, Hq, Hc.
  set (bg := fold_left bg_add (filter bg_usable (pixels ir_out)) bg_init) in *.
  assert (Hn : bg_counts bg = bg_n).
  { rewrite Hc. unfold bg_n, bg_samples. rewrite length_map. reflexivity. }
  rewrite Hn. destruct (bg_n =? 0)%Z; [reflexivity|].
  assert (Hm : bg_tot bg / of_int bg_n = bg_mean).
  { rewrite Ht. reflexivity. }
  rewrite Hm.
  destruct (run_spec _ _ _ _ (pk_pixel_spec bg_mean) (pixels ir_inn)
              {| pk_total := 0; pk_counts := 0; fsct := 0; ssct := 0;
                 pk_sat := bg_sat bg |}) as [Hp1 Hp0].
  destruct (existsb pk_blocked (pixels ir_inn)).
  { destruct (Hp1 eq_refl) as [st' ->]. reflexivity. }
  rewrite (Hp0 eq_refl).
  match goal with |- context [fold_left (pk_add bg_mean) ?l ?s] =>
    destruct (fold_pk_add bg_mean l s) as (Hpt & Hpc);
    cbv zeta in Hpt, Hpc; set (pk := fold_left (pk_add bg_mean) l s) in *
  end.
  assert (Hpn : pk_counts pk = pk_n).
  { rewrite Hpc. unfold pk_n, pk_samples. rewrite length_map. reflexivity. }
  assert (Hps : pk_total pk = pk_sum) by (rewrite Hpt; reflexivity).
  rewrite Hpn. destruct (pk_n =? 0)%Z; [reflexivity|].
  assert (Hv : of_int pk_n *
               (bg_tot_sq bg / of_int bg_n - pow bg_mean 2.0)
               + aduph im p * pk_total pk = variance).
  { rewrite Hq, Hps. reflexivity. }
  rewrite Hv. destruct (variance <? 0.0); simpl; [reflexivity|].
  rewrite Hps. auto.
Qed.

Lemma existsb_intro {A} (f : A -> bool) (l : list A) a :
  In a l -> f a = true -> existsb f l = true.
Proof. intros Hin Hf. apply existsb_exists. eauto. Qed.

Lemma veto_cause_vetoes :
  veto_cause ->
  ret (integrate_on_panel im cfs css ir_inn ir_mid ir_out
                          use_max_adu bgPkMask p) = 1%Z.
Proof.
  intros Hc. pose proof integrate_on_panel_cases as H. cbv zeta in H.
  destruct (existsb bg_blocked (pixels ir_out)) eqn:Eb; [exact H|].
  destruct (bg_n =? 0)%Z eqn:En; [exact H|].
  destruct (existsb pk_blocked (pixels ir_inn)) eqn:Ep; [exact H|].
  destruct (pk_n =? 0)%Z eqn:Em; [exact H|].
  destruct (variance <? 0.0) eqn:Ev; [exact H|].
  exfalso.
  destruct Hc as [px Hin Ha Hs|px Hin Ha Hs|px Hin Ha Hs|px Hin Ha Hs
                 |px Hin Ha Hs|px Hin Ha Hs|Hz|Hz|Hz].
  - rewrite (existsb_intro bg_blocked _ px Hin) in Eb; [discriminate|].
    unfold bg_blocked. now rewrite Ha, Hs.
  - rewrite (existsb_intro pk_blocked _ px Hin) in Ep; [discriminate|].
    unfold pk_blocked. now rewrite Ha, Hs.
  - rewrite (existsb_intro bg_blocked _ px Hin) in Eb; [discriminate|].
    unfold bg_blocked. rewrite Ha, Hs. now rewrite orb_true_r.
  - rewrite (existsb_intro pk_blocked _ px Hin) in Ep; [discriminate|].
    unfold pk_blocked. rewrite Ha, Hs. now rewrite orb_true_r.
  - rewrite (existsb_intro bg_blocked _ px Hin) in Eb; [discriminate|].
    unfold bg_usable in Ha. apply andb_true_iff in Ha as [Ha Hm].
    unfold bg_blocked. rewrite Ha, Hm, Hs. now rewrite orb_true_r.
  - rewrite (existsb_intro pk_blocked _ px Hin) in Ep; [discriminate|].
    unfold pk_blocked. rewrite Ha, Hs. now rewrite orb_true_r.
  - rewrite Hz in En. discriminate.
  - rewrite Hz in Em. discriminate.
  - congruence.
Qed.

Lemma success_sigma :
  ret (integrate_on_panel im cfs css ir_inn ir_mid ir_out
                          use_max_adu bgPkMask p) = 0%Z ->
  sigma (integrate_on_panel im cfs css ir_inn ir_mid ir_out
                            use_max_adu bgPkMask p)
  = Some (sqrt (of_int pk_n * bg_var + aduph im p * pk_sum)) /\
  intensity (integrate_on_panel im cfs css ir_inn ir_mid ir_out
                                use_max_adu bgPkMask p) = Some pk_sum.
Proof.
  intros Hr. pose proof integrate_on_panel_cases as H. cbv zeta in H.
  destruct (existsb bg_blocked (pixels ir_out)); [lia|].
  destruct (bg_n =? 0)%Z; [lia|].
  destruct (existsb pk_blocked (pixels ir_inn)); [lia|].
  destruct (pk_n =? 0)%Z; [lia|].
  destruct (variance <? 0.0); [lia|].
  destruct H as (_ & Hi & Hs). split; assumption.
Qed.

End OnPanel.

(** C7.  [integrate_peak] returns non-zero when the centre is on no panel
    (or on a panel excluded from indexing), when a pixel of the background
    annulus or of the signal aperture lies off the panel, in a bad region,
    or carries rejected flag bits, when the annulus or the aperture yields
    no sample, and when the variance is negative; and when it returns 0
    the reported sigma is
    [sqrt (pixel count * background variance + gain * signal)],
    the gain being ADU per photon and the signal the background-subtracted
    sum over the aperture. *)
Theorem C7_integrate_peak_vetoes_and_sigma
        (libm : Libm) (ext : Externals) im cfs css ir_inn ir_mid ir_out
        use_max_adu bgPkMask :
  let r := integrate_peak im cfs css ir_inn ir_mid ir_out
                          use_max_adu bgPkMask in
  (find_panel (det im) cfs css = None -> ret r <> 0%Z) /\
  (forall p, find_panel (det im) cfs css = Some p ->
     (no_index p = true -> ret r <> 0%Z) /\
     (veto_cause im cfs css ir_inn ir_mid ir_out bgPkMask p -> ret r <> 0%Z) /\
     (ret r = 0%Z ->
      sigma r =
      Some (sqrt (of_int (pk_n im cfs css ir_inn ir_mid ir_out bgPkMask p)
                  * bg_var im cfs css ir_mid ir_out bgPkMask p
                  + aduph im p
                    * pk_sum im cfs css ir_inn ir_mid ir_out bgPkMask p)))).
Proof.
  cbv zeta. unfold integrate_peak. split.
  - intros ->. simpl. discriminate.
  - intros p ->. destruct (no_index p) eqn:Ei.
    + simpl. repeat split; discriminate.
    + split; [discriminate|]. split.
      * intros Hc.
        rewrite (veto_cause_vetoes im cfs css ir_inn ir_mid ir_out
                   use_max_adu bgPkMask p Hc). discriminate.
      * intros Hr.
        apply (success_sigma im cfs css ir_inn ir_mid ir_out
                 use_max_adu bgPkMask p Hr).
Qed.

Example loop_range_of_radius :
  loop_range 2 = [-2; -1; 0; 1; 2]%Z /\
  loop_range 4.5 = [-4; -3; -2; -1; 0; 1; 2; 3; 4]%Z.
Proof. vm_compute. split; reflexivity. Qed.

(** A flat background of 10 ADU with one pixel of 100 ADU at (8,8), on a
    single 16x16 panel: the peak integrates to 90 with sigma [sqrt 90]. *)
Definition example_panel : panel :=
  {| min_fs := 0; max_fs := 15; min_ss := 0; max_ss := 15;
     no_index := false; adu_per_eV := 1; max_adu := 1e6 |}.

Definition example_externals : Externals :=
  {| find_panel := fun d fs ss =>
       find (fun q => (min_fs q <=? fs)%Z && (fs <=? max_fs q)%Z
                      && (min_ss q <=? ss)%Z && (ss <=? max_ss q)%Z)
            (panels d);
     in_bad_region := fun _ _ _ => false;
     ph_lambda_to_eV := fun _ => 1 |}.

Definition flat_image : image :=
  {| det := {| panels := [example_panel]; mask_good := 0; mask_bad := 0 |};
     width := 16;
     data := fun idx => if (idx =? 8 + 16 * 8)%Z then 100 else 10;
     flags := None;
     lambda := 1e-10 |}.

Example integrate_peak_flat_background :
  let r := @integrate_peak example_libm example_externals flat_image
                           8 8 1 2 3 true None in
  ret r = 0%Z /\ intensity r = Some 90 /\ sigma r = Some (sqrt 90).
Proof. vm_compute. repeat split. Qed.

Example integrate_peak_near_edge :
  ret (@integrate_peak example_libm example_externals flat_image
                       1 8 1 2 3 true None) = 1%Z.
Proof. vm_compute. reflexivity. Qed.

(** There the annulus pixel three columns to the left of the centre lies
    off the panel. *)
Example near_edge_veto_cause :
  @veto_cause example_libm example_externals flat_image 1 8 1 2 3 None
              example_panel.
Proof.
  apply (annulus_off_panel _ _ _ _ _ _ _ _ (-3, 0)%Z).
  - vm_compute. repeat ((left; reflexivity) || right).
  - vm_compute. reflexivity.
  - vm_compute. reflexivity.
Qed.


Import DoubleFacts ListFacts.

(** *** Vetoes and outputs of [integrate_peak] *)

Section Outputs.
Context {libm : Libm} {ext : Externals}.

Variable im : image.
Variables cfs css : Z.
Variables ir_inn ir_mid ir_out : float.
Variable use_max_adu : bool.
Variable bgPkMask : option (Z -> Z).

(** A run on a panel ends with status 0 and all four outputs written, or
    with status 1 and neither [*intensity] nor [*sigma] written. *)
Lemma integrate_on_panel_outputs p :
  let r := integrate_on_panel im cfs css ir_inn ir_mid ir_out
                              use_max_adu bgPkMask p in
  (ret r = 0%Z /\ pfs r <> None /\ pss r <> None
   /\ intensity r <> None /\ sigma r <> None)
  \/ (ret r = 1%Z /\ intensity r = None /\ sigma r = None).
Proof.
  cbv zeta. unfold integrate_on_panel.
  destruct (run _ (pixels ir_out) _) as [bg|bg]; [|right; repeat split].
  destruct (bg_counts bg =? 0)%Z; [right; repeat split|].
  destruct (run _ (pixels ir_inn) _) as [pk|pk]; [|right; repeat split].
  destruct (pk_counts pk =? 0)%Z; [right; repeat split|].
  destruct (_ <? 0.0); [right; repeat split|].
  left. cbn. repeat split; discriminate.
Qed.

Lemma veto_has_cause p :
  ret (integrate_on_panel im cfs css ir_inn ir_mid ir_out
                          use_max_adu bgPkMask p) = 1%Z ->
  veto_cause im cfs css ir_inn ir_mid ir_out bgPkMask p.
Proof.
  intros Hr.
  pose proof (integrate_on_panel_cases im cfs css ir_inn ir_mid ir_out
                use_max_adu bgPkMask p) as H. cbv zeta in H.
  destruct (existsb _ (pixels ir_out)) eqn:Eb.
  { apply existsb_exists in Eb. destruct Eb as (px & Hin & Hb).
    unfold bg_blocked in Hb. apply andb_true_iff in Hb. destruct Hb as [Ha Hb].
    apply orb_true_iff in Hb. destruct Hb as [Hb|Hb].
    - apply orb_true_iff in Hb. destruct Hb as [Hs|Hs].
      + eapply annulus_off_panel; eassumption.
      + eapply annulus_in_bad_region; eassumption.
    - apply andb_true_iff in Hb. destruct Hb as [Hm Hf].
      eapply annulus_masked_pixel; [exact Hin | | exact Hf].
      unfold bg_usable. now rewrite Ha, Hm. }
  destruct (bg_n _ _ _ _ _ _ _ =? 0)%Z eqn:En.
  { apply no_background_samples. apply Z.eqb_eq, En. }
  destruct (existsb _ (pixels ir_inn)) eqn:Ep.
  { apply existsb_exists in Ep. destruct Ep as (px & Hin & Hb).
    unfold pk_blocked in Hb. apply andb_true_iff in Hb. destruct Hb as [Ha Hb].
    apply orb_true_iff in Hb. destruct Hb as [Hb|Hf].
    - apply orb_true_iff in Hb. destruct Hb as [Hs|Hs].
      + eapply aperture_off_panel; eassumption.
      + eapply aperture_in_bad_region; eassumption.
    - eapply aperture_masked_pixel; eassumption. }
  destruct (pk_n _ _ _ _ _ _ _ _ =? 0)%Z eqn:Em.
  { apply no_signal_samples. apply Z.eqb_eq, Em. }
  destruct (variance _ _ _ _ _ _ _ _ <? 0.0) eqn:Ev.
  { apply negative_variance. exact Ev. }
  destruct H as [H0 _]. congruence.
Qed.

End Outputs.

(** X19.  [integrate_peak] returns 0 or 1.  It writes [*intensity] and
    [*sigma] exactly when it returns 0, in which case the centroid is
    written too; a vetoed peak never leaves an intensity behind.  And it
    vetoes for no other reason than the ones listed: when the centre lies
    on a panel that takes part in indexing and the call returns 1, a pixel
    of the annulus or of the aperture is off the panel, in a bad region or
    carries rejected flag bits, or one of the two regions gave no sample,
    or the variance is negative. *)
Theorem X19_integrate_peak_vetoes_only_for_cause
        (libm : Libm) (ext : Externals) im cfs css ir_inn ir_mid ir_out
        use_max_adu bgPkMask :
  let r := integrate_peak im cfs css ir_inn ir_mid ir_out
                          use_max_adu bgPkMask in
  (ret r = 0%Z \/ ret r = 1%Z) /\
  (ret r = 0%Z <-> intensity r <> None) /\
  (ret r = 0%Z <-> sigma r <> None) /\
  (ret r = 0%Z -> pfs r <> None /\ pss r <> None) /\
  (forall p, find_panel (det im) cfs css = Some p -> no_index p = false ->
     ret r = 1%Z ->
     veto_cause im cfs css ir_inn ir_mid ir_out bgPkMask p).
Proof.
  cbv zeta. unfold integrate_peak.
  destruct (find_panel (det im) cfs css) as [p|].
  - destruct (no_index p) eqn:Ei.
    + cbn. split; [right; reflexivity|].
      repeat match goal with
             | |- _ /\ _ => split
             | |- _ <-> _ => split
             end; try discriminate; try congruence.
    + pose proof (integrate_on_panel_outputs im cfs css ir_inn ir_mid ir_out
                    use_max_adu bgPkMask p) as Ho. cbv zeta in Ho.
      split; [destruct Ho as [(-> & _)|(-> & _)]; auto|].
      split; [destruct Ho as [(-> & _ & _ & Hi & _)|(-> & -> & _)];
              split; congruence|].
      split; [destruct Ho as [(-> & _ & _ & _ & Hs)|(-> & _ & ->)];
              split; congruence|].
      split; [destruct Ho as [(_ & Hf & Hs & _)|(-> & _)];
              [auto | discriminate]|].
      intros p' E _. injection E as <-. apply veto_has_cause.
  - cbn. split; [right; reflexivity|].
    repeat match goal with
           | |- _ /\ _ => split
           | |- _ <-> _ => split
           end; try discriminate; try congruence.
Qed.

(** *** The mask of predicted peaks *)

(** Storing 1 at each index of a list. *)
Definition write_all (idxs : list Z) (mask : Z -> Z) : Z -> Z :=
  fold_left (fun m idx => fun i => if (i =? idx)%Z then 1%Z else m i)
            idxs mask.

Lemma write_all_spec idxs : forall mask i,
  write_all idxs mask i = if existsb (Z.eqb i) idxs then 1%Z else mask i.
Proof.
  unfold write_all.
  induction idxs as [|idx rest IH]; intros mask i; simpl; [reflexivity|].
  rewrite IH. destruct (existsb (Z.eqb i) rest); [now rewrite orb_true_r|].
  rewrite orb_false_r. reflexivity.
Qed.

Lemma write_all_app l1 l2 mask :
  write_all (l1 ++ l2) mask = write_all l2 (write_all l1 mask).
Proof. unfold write_all. apply fold_left_app. Qed.

(** *** The pixel loops *)

(** [d] is a value the loop [for ( d=-ir; d<=ir; d++ )] takes: it starts
    at the truncation of [-ir], and [d' <= ir] has held for every [d']
    from there up to [d]. *)
Definition loop_takes (ir : float) (d : Z) : Prop :=
  (to_int (- ir) <= d <= to_int ir)%Z /\
  forall d', (to_int (- ir) <= d' <= d)%Z -> (of_int d' <=? ir) = true.

Lemma take_while_range (f : Z -> bool) : forall n lo d,
  In d (take_while f (map (fun i => (lo + Z.of_nat i)%Z) (seq 0 n))) <->
  (lo <= d < lo + Z.of_nat n)%Z /\
  forall d', (lo <= d' <= d)%Z -> f d' = true.
Proof.
  induction n as [|n IH]; intros lo d.
  - simpl. split; [intros [] | intros [H _]; lia].
  - cbn [seq map]. rewrite <- seq_shift, map_map.
    rewrite (map_ext _ (fun i => (lo + 1 + Z.of_nat i)%Z))
      by (intros i; lia).
    rewrite Z.add_0_r. cbn [take_while].
    destruct (f lo) eqn:Ef.
    + cbn [In]. rewrite IH. split.
      * intros [<- | (Hd & Hall)].
        -- split; [lia|]. intros d' Hd'.
           replace d' with lo by lia. exact Ef.
        -- split; [lia|]. intros d' Hd'.
           destruct (Z.eq_dec d' lo) as [->|Hne]; [exact Ef|].
           apply Hall. lia.
      * intros (Hd & Hall).
        destruct (Z.eq_dec lo d) as [E|Hne]; [left; exact E | right].
        split; [lia|]. intros d' Hd'. apply Hall. lia.
    + split; [intros [] | intros (Hd & Hall)].
      rewrite (Hall lo) in Ef by lia. discriminate.
Qed.

Lemma In_loop_range ir d : In d (loop_range ir) <-> loop_takes ir d.
Proof.
  unfold loop_range, loop_takes, Zrange. rewrite take_while_range.
  split; intros (Hd & Hall); (split; [lia | exact Hall]).
Qed.

Lemma In_pixels ir dfs dss :
  In (dfs, dss) (pixels ir) <-> loop_takes ir dfs /\ loop_takes ir dss.
Proof.
  unfold pixels. rewrite in_flat_map. split.
  - intros (d & Hd & Hin). apply in_map_iff in Hin.
    destruct Hin as (d' & E & Hd'). injection E as -> ->.
    split; apply In_loop_range; assumption.
  - intros (H1 & H2). exists dfs. split; [apply In_loop_range, H1|].
    apply in_map_iff. exists dss. split; [reflexivity|].
    apply In_loop_range, H2.
Qed.

(** With a radius of 2.5 the loop takes -2, -1, 0, 1 and 2. *)
Example loop_range_two_and_a_half : loop_range 2.5 = [-2; -1; 0; 1; 2]%Z.
Proof. vm_compute. reflexivity. Qed.

Section BgMaskFacts.
Variable on_this_panel : predicted -> bool.
Variable p : panel.
Variable ir_inn : float.

(** The indices the loops store at for one reflection, in order. *)
Definition marked (refl : predicted) : list Z :=
  if negb (on_this_panel refl) then []
  else
    flat_map (fun px =>
                match mask_index p ir_inn
                        (pk2_fs refl - of_int (min_fs p))
                        (pk2_ss refl - of_int (min_ss p)) px with
                | Some idx => [idx]
                | None => []
                end) (pixels ir_inn).

Lemma mask_pixels_write cfs css pxs : forall mask,
  fold_left (mask_pixel p ir_inn cfs css) pxs mask
  = write_all (flat_map (fun px => match mask_index p ir_inn cfs css px with
                                   | Some idx => [idx]
                                   | None => []
                                   end) pxs) mask.
Proof.
  induction pxs as [|px rest IH]; intros mask; simpl; [reflexivity|].
  rewrite IH, write_all_app. unfold mask_pixel.
  destruct (mask_index p ir_inn cfs css px); reflexivity.
Qed.

Lemma mask_reflection_write mask refl :
  mask_reflection on_this_panel p ir_inn mask refl
  = write_all (marked refl) mask.
Proof.
  unfold mask_reflection, marked.
  destruct (negb (on_this_panel refl)); [reflexivity|].
  apply mask_pixels_write.
Qed.

Lemma mask_reflections_write refls : forall mask,
  fold_left (mask_reflection on_this_panel p ir_inn) refls mask
  = write_all (flat_map marked refls) mask.
Proof.
  induction refls as [|refl rest IH]; intros mask; simpl; [reflexivity|].
  rewrite IH, write_all_app, mask_reflection_write. reflexivity.
Qed.

(** A pixel of the panel, by its coordinates relative to the panel
    origin, lies within [ir_inn] of a reflection predicted on the panel:
    it is the reflection's position displaced by whole pixels [dfs] and
    [dss] that the two loops take, with [dfs*dfs + dss*dss] not above
    [ir_inn*ir_inn], and truncated. *)
Definition near_reflection (refl : predicted) (fs ss : Z) : Prop :=
  on_this_panel refl = true /\
  exists dfs dss,
    loop_takes ir_inn dfs /\ loop_takes ir_inn dss /\
    (of_int (dfs * dfs + dss * dss) >? ir_inn * ir_inn) = false /\
    fs = to_int (pk2_fs refl - of_int (min_fs p) + of_int dfs) /\
    ss = to_int (pk2_ss refl - of_int (min_ss p) + of_int dss).

Lemma mask_index_spec cfs css dfs dss idx :
  mask_index p ir_inn cfs css (dfs, dss) = Some idx <->
  (of_int (dfs * dfs + dss * dss) >? ir_inn * ir_inn) = false /\
  (0 <= to_int (cfs + of_int dfs) < max_fs p - min_fs p + 1)%Z /\
  (0 <= to_int (css + of_int dss) < max_ss p - min_ss p + 1)%Z /\
  idx = (to_int (cfs + of_int dfs)
         + to_int (css + of_int dss) * (max_fs p - min_fs p + 1))%Z.
Proof.
  unfold mask_index.
  destruct (of_int (dfs * dfs + dss * dss) >? ir_inn * ir_inn).
  { split; [discriminate | intros (Hx & _); discriminate]. }
  destruct (Z.geb_spec (to_int (cfs + of_int dfs)) (max_fs p - min_fs p + 1)).
  { split; [discriminate | intros (_ & Hx & _); lia]. }
  destruct (Z.geb_spec (to_int (css + of_int dss)) (max_ss p - min_ss p + 1)).
  { split; [discriminate | intros (_ & _ & Hx & _); lia]. }
  destruct (Z.ltb_spec (to_int (cfs + of_int dfs)) 0).
  { split; [discriminate | intros (_ & Hx & _); lia]. }
  destruct (Z.ltb_spec (to_int (css + of_int dss)) 0).
  { split; [discriminate | intros (_ & _ & Hx & _); lia]. }
  split.
  - intros E. injection E as <-. repeat split; lia.
  - intros (_ & _ & _ & ->). reflexivity.
Qed.

Lemma In_marked refl idx :
  In idx (marked refl) <->
  exists fs ss,
    near_reflection refl fs ss /\
    (0 <= fs < max_fs p - min_fs p + 1)%Z /\
    (0 <= ss < max_ss p - min_ss p + 1)%Z /\
    idx = (fs + ss * (max_fs p - min_fs p + 1))%Z.
Proof.
  unfold marked, near_reflection.
  destruct (on_this_panel refl); cbn [negb].
  - rewrite flat_map_option_In. split.
    + intros ([dfs dss] & Hin & E). apply mask_index_spec in E.
      destruct E as (Hd & Hf & Hs & ->). apply In_pixels in Hin.
      destruct Hin as [Hin1 Hin2].
      eexists _, _. split; [split; [reflexivity|]; exists dfs, dss; eauto|].
      auto.
    + intros (fs & ss & (_ & dfs & dss & H1 & H2 & Hd & -> & ->)
              & Hf & Hs & ->).
      exists (dfs, dss). split; [apply In_pixels; auto|].
      apply mask_index_spec. auto.
  - split; [intros [] | intros (fs & ss & (H & _) & _); discriminate].
Qed.

End BgMaskFacts.

(** X20.  The mask [make_BgMask] returns holds only 0 and 1, and nothing
    is stored outside the [w*h] entries allocated for the panel.  An
    entry is 1 exactly when its pixel lies within [ir_inn] of a
    reflection predicted on this panel; with no reflection list
    ([image->reflections == NULL]) the mask is all zero.  The function
    returns NULL only when the allocation fails. *)
Theorem X20_make_BgMask_marks_peak_regions
        (on_this_panel : predicted -> bool) (p : panel) (ir_inn : float)
        (alloc_ok : bool) (reflections : option (list predicted)) :
  let w := (max_fs p - min_fs p + 1)%Z in
  let h := (max_ss p - min_ss p + 1)%Z in
  match make_BgMask on_this_panel p ir_inn alloc_ok reflections with
  | None => alloc_ok = false
  | Some mask =>
      (forall i, mask i = 0%Z \/ mask i = 1%Z) /\
      (forall i, mask i = 1%Z -> (0 <= i < w * h)%Z) /\
      (forall i,
          mask i = 1%Z <->
          exists refl fs ss,
            In refl (match reflections with Some l => l | None => [] end) /\
            near_reflection on_this_panel p ir_inn refl fs ss /\
            (0 <= fs < w)%Z /\ (0 <= ss < h)%Z /\
            i = (fs + ss * w)%Z)
  end.
Proof.
  cbv zeta. unfold make_BgMask.
  destruct alloc_ok; cbn [negb]; [|reflexivity].
  assert (H : forall refls i,
             write_all (flat_map (marked on_this_panel p ir_inn) refls)
                       (fun _ => 0%Z) i = 1%Z <->
             exists refl fs ss,
               In refl refls /\
               near_reflection on_this_panel p ir_inn refl fs ss /\
               (0 <= fs < max_fs p - min_fs p + 1)%Z /\
               (0 <= ss < max_ss p - min_ss p + 1)%Z /\
               i = (fs + ss * (max_fs p - min_fs p + 1))%Z).
  { intros refls i. rewrite write_all_spec.
    destruct (existsb _ _) eqn:E.
    - apply existsb_exists in E. destruct E as (idx & Hin & Ei).
      apply Z.eqb_eq in Ei. subst idx. apply in_flat_map in Hin.
      destruct Hin as (refl & Hr & Hm). apply In_marked in Hm.
      destruct Hm as (fs & ss & Hm). split; [|reflexivity].
      intros _. exists refl, fs, ss. tauto.
    - split; [discriminate|].
      intros (refl & fs & ss & Hr & Hn & Hf & Hs & ->). exfalso.
      assert (Hin : existsb
                      (Z.eqb (fs + ss * (max_fs p - min_fs p + 1)))
                      (flat_map (marked on_this_panel p ir_inn) refls) = true).
      { apply existsb_exists. eexists. split; [|apply Z.eqb_refl].
        apply in_flat_map. exists refl. split; [exact Hr|].
        apply In_marked. exists fs, ss. auto. }
      congruence. }
  destruct reflections as [refls|].
  - rewrite mask_reflections_write.
    split; [|split; [|apply H]].
    + intros i. rewrite write_all_spec. destruct (existsb _ _); auto.
    + intros i Hi. apply H in Hi.
      destruct Hi as (refl & fs & ss & _ & _ & Hf & Hs & ->). nia.
  - split; [auto|]. split; [discriminate|].
    intros i. split; [discriminate|].
    intros (refl & fs & ss & [] & _).
Qed.

(** A reflection predicted at (5.2, 3.7) on a 10 x 10 panel, radius 1:
    the pixel under it and its four neighbours are marked. *)
Example make_BgMask_cross :
  match make_BgMask (fun _ => true)
                    {| min_fs := 0; max_fs := 9; min_ss := 0; max_ss := 9;
                       no_index := false; adu_per_eV := 1; max_adu := 1 |}
                    1 true (Some [{| pk2_fs := 5.2; pk2_ss := 3.7 |}]) with
  | Some mask => map mask [25; 34; 35; 36; 45; 24; 44]%Z
  | None => []
  end = [1; 1; 1; 1; 1; 0; 0]%Z.
Proof. vm_compute. reflexivity. Qed.

(** *** [validate_peaks] *)

Section ValidateFacts.
Context {libm : Libm} {ext : Externals}.
Variable find_panel_at : detector -> float -> float -> option panel.
Variable image_feature_closest : list imagefeature -> float -> float -> float.
Variable im : image.
Variable min_snr : float.
Variables ir_inn ir_mid ir_out : Z.









End ValidateFacts.


(** The image of the examples above with four entries in its feature
    list: a peak, a NULL entry, a position near the edge and the same peak
    again.  The first is kept at its centroid, the others are counted as
    NULL, vetoed and too close. *)
Example validate_peaks_flat_image :
  @validate_peaks example_libm example_externals
    (fun d fs ss => @find_panel example_externals d (to_int fs) (to_int ss))
    (fun flist fs ss =>
       fold_left (fun d g =>
                    let e := sqrt ((fs - f_fs g) * (fs - f_fs g)
                                   + (ss - f_ss g) * (ss - f_ss g)) in
                    if e <? d then e else d) flist infinity)
    flat_image 5 1 2 3
    [Some {| f_fs := 8.4; f_ss := 8.6; f_intensity := 0 |}; None;
     Some {| f_fs := 1; f_ss := 8; f_intensity := 0 |};
     Some {| f_fs := 8.2; f_ss := 8.1; f_intensity := 0 |}]
  = ([{| f_fs := 8.5; f_ss := 8.5; f_intensity := 90 |}],
     {| n_wtf := 1; n_int := 1; n_dft := 0; n_snr := 0; n_prx := 1 |}).
Proof. vm_compute. reflexivity. Qed.


(** *** Culling *)

Section CullFacts.
Variable FeatureList : Type.
Variable image_feature_count : FeatureList -> Z.
Variable image_get_feature : FeatureList -> Z -> option imagefeature.
Variable image_remove_feature : FeatureList -> Z -> FeatureList.

(** A direction along which peaks are culled. *)
Definition culls (badrow : Z) : bool :=
  (badrow =? char_f)%Z || (badrow =? char_s)%Z.

Lemma count_in_line_none badrow features n i f :
  culls badrow = false ->
  count_in_line FeatureList image_get_feature badrow features n i f = 0%Z.
Proof.
  intros Hc. apply orb_false_iff in Hc. destruct Hc as [Hf Hs].
  unfold count_in_line.
  apply (fold_left_invariant (fun ncol => ncol = 0%Z)); [|reflexivity].
  intros ncol j ->. destruct (i =? j)%Z; [reflexivity|].
  destruct (image_get_feature features j); [|reflexivity].
  rewrite Hf, Hs. reflexivity.
Qed.

Lemma delete_in_line_returns badrow f js : forall features nelim,
  culls badrow = true -> (0 <= nelim)%Z ->
  exists features' nelim',
    delete_in_line FeatureList image_get_feature image_remove_feature
                   badrow f js features nelim
    = Returned (features', nelim') /\ (nelim <= nelim')%Z.
Proof.
  induction js as [|j rest IH]; intros features nelim Hc Hn; simpl.
  - eauto using Z.le_refl.
  - destruct (image_get_feature features j) as [g|]; [|apply IH; assumption].
    pose proof Hc as Hc'. unfold culls in Hc'.
    destruct (badrow =? char_f)%Z.
    + destruct (_ <? 2.0).
      * destruct (IH (image_remove_feature features j) (nelim + 1)%Z Hc
                     ltac:(lia)) as (f' & n' & E & Hle).
        exists f', n'. split; [exact E | lia].
      * apply IH; assumption.
    + destruct (badrow =? char_s)%Z; [|discriminate].
      destruct (_ <? 2.0).
      * destruct (IH (image_remove_feature features j) (nelim + 1)%Z Hc
                     ltac:(lia)) as (f' & n' & E & Hle).
        exists f', n'. split; [exact E | lia].
      * apply IH; assumption.
Qed.

Lemma cull_loop_returns p badrow n positions : forall features nelim,
  (0 <= nelim)%Z ->
  exists features' nelim',
    cull_loop FeatureList image_get_feature image_remove_feature
              p badrow n positions features nelim
    = Returned (features', nelim') /\ (nelim <= nelim')%Z /\
    (culls badrow = false -> features' = features /\ nelim' = nelim).
Proof.
  induction positions as [|i rest IH]; intros features nelim Hn; simpl.
  - exists features, nelim. repeat split. lia.
  - destruct (image_get_feature features i) as [f|]; [|apply IH, Hn].
    destruct (_ <? _); [apply IH, Hn|].
    destruct (_ >? _); [apply IH, Hn|].
    destruct (_ <? _); [apply IH, Hn|].
    destruct (_ >? _); [apply IH, Hn|].
    destruct (culls badrow) eqn:Hc.
    + destruct (_ <=? 3)%Z; [apply IH, Hn|].
      destruct (delete_in_line_returns badrow f (Zrange 0 n) features nelim
                  Hc Hn) as (f1 & n1 & -> & Hle).
      destruct (IH f1 n1 ltac:(lia)) as (f2 & n2 & E & Hle2 & _).
      exists f2, n2. split; [exact E|]. split; [lia | discriminate].
    + rewrite (count_in_line_none badrow features n i f Hc). cbn.
      apply IH, Hn.
Qed.

Lemma cull_panels_returns panels : forall features nelim,
  (0 <= nelim)%Z ->
  exists features' nelim',
    cull_panels FeatureList image_feature_count image_get_feature
                image_remove_feature panels features nelim
    = Returned (features', nelim') /\ (nelim <= nelim')%Z /\
    (Forall (fun pb => culls (snd pb) = false) panels ->
     features' = features /\ nelim' = nelim).
Proof.
  induction panels as [|[p badrow] rest IH]; intros features nelim Hn; simpl.
  - exists features, nelim. repeat split. lia.
  - destruct (negb (badrow =? char_dash)%Z).
    + unfold cull_peaks_in_panel.
      destruct (cull_loop_returns p badrow (image_feature_count features)
                  (Zrange 0 (image_feature_count features)) features 0%Z
                  ltac:(lia)) as (f1 & n1 & -> & Hle & Hsame).
      destruct (IH f1 (nelim + n1)%Z ltac:(lia)) as (f2 & n2 & E & Hle2 & Hs2).
      exists f2, n2. split; [exact E|]. split; [lia|].
      intros Hall. inversion Hall as [|? ? Hb Hrest]; subst. cbn in Hb.
      destruct (Hsame Hb) as [-> ->]. destruct (Hs2 Hrest) as [-> ->].
      split; [reflexivity | lia].
    + destruct (IH features nelim Hn) as (f2 & n2 & E & Hle2 & Hs2).
      exists f2, n2. split; [exact E|]. split; [lia|].
      intros Hall. inversion Hall; subst. auto.
Qed.

End CullFacts.

(** X22.  [cull_peaks_in_panel] and [cull_peaks] always return: the
    [abort()] under "Invalid badrow direction" is never reached, because
    the loop that deletes runs only after more than three peaks were
    counted in one line, and peaks are counted only for the directions 'f'
    and 's'.  The number of removals they return is not negative, and for
    any other direction nothing is removed and 0 is returned. *)
Theorem X22_cull_peaks_never_aborts
        (FeatureList : Type)
        (image_feature_count : FeatureList -> Z)
        (image_get_feature : FeatureList -> Z -> option imagefeature)
        (image_remove_feature : FeatureList -> Z -> FeatureList)
        (features : FeatureList) :
  (forall p badrow,
      exists features' nelim,
        cull_peaks_in_panel FeatureList image_feature_count
                            image_get_feature image_remove_feature
                            p badrow features
        = Returned (features', nelim) /\ (0 <= nelim)%Z /\
        (badrow <> char_f -> badrow <> char_s ->
         features' = features /\ nelim = 0%Z)) /\
  (forall panels,
      exists features' nelim,
        cull_peaks FeatureList image_feature_count image_get_feature
                   image_remove_feature panels features
        = Returned (features', nelim) /\ (0 <= nelim)%Z /\
        (Forall (fun pb => snd pb <> char_f /\ snd pb <> char_s) panels ->
         features' = features /\ nelim = 0%Z)).
Proof.
  assert (Hculls : forall b, b <> char_f -> b <> char_s -> culls b = false).
  { intros b Hf Hs. unfold culls.
    destruct (Z.eqb_spec b char_f), (Z.eqb_spec b char_s);
      try contradiction; reflexivity. }
  split.
  - intros p badrow. unfold cull_peaks_in_panel.
    destruct (cull_loop_returns FeatureList image_get_feature
                image_remove_feature p badrow
                (image_feature_count features)
                (Zrange 0 (image_feature_count features)) features 0%Z
                ltac:(lia)) as (f1 & n1 & E & Hle & Hsame).
    exists f1, n1. split; [exact E|]. split; [exact Hle|].
    intros Hf Hs. apply Hsame, Hculls; assumption.
  - intros panels. unfold cull_peaks.
    destruct (cull_panels_returns FeatureList image_feature_count
                image_get_feature image_remove_feature panels features 0%Z
                ltac:(lia)) as (f1 & n1 & E & Hle & Hsame).
    exists f1, n1. split; [exact E|]. split; [exact Hle|].
    intros Hall. apply Hsame.
    eapply Forall_impl; [|exact Hall]. intros [p b] [Hf Hs]. cbn in *.
    apply Hculls; assumption.
Qed.

(** A feature list as an array whose removed entries read as NULL, and five
    peaks in one row of a panel culled along 'f': all five are removed. *)
Definition array_get (l : list (option imagefeature)) (j : Z)
  : option imagefeature :=
  nth (Z.to_nat j) l None.

Definition array_remove (l : list (option imagefeature)) (j : Z)
  : list (option imagefeature) :=
  firstn (Z.to_nat j) l ++ None :: skipn (S (Z.to_nat j)) l.

Example cull_five_in_a_row :
  cull_peaks_in_panel (list (option imagefeature))
                      (fun l => Z.of_nat (length l)) array_get array_remove
                      example_panel char_f
                      (map (fun fs => Some {| f_fs := fs; f_ss := 8;
                                              f_intensity := 1 |})
                           [1; 3; 5; 7; 9])
  = Returned ([None; None; None; None; None], 5%Z).
Proof. vm_compute. reflexivity. Qed.


(** *** Saturation *)

Section Saturation.
Context {libm : Libm} {ext : Externals}.

Variable im : image.
Variables cfs css : Z.
Variables ir_inn ir_mid ir_out : float.
Variable use_max_adu : bool.
Variable bgPkMask : option (Z -> Z).
Variable p : panel.

(** A background sample, or a background-subtracted signal sample, above
    the saturation level of the panel. *)
Definition bg_hot (px : Z * Z) : bool :=
  value im cfs css px >? max_adu p.

Definition pk_hot (px : Z * Z) : bool :=
  value im cfs css px - bg_mean im cfs css ir_mid ir_out bgPkMask p
  >? max_adu p.

Lemma fold_bg_sat pxs : forall st,
  bg_sat (fold_left (bg_add im cfs css use_max_adu p) pxs st)
  = bg_sat st || (use_max_adu && existsb bg_hot pxs).
Proof.
  induction pxs as [|px rest IH]; intros st; cbn [fold_left existsb].
  - now rewrite andb_false_r, orb_false_r.
  - rewrite IH. cbn [bg_add bg_sat]. unfold bg_hot at 2.
    destruct use_max_adu; cbn [andb]; [|now rewrite !orb_false_r].
    destruct (value im cfs css px >? max_adu p); cbn [orb].
    + now rewrite orb_true_r.
    + reflexivity.
Qed.

Lemma fold_pk_sat m pxs : forall st,
  pk_sat (fold_left (pk_add im cfs css use_max_adu p m) pxs st)
  = pk_sat st
    || (use_max_adu
        && existsb (fun px => value im cfs css px - m >? max_adu p) pxs).
Proof.
  induction pxs as [|px rest IH]; intros st; cbn [fold_left existsb].
  - now rewrite andb_false_r, orb_false_r.
  - rewrite IH. cbn [pk_add pk_sat].
    destruct use_max_adu; cbn [andb]; [|now rewrite !orb_false_r].
    destruct (value im cfs css px - m >? max_adu p); cbn [orb].
    + now rewrite orb_true_r.
    + reflexivity.
Qed.

(** The flag after the background loop, and after a run that reaches
    the end of both loops. *)
Lemma integrate_on_panel_saturated :
  let r := integrate_on_panel im cfs css ir_inn ir_mid ir_out
                              use_max_adu bgPkMask p in
  (use_max_adu = false -> saturated r = false) /\
  (ret r = 0%Z ->
   saturated r
   = use_max_adu
     && (existsb bg_hot
                 (filter (bg_usable cfs css ir_mid ir_out bgPkMask p)
                         (pixels ir_out))
         || existsb pk_hot (filter (in_aperture ir_inn) (pixels ir_inn)))).
Proof.
  cbv zeta.
  assert (Hbg : forall pxs st,
             match run (bg_pixel im cfs css ir_mid ir_out use_max_adu
                                 bgPkMask p) pxs st with
             | Go st' | Ret1 st' =>
                 use_max_adu = false -> bg_sat st = false ->
                 bg_sat st' = false
             end).
  { induction pxs as [|px rest IH]; intros st; cbn [run]; [auto|].
    rewrite bg_pixel_spec.
    destruct (bg_blocked _ _ _ _ _ _ _ px); [auto|].
    destruct (bg_usable _ _ _ _ _ _ px); [|apply IH].
    specialize (IH (bg_add im cfs css use_max_adu p st px)).
    destruct (run _ rest _); intros Hu Hs; apply IH; auto;
      cbn [bg_add bg_sat]; rewrite Hu; exact Hs. }
  assert (Hpk : forall m pxs st,
             match run (pk_pixel im cfs css ir_inn use_max_adu p m)
                       pxs st with
             | Go st' | Ret1 st' =>
                 use_max_adu = false -> pk_sat st = false ->
                 pk_sat st' = false
             end).
  { intros m. induction pxs as [|px rest IH]; intros st; cbn [run]; [auto|].
    rewrite pk_pixel_spec.
    destruct (pk_blocked _ _ _ _ _ px); [auto|].
    destruct (in_aperture _ px); [|apply IH].
    specialize (IH (pk_add im cfs css use_max_adu p m st px)).
    destruct (run _ rest _); intros Hu Hs; apply IH; auto;
      cbn [pk_add pk_sat]; rewrite Hu; exact Hs. }
  split.
  - intros Hu. unfold integrate_on_panel.
    match goal with |- context [run ?b (pixels ir_out) ?s] =>
      pose proof (Hbg (pixels ir_out) s) as H1;
      destruct (run b (pixels ir_out) s) as [bg|bg] end;
      [|apply H1; auto].
    specialize (H1 Hu eq_refl).
    destruct (bg_counts bg =? 0)%Z; [exact H1|].
    match goal with
    | |- context [run (pk_pixel im cfs css ir_inn use_max_adu p ?m)
                      (pixels ir_inn) ?s] =>
        pose proof (Hpk m (pixels ir_inn) s) as H2;
        destruct (run (pk_pixel im cfs css ir_inn use_max_adu p m)
                      (pixels ir_inn) s) as [pk|pk]
    end; [|apply H2; auto].
    specialize (H2 Hu H1).
    destruct (pk_counts pk =? 0)%Z; [exact H2|].
    destruct (_ <? 0.0); exact H2.
  - unfold integrate_on_panel.
    destruct (run_spec _ _ _ _
                (bg_pixel_spec im cfs css ir_mid ir_out use_max_adu
                               bgPkMask p)
                (pixels ir_out) bg_init) as [Hb1 Hb0]. fold bg_init.
    destruct (existsb _ (pixels ir_out)).
    { destruct (Hb1 eq_refl) as [st' ->]. discriminate. }
    rewrite (Hb0 eq_refl).
    destruct (fold_bg_add im cfs css use_max_adu p
                (filter (bg_usable cfs css ir_mid ir_out bgPkMask p)
                        (pixels ir_out)) bg_init)
      as (Ht & _ & Hc). cbv zeta in Ht, Hc.
    pose proof (fold_bg_sat
                  (filter (bg_usable cfs css ir_mid ir_out bgPkMask p)
                          (pixels ir_out)) bg_init) as Hs.
    set (bg := fold_left _ _ bg_init) in *.
    destruct (bg_counts bg =? 0)%Z; [discriminate|].
    assert (Hm : bg_tot bg / of_int (bg_counts bg)
                 = bg_mean im cfs css ir_mid ir_out bgPkMask p).
    { rewrite Ht, Hc. unfold bg_mean, bg_n, bg_samples.
      rewrite length_map. reflexivity. }
    rewrite Hm.
    destruct (run_spec _ _ _ _
                (pk_pixel_spec im cfs css ir_inn use_max_adu p
                   (bg_mean im cfs css ir_mid ir_out bgPkMask p))
                (pixels ir_inn)
                {| pk_total := 0; pk_counts := 0; fsct := 0; ssct := 0;
                   pk_sat := bg_sat bg |}) as [Hp1 Hp0].
    destruct (existsb _ (pixels ir_inn)).
    { destruct (Hp1 eq_refl) as [st' ->]. discriminate. }
    rewrite (Hp0 eq_refl).
    match goal with |- context [fold_left ?f ?l ?s] =>
      pose proof (fold_pk_sat
                    (bg_mean im cfs css ir_mid ir_out bgPkMask p) l s) as Hps;
      set (pk := fold_left f l s) in *
    end.
    destruct (pk_counts pk =? 0)%Z; [discriminate|].
    destruct (_ <? 0.0); [discriminate|]. intros _.
    cbn [saturated]. rewrite Hps. cbn [pk_sat]. rewrite Hs. cbn [bg_sat bg_init].
    cbn [orb]. unfold pk_hot.
    destruct use_max_adu; reflexivity.
Qed.

End Saturation.

(** X27.  [integrate_peak] sets [*saturated] only when it is called with
    [use_max_adu].  For a peak that is integrated without veto the flag
    is set exactly when, with [use_max_adu], a background sample exceeds
    the panel's [max_adu] or a background-subtracted sample of the
    aperture does. *)
Theorem X27_saturated_exactly_when_a_sample_is_hot
        (libm : Libm) (ext : Externals) im cfs css ir_inn ir_mid ir_out
        use_max_adu bgPkMask :
  let r := integrate_peak im cfs css ir_inn ir_mid ir_out
                          use_max_adu bgPkMask in
  (use_max_adu = false -> saturated r = false) /\
  (forall p, find_panel (det im) cfs css = Some p -> ret r = 0%Z ->
     saturated r
     = use_max_adu
       && (existsb (bg_hot im cfs css p)
                   (filter (bg_usable cfs css ir_mid ir_out bgPkMask p)
                           (pixels ir_out))
           || existsb (pk_hot im cfs css ir_mid ir_out bgPkMask p)
                      (filter (in_aperture ir_inn) (pixels ir_inn)))).
Proof.
  cbv zeta. unfold integrate_peak.
  destruct (find_panel (det im) cfs css) as [p|].
  - destruct (no_index p).
    + split; [reflexivity|]. intros p' _ H. discriminate.
    + destruct (integrate_on_panel_saturated im cfs css ir_inn ir_mid ir_out
                  use_max_adu bgPkMask p) as [H1 H2].
      split; [exact H1|]. intros p' E. injection E as <-. exact H2.
  - split; [reflexivity|]. intros p' E. discriminate.
Qed.

(** The peak of the examples, with the saturation level at 80 ADU: it is
    integrated, and flagged. *)
Example integrate_peak_saturated :
  let hot := {| det := {| panels := [{| min_fs := 0; max_fs := 15;
                                        min_ss := 0; max_ss := 15;
                                        no_index := false; adu_per_eV := 1;
                                        max_adu := 80 |}];
                          mask_good := 0; mask_bad := 0 |};
                width := 16;
                data := fun idx => if (idx =? 8 + 16 * 8)%Z then 100 else 10;
                flags := None; lambda := 1e-10 |} in
  let r := @integrate_peak example_libm example_externals hot
                           8 8 1 2 3 true None in
  ret r = 0%Z /\ saturated r = true.
Proof. vm_compute. split; reflexivity. Qed.

End PeaksFacts.

(** ** Pairing and prediction refinement *)
Module PredictRefineFacts.

Import Double DoubleFacts PredictRefine.

(** *** The distance test of [pair_peaks] *)

Lemma leb_not_gtb x y : (x <=? y) = true -> (x >? y) = false.
Proof.
  unfold gtb. by_compare x y.
  destruct (SFcompare (Prim2SF x) (Prim2SF y)) as [[]|]; simpl; congruence.
Qed.

(** The candidates of the first loop as the second loop meets them:
    re-predicted through the list they were put on. *)
Definition tested {ext : Externals} (im : image) (cr : Crystal)
           (cands : list reflpeak) : list reflpeak :=
  update_predictions im
    (crystal_set_reflections cr (Some (map refl cands))) cands.

(** The pairs that reach the distance test and those that pass it are
    what [pair_peaks] hands to the outlier cut. *)
Lemma pair_peaks_unfold {libm : Libm} {utils : Utils} {ext : Externals}
      im cr rps_Ih new_ok :
  let dx := det_shift_x cr in
  let dy := det_shift_y cr in
  pair_peaks im cr rps_Ih new_ok =
  match candidate_pairs im cr dx dy rps_Ih new_ok (features im) 0 [] with
  | None => (0%Z, [], cr, rps_Ih)
  | Some cands =>
      let accepted :=
        filter (good_pairing im dx dy (lowest_reflection (cell cr)))
               (tested im cr cands) in
      (snd (check_outlier_transition accepted),
       firstn (Z.to_nat (snd (check_outlier_transition accepted)))
              (fst (check_outlier_transition accepted)),
       crystal_set_reflections cr None,
       fun j =>
         if ((0 <=? j)
             && (j <? Z.of_nat
                        (length (fst (check_outlier_transition accepted)))))%Z
         then Ih (rps_at (fst (check_outlier_transition accepted)) j)
         else rps_Ih j)
  end.
Proof.
  cbv zeta. unfold pair_peaks, tested.
  destruct (candidate_pairs _ _ _ _ _ _ _ _ _) as [cands|]; [|reflexivity].
  destruct (check_outlier_transition _) as [s r]. reflexivity.
Qed.

(** A detector whose coordinates are already lengths, and a pair whose
    prediction lies exactly one unit from the peak.  The allocator never
    fails and fresh memory reads as zero. *)
Definition flat_externals : Externals :=
  {| cell_get_cartesian := fun c =>
       ((asx c, asy c, asz c), (bsx c, bsy c, bsz c), (csx c, csy c, csz c));
     lowest_reflection := fun _ => 3;
     detgeom_transform_coords := fun _ fs ss _ _ _ => (fs, ss, 0);
     update_prediction := fun cr _ r =>
       {| h := h r; k := k r; l := l r;
          refl_fs := of_int (h r) * asx (cell cr); refl_ss := 0;
          panel_number := panel_number r; exerr := 0 |};
     r_gradient := fun _ _ _ _ => 0;
     x_gradient := fun _ _ _ _ => 0;
     y_gradient := fun _ _ _ _ => 0;
     solve_svd := fun _ _ =>
       Some (fun i => if (i =? 0)%Z then 0.5
                      else if (i =? 9)%Z then 0.25 else 0);
     malloc_rps := Some (fun _ => 0);
     reflection_new_ok := fun _ _ => true |}.

Definition boundary_pair : reflpeak :=
  {| refl := {| h := 1; k := 0; l := 0; refl_fs := 1; refl_ss := 0;
                panel_number := 0; exerr := 0 |};
     peak := {| fs := 0; ss := 0; intensity := 1; pn := 0 |};
     Ih := 0; panel := null_panel |}.

Definition one_panel_image (fts : list (option imagefeature)) : image :=
  {| features := fts; panels := [null_panel]; lambda := 1e-10 |}.

(** C3, counterexample.  "Accepted if and only if the distance is below one
    third of the shortest spacing" fails for a pair displaced by exactly
    the threshold: it is accepted although its distance is not below the
    threshold. *)
Lemma C3_counterexample_at_threshold :
  ~ (forall (utils : Utils) (ext : Externals) im dx dy lowest rp,
        good_pairing im dx dy lowest rp = true <->
        (pair_distance im dx dy rp <? lowest / 3.0) = true).
Proof.
  intros H.
  specialize (H euclid_utils flat_externals (one_panel_image []) 0 0 3
                boundary_pair).
  vm_compute in H. destruct H as [H _]. specialize (H eq_refl). discriminate.
Qed.

(** *** [refine_prediction]: what a failure leaves behind *)

Section Refine.
Context {libm : Libm} {utils : Utils} {ext : Externals}.

(** [pair_peaks] hands the crystal back untouched when its first loop
    returns early, and with its reflection list NULL otherwise. *)
Lemma pair_peaks_crystal im cr rps_Ih new_ok :
  snd (fst (pair_peaks im cr rps_Ih new_ok)) = cr \/
  snd (fst (pair_peaks im cr rps_Ih new_ok)) = crystal_set_reflections cr None.
Proof.
  rewrite pair_peaks_unfold. cbv zeta.
  destruct (candidate_pairs _ _ _ _ _ _ _ _ _); [right | left]; reflexivity.
Qed.

(** The first pairing of a call of [refine_prediction] or
    [refine_radius]: on the fresh array, if there is one. *)
Definition first_pairing (im : image) (cr : Crystal)
  : option (Z * list reflpeak * Crystal * (Z -> float)) :=
  match malloc_rps with
  | Some rps_Ih => Some (pair_peaks im cr rps_Ih (reflection_new_ok 0))
  | None => None
  end.

(** The number of pairs and the pairs of the first pairing (without an
    array there is no pairing, and no pair). *)
Definition n_pairs (im : image) (cr : Crystal) : Z :=
  match first_pairing im cr with
  | Some (n, _, _, _) => n
  | None => 0%Z
  end.

Definition pairs (im : image) (cr : Crystal) : list reflpeak :=
  match first_pairing im cr with
  | Some (_, rps, _, _) => rps
  | None => []
  end.

Lemma max_intensity_nonpositive rps :
  Forall (fun rp => (intensity (peak rp) <=? 0.0) = true) rps ->
  (max_intensity rps <=? 0.0) = true.
Proof.
  unfold max_intensity.
  assert (H0 : (neg_infinity <=? 0.0) = true) by reflexivity.
  revert H0. generalize neg_infinity as m.
  induction rps as [|rp rest IH]; intros m Hm Hall; simpl.
  - exact Hm.
  - inversion Hall as [|? ? Hrp Hrest]; subst.
    apply IH; [|exact Hrest].
    destruct (intensity (peak rp) >? m); assumption.
Qed.

(** The refinement loop leaves through [inl] or [inr] after at most the
    rounds it was given. *)
Lemma refine_loop_cycles im todo : forall st,
  match refine_loop im todo st with
  | inl st' => (st_cycles st < st_cycles st' <= st_cycles st + todo)%nat
  | inr st' => st_cycles st' = (st_cycles st + todo)%nat
  end.
Proof.
  induction todo as [|todo IH]; intros st; simpl.
  - lia.
  - destruct (iterate _ _ _ _ _ _) as [[[[c tx] ty] tz]|]; simpl; [|lia].
    match goal with |- context [refine_loop im todo ?s] =>
      specialize (IH s); destruct (refine_loop im todo s) end;
      simpl in IH; lia.
Qed.

End Refine.

(** C1, as the code has it.  When [refine_prediction] fails because fewer
    than 10 pairs are accepted, at the initial pairing or at the
    re-pairing after the cycles, it returns the failure status and the
    crystal's detector shift is the one it had at entry; the unit cell is
    the one at entry when the failure is at the initial pairing, which
    is the exit taken exactly when the first pairing accepts fewer than
    10 pairs. *)
Theorem C1_too_few_pairs_restores_shift
        (libm : Libm) (utils : Utils) (ext : Externals) im cr :
  exit (refine_prediction im cr) = InitialPairing
  \/ exit (refine_prediction im cr) = FinalPairing ->
  status (refine_prediction im cr) = 1%Z /\
  det_shift_x (crystal (refine_prediction im cr)) = det_shift_x cr /\
  det_shift_y (crystal (refine_prediction im cr)) = det_shift_y cr /\
  (exit (refine_prediction im cr) = InitialPairing ->
   cell (crystal (refine_prediction im cr)) = cell cr) /\
  (exit (refine_prediction im cr) = InitialPairing <->
   (n_pairs im cr < 10)%Z).
Proof.
  unfold n_pairs, first_pairing, refine_prediction.
  destruct malloc_rps as [rps_Ih|]; [|cbn; intros [E|E]; discriminate].
  pose proof (pair_peaks_crystal im cr rps_Ih (reflection_new_ok 0)) as Hcr.
  destruct (pair_peaks im cr rps_Ih (reflection_new_ok 0))
    as [[[n rps] cr1] Ih1].
  cbn [fst snd] in Hcr.
  destruct (Z.ltb_spec n 10) as [Hn|Hn].
  - intros _. simpl. destruct Hcr as [-> | ->]; repeat split; auto.
  - destruct (max_intensity rps <=? 0.0).
    + simpl. intros [E|E]; discriminate.
    + match goal with |- context [refine_loop im MAX_CYCLES ?s] =>
        destruct (refine_loop im MAX_CYCLES s) as [st|st] end.
      * simpl. intros [E|E]; discriminate.
      * match goal with |- context [pair_peaks im ?c ?a ?o] =>
          destruct (pair_peaks im c a o) as [[[n2 rps2] cr2] Ih2] end.
        destruct (Z.ltb_spec n2 10).
        -- intros _. simpl.
           destruct Hcr as [-> | ->]; repeat split; auto; try discriminate;
             lia.
        -- simpl. intros [E|E]; discriminate.
Qed.

(** Ten peaks in a row, one lattice spacing apart, all of intensity [I],
    and a crystal whose cell indexes them as (1,0,0) ... (10,0,0).  With
    [flat_externals] every cycle moves [asx] by 0.5 and the detector
    shift by 0.25, after which no peak pairs any more. *)
Definition ten_peaks (I : float) : image :=
  one_panel_image
    (map (fun i => Some {| fs := of_int i; ss := 0; intensity := I; pn := 0 |})
         (Zrange 1 11)).

Definition unit_cell : UnitCell :=
  {| asx := 1; asy := 0; asz := 0;
     bsx := 0; bsy := 1; bsz := 0;
     csx := 0; csy := 0; csz := 1 |}.

Definition fresh_crystal : Crystal :=
  {| cell := unit_cell; det_shift_x := 0; det_shift_y := 0;
     reflections := None; notes := [] |}.

Example ten_peaks_all_pair :
  @n_pairs example_libm euclid_utils flat_externals (ten_peaks 1) fresh_crystal
  = 10%Z.
Proof. vm_compute. reflexivity. Qed.

Example ten_peaks_refinement_fails_at_final_pairing :
  let r := @refine_prediction example_libm euclid_utils flat_externals
                              (ten_peaks 1) fresh_crystal in
  status r = 1%Z /\ exit r = FinalPairing /\ cycles r = 10%nat /\
  det_shift_x (crystal r) = 0 /\ det_shift_y (crystal r) = 0 /\
  asx (cell (crystal r)) = 6.
Proof. vm_compute. repeat split. Qed.

(** C1, counterexample.  Shift and all nine cell components as at entry on
    both too-few-pairs failures does not hold: after the cycles the
    re-pairing failure restores the shift but leaves the refined cell. *)
Lemma C1_counterexample_cell_not_restored :
  ~ (forall (libm : Libm) (utils : Utils) (ext : Externals) im cr,
        exit (refine_prediction im cr) = InitialPairing
        \/ exit (refine_prediction im cr) = FinalPairing ->
        status (refine_prediction im cr) <> 0%Z /\
        det_shift_x (crystal (refine_prediction im cr)) = det_shift_x cr /\
        det_shift_y (crystal (refine_prediction im cr)) = det_shift_y cr /\
        cell (crystal (refine_prediction im cr)) = cell cr).
Proof.
  intros H.
  specialize (H example_libm euclid_utils flat_externals
                (ten_peaks 1) fresh_crystal).
  destruct H as (_ & _ & _ & Hc).
  - right. vm_compute. reflexivity.
  - apply (f_equal (fun c => asx c <? 2)) in Hc.
    vm_compute in Hc. discriminate.
Qed.

Lemma C1_too_few_pairs_restores_shift_witness :
  (exit (@refine_prediction example_libm euclid_utils flat_externals
                            (ten_peaks 1) fresh_crystal) = InitialPairing
   \/ exit (@refine_prediction example_libm euclid_utils flat_externals
                               (ten_peaks 1) fresh_crystal) = FinalPairing) /\
  status (@refine_prediction example_libm euclid_utils flat_externals
                             (ten_peaks 1) fresh_crystal) = 1%Z /\
  det_shift_x (crystal (@refine_prediction example_libm euclid_utils
                          flat_externals (ten_peaks 1) fresh_crystal))
  = det_shift_x fresh_crystal.
Proof.
  assert (E : exit (@refine_prediction example_libm euclid_utils
                      flat_externals (ten_peaks 1) fresh_crystal)
              = InitialPairing
              \/ exit (@refine_prediction example_libm euclid_utils
                         flat_externals (ten_peaks 1) fresh_crystal)
                 = FinalPairing)
    by (right; vm_compute; reflexivity).
  split; [exact E|].
  pose proof (C1_too_few_pairs_restores_shift example_libm euclid_utils
                flat_externals (ten_peaks 1) fresh_crystal E)
    as (Hs & Hx & _).
  split; assumption.
Defined.

(** C9.  With at least 10 pairs accepted and no paired peak of positive
    intensity, [refine_prediction] returns the failure status through the
    "All peaks negative?" exit, before any refinement cycle, and the
    crystal keeps its unit cell and detector shift. *)
Theorem C9_all_peaks_nonpositive_fails_before_refining
        (libm : Libm) (utils : Utils) (ext : Externals) im cr :
  (10 <= n_pairs im cr)%Z ->
  Forall (fun rp => (intensity (peak rp) <=? 0.0) = true) (pairs im cr) ->
  (max_intensity (pairs im cr) <=? 0.0) = true /\
  status (refine_prediction im cr) = 1%Z /\
  exit (refine_prediction im cr) = AllPeaksNegative /\
  cycles (refine_prediction im cr) = 0%nat /\
  cell (crystal (refine_prediction im cr)) = cell cr /\
  det_shift_x (crystal (refine_prediction im cr)) = det_shift_x cr /\
  det_shift_y (crystal (refine_prediction im cr)) = det_shift_y cr.
Proof.
  intros Hn Hall. pose proof (max_intensity_nonpositive _ Hall) as Hmax.
  split; [exact Hmax|]. clear Hall. revert Hn Hmax.
  unfold n_pairs, pairs, first_pairing, refine_prediction.
  destruct malloc_rps as [rps_Ih|]; [|intros; lia].
  pose proof (pair_peaks_crystal im cr rps_Ih (reflection_new_ok 0)) as Hcr.
  destruct (pair_peaks im cr rps_Ih (reflection_new_ok 0))
    as [[[n rps] cr1] Ih1].
  cbn [fst snd] in Hcr. intros Hn Hmax.
  destruct (Z.ltb_spec n 10) as [Hlt|_]; [lia|].
  rewrite Hmax. simpl. destruct Hcr as [-> | ->]; repeat split.
Qed.

Lemma C9_all_peaks_nonpositive_witness :
  (10 <= @n_pairs example_libm euclid_utils flat_externals
                  (ten_peaks (-1)) fresh_crystal)%Z /\
  status (@refine_prediction example_libm euclid_utils flat_externals
                             (ten_peaks (-1)) fresh_crystal) = 1%Z /\
  cycles (@refine_prediction example_libm euclid_utils flat_externals
                             (ten_peaks (-1)) fresh_crystal) = 0%nat.
Proof.
  assert (Hn : (10 <= @n_pairs example_libm euclid_utils flat_externals
                            (ten_peaks (-1)) fresh_crystal)%Z)
    by (vm_compute; discriminate).
  split; [exact Hn|].
  assert (Hall : Forall (fun rp => (intensity (peak rp) <=? 0.0) = true)
                        (@pairs example_libm euclid_utils flat_externals
                                (ten_peaks (-1)) fresh_crystal))
    by (vm_compute; repeat constructor).
  pose proof (C9_all_peaks_nonpositive_fails_before_refining
                example_libm euclid_utils flat_externals
                (ten_peaks (-1)) fresh_crystal Hn Hall)
    as (_ & Hs & _ & Hc & _).
  split; assumption.
Defined.

(** *** The outlier-transition cut *)

Lemma In_Zrange x lo hi : In x (Zrange lo hi) <-> (lo <= x < hi)%Z.
Proof.
  unfold Zrange. rewrite in_map_iff. split.
  - intros (i & <- & Hi). apply in_seq in Hi. lia.
  - intros H. exists (Z.to_nat (x - lo)). split; [lia|]. apply in_seq. lia.
Qed.

Lemma Zrange_cons lo hi :
  (lo < hi)%Z -> Zrange lo hi = lo :: Zrange (lo + 1) hi.
Proof.
  intros H. unfold Zrange.
  replace (Z.to_nat (hi - lo)) with (S (Z.to_nat (hi - (lo + 1)))) by lia.
  cbn [seq map]. f_equal; [lia|].
  rewrite <- seq_shift, map_map. apply map_ext. intros; lia.
Qed.

Lemma Zrange_nil lo hi : (hi <= lo)%Z -> Zrange lo hi = [].
Proof.
  intros H. unfold Zrange. replace (Z.to_nat (hi - lo)) with 0%nat by lia.
  reflexivity.
Qed.

Lemma qsort_insert_perm {A} (cmp : A -> A -> Z) x l :
  Permutation (x :: l) (qsort_insert cmp x l).
Proof.
  induction l as [|y l IH]; simpl.
  - apply Permutation_refl.
  - destruct (cmp x y <? 0)%Z.
    + apply Permutation_refl.
    + eapply perm_trans; [apply perm_swap|]. now apply perm_skip.
Qed.

Lemma qsort_perm {A} (cmp : A -> A -> Z) l : Permutation l (qsort cmp l).
Proof.
  induction l as [|x l IH]; simpl.
  - constructor.
  - eapply perm_trans; [apply perm_skip, IH | apply qsort_insert_perm].
Qed.

(** Magnitude of the excitation error of a pair, and the order by which the
    pairs are sorted. *)
Definition mag (rp : reflpeak) : float := fabs (r_dev rp).

Definition le_mag (a b : reflpeak) : Prop := (mag a <=? mag b) = true.

Definition is_number (rp : reflpeak) : Prop := not_nan (r_dev rp).

Lemma mag_sign rp : is_number rp -> sf_sign_is false (Prim2SF (mag rp)).
Proof. intros H. apply abs_sign. exact H. Qed.

Lemma mag_not_nan rp : is_number rp -> not_nan (mag rp).
Proof. intros H. eapply sign_is_not_nan, mag_sign, H. Qed.

Lemma cmpd2_negative a b : (cmpd2 a b <? 0)%Z = (mag a <? mag b).
Proof. unfold cmpd2, mag. destruct (_ <? _); reflexivity. Qed.

Lemma qsort_insert_HdRel y x l :
  le_mag y x -> HdRel le_mag y l -> HdRel le_mag y (qsort_insert cmpd2 x l).
Proof.
  intros Hyx Hl. destruct l as [|z l]; simpl.
  - constructor. exact Hyx.
  - destruct (cmpd2 x z <? 0)%Z; constructor; [exact Hyx|].
    inversion Hl; assumption.
Qed.

Lemma qsort_insert_sorted x l :
  is_number x -> Forall is_number l -> Sorted le_mag l ->
  Sorted le_mag (qsort_insert cmpd2 x l).
Proof.
  intros Hx Hl Hs. induction l as [|y l IH]; simpl.
  - repeat constructor.
  - inversion Hl as [|? ? Hy Hl']; subst.
    inversion Hs as [|? ? Hs' Hhd]; subst.
    rewrite cmpd2_negative. destruct (mag x <? mag y) eqn:E.
    + constructor; [exact Hs|]. constructor. apply ltb_leb, E.
    + constructor; [apply IH; assumption|].
      apply qsort_insert_HdRel; [|exact Hhd].
      apply ltb_false_leb in E; auto using mag_not_nan.
Qed.

Lemma qsort_sorted l :
  Forall is_number l -> Sorted le_mag (qsort cmpd2 l).
Proof.
  induction l as [|x l IH]; intros H; simpl.
  - constructor.
  - inversion H; subst. apply qsort_insert_sorted; auto.
    eapply Permutation_Forall; [apply qsort_perm | assumption].
Qed.

(** The extrapolated trend line through position [i], at position [j]. *)
Definition trend_bound (s : list reflpeak) (i j : Z) : float :=
  0.001e9 + (mag (rps_at s i) / of_int i) * of_int j.

(** "Every later pair [j > i] satisfies [|error[j]| >= bound(j)]". *)
Definition clears_trend (s : list reflpeak) (n i : Z) : Prop :=
  forall j, (i < j < n)%Z -> (mag (rps_at s j) >=? trend_bound s i j) = true.

Lemma trend_bound_not_nan s i j :
  is_number (rps_at s i) -> (1 <= i < 2 ^ 53)%Z -> (1 <= j < 2 ^ 53)%Z ->
  not_nan (trend_bound s i j).
Proof.
  intros Hn Hi Hj. apply (sign_is_not_nan false). unfold trend_bound.
  rewrite add_spec. apply SFadd_sign; [vm_compute; exact I|].
  rewrite mul_spec. apply SFmul_sign; [|apply of_int_finpos, Hj].
  rewrite div_spec. apply SFdiv_sign; [|apply of_int_finpos, Hi].
  apply mag_sign, Hn.
Qed.

Lemma rps_at_In s j : (0 <= j < Z.of_nat (length s))%Z -> In (rps_at s j) s.
Proof. intros H. unfold rps_at. apply nth_In. lia. Qed.

Lemma transition_inner_spec s grad n js :
  (forall j, In j js -> j <> n) ->
  (transition_inner s grad n js = n <->
   forall j, In j js ->
     (fabs (r_dev (rps_at s j)) <? 0.001e9 + grad * of_int j) = false).
Proof.
  induction js as [|j rest IH]; intros Hne; simpl.
  - split; [intros _ j [] | reflexivity].
  - destruct (_ <? _) eqn:E.
    + split.
      * intros Ej. destruct (Hne j (or_introl eq_refl) Ej).
      * intros H. rewrite (H j (or_introl eq_refl)) in E. discriminate.
    + rewrite IH by (intros j' Hj'; apply Hne; right; exact Hj'). split.
      * intros H j' [<-|Hin]; auto.
      * intros H j' Hin. apply H. right. exact Hin.
Qed.

(** The test made at position [i]: the inner loop ran to [j == n]. *)
Definition transition_at (s : list reflpeak) (n i : Z) : bool :=
  (transition_inner s (fabs (r_dev (rps_at s i)) / of_int i) n
                    (Zrange (i + 1) n) =? n)%Z.

Lemma transition_outer_spec s n hi : forall (m : nat) (lo : Z),
  Z.to_nat (hi - lo) = m -> (hi <= n)%Z ->
  let r := transition_outer s n (Zrange lo hi) in
  ((lo <= r < hi)%Z /\ transition_at s n r = true /\
   forall i, (lo <= i < r)%Z -> transition_at s n i = false)
  \/ (r = n /\ forall i, (lo <= i < hi)%Z -> transition_at s n i = false).
Proof.
  induction m as [|m IH]; intros lo Hm Hhi; cbv zeta.
  - rewrite Zrange_nil by lia. simpl. right. split; [reflexivity|]. intros; lia.
  - rewrite Zrange_cons by lia. simpl. fold (transition_at s n lo).
    destruct (transition_at s n lo) eqn:E.
    + left. split; [lia|]. split; [exact E|]. intros; lia.
    + destruct (IH (lo + 1)%Z ltac:(lia) Hhi) as [(Hr & Ht & Hb)|(Hr & Hb)].
      * left. split; [lia|]. split; [exact Ht|].
        intros i Hi. destruct (Z.eq_dec i lo) as [->|]; auto. apply Hb. lia.
      * right. split; auto.
        intros i Hi. destruct (Z.eq_dec i lo) as [->|]; auto. apply Hb. lia.
Qed.

Lemma transition_at_iff s n i :
  Forall is_number s -> n = Z.of_nat (length s) -> (n < 2 ^ 31)%Z ->
  (1 <= i < n)%Z ->
  transition_at s n i = true <-> clears_trend s n i.
Proof.
  intros Hs Hn Hlt Hi. unfold transition_at, clears_trend.
  rewrite Z.eqb_eq, transition_inner_spec
    by (intros j Hj; apply In_Zrange in Hj; lia).
  assert (Hnum : forall j, (0 <= j < n)%Z -> is_number (rps_at s j)).
  { intros j Hj. rewrite Forall_forall in Hs. apply Hs, rps_at_In. lia. }
  split; intros H j Hj.
  - unfold geb. apply ltb_false_leb.
    + apply mag_not_nan, Hnum. lia.
    + apply trend_bound_not_nan; [apply Hnum|..]; lia.
    + apply H, In_Zrange. lia.
  - apply In_Zrange in Hj. apply ltb_false_leb.
    + apply mag_not_nan, Hnum. lia.
    + apply (trend_bound_not_nan s i j); [apply Hnum|..]; lia.
    + apply (H j). lia.
Qed.

(** C4.  For [n >= 3] pairs (whose excitation errors are numbers), the cut
    sorts the pairs by ascending excitation-error magnitude and returns the
    smallest position [i] in [1 .. n-2] such that every later pair [j > i]
    has [|error[j]| >= 0.001e9 + (|error[i]|/i)*j]; if there is no such
    position it returns [n]; for [n < 3] it returns [n] and leaves the
    pairs as they are.  [pair_peaks] keeps the pairs before the returned
    position ([pair_peaks_unfold]), and the position is the same for every
    sorted arrangement of the pairs ([cut_independent_of_tie_order]). *)
Theorem C4_outlier_transition_cut rps :
  Forall is_number rps ->
  (Z.of_nat (length rps) < 2 ^ 31)%Z ->
  let n := Z.of_nat (length rps) in
  let s := fst (check_outlier_transition rps) in
  let r := snd (check_outlier_transition rps) in
  ((n < 3)%Z -> s = rps /\ r = n) /\
  ((3 <= n)%Z ->
   Permutation rps s /\ Sorted le_mag s /\
   (((1 <= r <= n - 2)%Z /\ clears_trend s n r /\
     forall i, (1 <= i < r)%Z -> ~ clears_trend s n i)
    \/ (r = n /\ forall i, (1 <= i <= n - 2)%Z -> ~ clears_trend s n i))).
Proof.
  intros Hnum Hlt. cbv zeta. unfold check_outlier_transition.
  destruct (Z.ltb_spec (Z.of_nat (length rps)) 3) as [Hn|Hn]; simpl.
  - split; [auto | lia].
  - split; [lia|]. intros _.
    pose proof (qsort_perm cmpd2 rps) as Hperm.
    assert (Hnum' : Forall is_number (qsort cmpd2 rps))
      by (eapply Permutation_Forall; eassumption).
    assert (Hlen : Z.of_nat (length rps) = Z.of_nat (length (qsort cmpd2 rps)))
      by (now rewrite (Permutation_length Hperm)).
    split; [exact Hperm|]. split; [apply qsort_sorted, Hnum|].
    set (s := qsort cmpd2 rps) in *. set (n := Z.of_nat (length rps)) in *.
    destruct (transition_outer_spec s n (n - 1) _ 1%Z eq_refl ltac:(lia))
      as [(Hr & Ht & Hb)|(Hr & Hb)].
    + left. split; [lia|]. split.
      * apply transition_at_iff; auto; lia.
      * intros i Hi Hc. apply transition_at_iff in Hc; auto; try lia.
        rewrite Hb in Hc by lia. discriminate.
    + right. split; [exact Hr|].
      intros i Hi Hc. apply transition_at_iff in Hc; auto; try lia.
      rewrite Hb in Hc by lia. discriminate.
Qed.

(** The position returned does not depend on how [qsort] orders pairs of
    equal magnitude: any sorted arrangement of the pairs carries the same
    sequence of magnitudes and yields the same position. *)
Definition fle (x y : float) : Prop := (x <=? y) = true.

Definition magnitude (x : float) : Prop := sf_sign_is false (Prim2SF x).

Lemma sorted_magnitudes_unique l1 : forall l2,
  Forall magnitude l1 -> Permutation l1 l2 ->
  StronglySorted fle l1 -> StronglySorted fle l2 -> l1 = l2.
Proof.
  induction l1 as [|a l1 IH]; intros l2 Hm Hp H1 H2.
  - apply Permutation_nil in Hp. now subst.
  - destruct l2 as [|b l2].
    { apply Permutation_sym, Permutation_nil in Hp. discriminate. }
    inversion Hm as [|? ? Ha Hm1]; subst.
    inversion H1 as [|? ? Hs1 Hall1]; subst.
    inversion H2 as [|? ? Hs2 Hall2]; subst.
    assert (Hm2 : Forall magnitude (b :: l2))
      by (eapply Permutation_Forall; [exact Hp | constructor; assumption]).
    inversion Hm2 as [|? ? Hb _]; subst.
    assert (Hab : a = b).
    { assert (Hina : In a (b :: l2))
        by (eapply Permutation_in; [exact Hp | left; reflexivity]).
      assert (Hinb : In b (a :: l1))
        by (eapply Permutation_in;
            [apply Permutation_sym; exact Hp | left; reflexivity]).
      destruct Hina as [->|Hina]; [reflexivity|].
      destruct Hinb as [->|Hinb]; [reflexivity|].
      rewrite Forall_forall in Hall1, Hall2.
      apply leb_antisym_magnitude; auto.
      - apply Hall1, Hinb.
      - apply Hall2, Hina. }
    subst b. f_equal. apply IH; auto.
    eapply Permutation_cons_inv, Hp.
Qed.

Lemma sorted_map_mag s :
  Sorted le_mag s -> StronglySorted fle (map mag s).
Proof.
  intros H. apply Sorted_StronglySorted.
  - intros x y z. apply leb_trans.
  - induction H as [|a l Hs IH Hhd]; simpl; constructor; auto.
    destruct Hhd; simpl; constructor. assumption.
Qed.

Lemma mag_rps_at s j :
  mag (rps_at s j) = nth (Z.to_nat j) (map mag s) 0.
Proof.
  unfold rps_at.
  match goal with |- mag (nth _ _ ?d) = _ =>
    change 0 with (mag d); symmetry; apply map_nth end.
Qed.

Lemma transition_inner_ext s s' grad n js :
  map mag s = map mag s' ->
  transition_inner s grad n js = transition_inner s' grad n js.
Proof.
  intros E. induction js as [|j rest IH]; simpl; [reflexivity|].
  fold (mag (rps_at s j)). fold (mag (rps_at s' j)).
  rewrite !mag_rps_at, E, IH. reflexivity.
Qed.

Lemma transition_outer_ext s s' n positions :
  map mag s = map mag s' ->
  transition_outer s n positions = transition_outer s' n positions.
Proof.
  intros E. induction positions as [|i rest IH]; simpl; [reflexivity|].
  fold (mag (rps_at s i)). fold (mag (rps_at s' i)).
  rewrite !mag_rps_at, E, IH.
  rewrite (transition_inner_ext s s' _ n _ E). reflexivity.
Qed.

Lemma cut_independent_of_tie_order rps s' :
  Forall is_number rps -> (3 <= Z.of_nat (length rps))%Z ->
  Permutation rps s' -> Sorted le_mag s' ->
  map mag s' = map mag (fst (check_outlier_transition rps)) /\
  transition_outer s' (Z.of_nat (length rps))
                   (Zrange 1 (Z.of_nat (length rps) - 1))
  = snd (check_outlier_transition rps).
Proof.
  intros Hnum Hn Hp Hs. unfold check_outlier_transition.
  destruct (Z.ltb_spec (Z.of_nat (length rps)) 3); [lia|]. cbn [fst snd].
  assert (E : map mag s' = map mag (qsort cmpd2 rps)).
  { apply sorted_magnitudes_unique.
    - apply Forall_map. eapply Permutation_Forall; [exact Hp|].
      eapply Forall_impl; [|exact Hnum]. intros rp. apply mag_sign.
    - apply Permutation_map. eapply perm_trans;
        [apply Permutation_sym, Hp | apply qsort_perm].
    - apply sorted_map_mag, Hs.
    - apply sorted_map_mag, qsort_sorted, Hnum. }
  split; [exact E|]. apply transition_outer_ext, E.
Qed.

(** Five pairs with excitation errors 5e9, 1e3, 0, 6e9, 2e3: sorted they
    read 0, 1e3, 2e3, 5e9, 6e9, and the transition is found at position 2. *)
Definition pair_with_error (e : float) : reflpeak :=
  {| refl := {| h := 1; k := 0; l := 0; refl_fs := 0; refl_ss := 0;
                panel_number := 0; exerr := e |};
     peak := {| fs := 0; ss := 0; intensity := 1; pn := 0 |};
     Ih := 0; panel := null_panel |}.

Definition five_pairs : list reflpeak :=
  map pair_with_error [5e9; -1e3; 0; -6e9; 2e3].

Example five_pairs_cut_at_2 :
  map r_dev (fst (check_outlier_transition five_pairs))
  = [0; -1e3; 2e3; 5e9; -6e9]
  /\ snd (check_outlier_transition five_pairs) = 2%Z.
Proof. vm_compute. split; reflexivity. Qed.

Lemma C4_outlier_transition_cut_witness :
  Forall is_number five_pairs /\
  Permutation five_pairs (fst (check_outlier_transition five_pairs)) /\
  Sorted le_mag (fst (check_outlier_transition five_pairs)).
Proof.
  assert (Hnum : Forall is_number five_pairs)
    by (repeat constructor).
  split; [exact Hnum|].
  pose proof (C4_outlier_transition_cut five_pairs Hnum
                ltac:(vm_compute; reflexivity)) as [_ H].
  destruct (H ltac:(vm_compute; discriminate)) as (Hp & Hs & _).
  split; assumption.
Defined.

(** *** What [pair_peaks] hands back *)

Import ListFacts.

Lemma transition_outer_range s n positions :
  Forall (fun i => (1 <= i <= n)%Z) positions -> (1 <= n)%Z ->
  (1 <= transition_outer s n positions <= n)%Z.
Proof.
  intros H Hn. induction H as [|i rest Hi _ IH]; simpl; [lia|].
  destruct (_ =? _)%Z; [exact Hi | exact IH].
Qed.

(** The cut keeps the pairs it was given, in some order, and the position
    it returns lies within them, whatever the excitation errors are. *)
Lemma check_outlier_transition_range rps :
  Permutation rps (fst (check_outlier_transition rps)) /\
  (0 <= snd (check_outlier_transition rps) <= Z.of_nat (length rps))%Z /\
  ((1 <= Z.of_nat (length rps))%Z ->
   (1 <= snd (check_outlier_transition rps))%Z).
Proof.
  unfold check_outlier_transition.
  destruct (Z.ltb_spec (Z.of_nat (length rps)) 3) as [Hn|Hn]; cbn [fst snd].
  - split; [apply Permutation_refl | lia].
  - split; [apply qsort_perm|].
    assert (Hpos : Forall (fun i => (1 <= i <= Z.of_nat (length rps))%Z)
                          (Zrange 1 (Z.of_nat (length rps) - 1))).
    { apply Forall_forall. intros i Hi. apply In_Zrange in Hi. lia. }
    pose proof (transition_outer_range (qsort cmpd2 rps) _ _ Hpos
                  ltac:(lia)) as H.
    lia.
Qed.

(** A pair as the first loop of [pair_peaks] builds it from a feature. *)
Definition from_feature (im : image) (rp : reflpeak) : Prop :=
  In (Some (peak rp)) (features im) /\
  panel rp = panel_at im (pn (peak rp)).

Definition well_indexed (rp : reflpeak) : Prop :=
  (h (refl rp), k (refl rp), l (refl rp)) <> (0, 0, 0)%Z /\
  (Z.abs (h (refl rp)) < 512)%Z /\
  (Z.abs (k (refl rp)) < 512)%Z /\
  (Z.abs (l (refl rp)) < 512)%Z.

Section Pairing.
Context {libm : Libm} {utils : Utils} {ext : Externals}.

Lemma candidate_pair_spec im cr dx dy slot_Ih f rp :
  candidate_pair im cr dx dy slot_Ih f = Some rp ->
  f = Some (peak rp) /\
  panel rp = panel_at im (pn (peak rp)) /\
  well_indexed rp /\
  panel_number (refl rp) = pn (peak rp) /\
  Ih rp = slot_Ih.
Proof.
  unfold candidate_pair. destruct f as [f|]; [|discriminate].
  destruct (cell_get_cartesian (cell cr))
    as [[[[ax ay] az] [[bx by_] bz]] [[cx cy] cz]].
  destruct (detgeom_transform_coords _ _ _ _ _ _) as [[r0 r1] r2].
  set (hh := lrint _). set (kk := lrint _). set (ll := lrint _).
  destruct ((hh =? 0)%Z && (kk =? 0)%Z && (ll =? 0)%Z) eqn:E0; [discriminate|].
  destruct ((Z.abs hh >=? 512)%Z || (Z.abs kk >=? 512)%Z
            || (Z.abs ll >=? 512)%Z) eqn:E1; [discriminate|].
  intros E. injection E as <-. cbn.
  repeat match goal with |- _ /\ _ => split end; try reflexivity.
  unfold well_indexed. cbn.
  apply orb_false_iff in E1. destruct E1 as [E1 El].
  apply orb_false_iff in E1. destruct E1 as [Eh Ek].
  repeat match goal with |- _ /\ _ => split end; try lia.
  intros Ez. injection Ez as Hh Hk Hl. rewrite Hh, Hk, Hl in E0.
  discriminate.
Qed.

Lemma update_predictions_keeps im cr rps rp :
  In rp (update_predictions im cr rps) ->
  exists rp0, In rp0 rps /\ peak rp = peak rp0 /\ panel rp = panel rp0
              /\ Ih rp = Ih rp0.
Proof.
  unfold update_predictions. rewrite in_map_iff.
  intros (rp0 & <- & Hin). exists rp0. repeat split. exact Hin.
Qed.

(** A pair as the first loop leaves it, for one of the features [fts]. *)
Definition provisional (im : image) (fts : list (option imagefeature))
           (rp : reflpeak) : Prop :=
  In (Some (peak rp)) fts /\
  panel rp = panel_at im (pn (peak rp)) /\
  well_indexed rp /\
  panel_number (refl rp) = pn (peak rp).

(** The first loop, started at feature [i] with the pairs [rps] stored:
    it appends at most one pair per feature, each in the next free slot
    and with the [Ih] that slot holds, or it returns early at a feature
    for which [reflection_new] fails. *)
Lemma candidate_pairs_spec im cr dx dy rps_Ih new_ok fts : forall i rps,
  match candidate_pairs im cr dx dy rps_Ih new_ok fts i rps with
  | Some out =>
      exists added,
        out = rps ++ added /\
        (length added <= length fts)%nat /\
        Forall (provisional im fts) added /\
        (forall m rp, nth_error added m = Some rp ->
                      Ih rp = rps_Ih (Z.of_nat (length rps + m)))
  | None =>
      exists i', (i <= i' < i + Z.of_nat (length fts))%Z /\ new_ok i' = false
  end.
Proof.
  induction fts as [|f rest IH]; intros i rps; cbn [candidate_pairs].
  - exists []. rewrite app_nil_r. split; [reflexivity|].
    split; [reflexivity|]. split; [constructor|].
    intros [|m] rp E; discriminate.
  - assert (Hweak : forall added,
              Forall (provisional im rest) added ->
              Forall (provisional im (f :: rest)) added).
    { intros added. apply Forall_impl. intros rp (H1 & H2).
      split; [right; exact H1 | exact H2]. }
    destruct (candidate_pair im cr dx dy _ f) as [rp|] eqn:Ec.
    + destruct (new_ok i) eqn:Eok.
      * specialize (IH (i + 1)%Z (rps ++ [rp])).
        destruct (candidate_pairs _ _ _ _ _ _ rest _ _) as [out|].
        -- destruct IH as (added & -> & Hlen & Hall & Hih).
           apply candidate_pair_spec in Ec.
           destruct Ec as (-> & Hp & Hw & Hn & Hi).
           exists (rp :: added). rewrite <- app_assoc.
           split; [reflexivity|]. split; [simpl; lia|].
           split.
           ++ constructor; [|apply Hweak, Hall].
              split; [left; reflexivity | auto].
           ++ intros [|m] rp' E; cbn [nth_error] in E.
              ** injection E as <-. rewrite Nat.add_0_r. exact Hi.
              ** rewrite (Hih m rp' E), length_app. cbn [length].
                 f_equal. lia.
        -- destruct IH as (i' & Hi' & Hf). exists i'.
           split; [cbn [length]; lia | exact Hf].
      * exists i. split; [cbn [length]; lia | exact Eok].
    + specialize (IH (i + 1)%Z rps).
      destruct (candidate_pairs _ _ _ _ _ _ rest _ _) as [out|].
      * destruct IH as (added & -> & Hlen & Hall & Hih).
        exists added. split; [reflexivity|]. split; [simpl; lia|].
        split; [apply Hweak, Hall | exact Hih].
      * destruct IH as (i' & Hi' & Hf). exists i'.
        split; [cbn [length]; lia | exact Hf].
Qed.

(** What [pair_peaks] returns: the count is the number of pairs, at most
    one per feature, and each pair carries a feature of the image; the
    crystal has lost its reflection list, or the first loop returned
    early at a failed [reflection_new] and nothing was touched. *)
Lemma pair_peaks_spec im cr rps_Ih new_ok :
  let '(n, rps, cr', _) := pair_peaks im cr rps_Ih new_ok in
  (0 <= n <= Z.of_nat (length (features im)))%Z /\
  Z.of_nat (length rps) = n /\
  Forall (from_feature im) rps /\
  (cr' = crystal_set_reflections cr None \/
   cr' = cr /\ n = 0%Z /\
   exists i, (0 <= i < Z.of_nat (length (features im)))%Z
             /\ new_ok i = false).
Proof.
  rewrite pair_peaks_unfold. cbv zeta.
  pose proof (candidate_pairs_spec im cr (det_shift_x cr) (det_shift_y cr)
                rps_Ih new_ok (features im) 0 []) as Hc.
  destruct (candidate_pairs _ _ _ _ _ _ _ _ _) as [cands|].
  - destruct Hc as (added & -> & Hlen & Hall & _). cbn [app] in *.
    set (accepted := filter _ (tested im cr added)).
    destruct (check_outlier_transition_range accepted) as (Hperm & Hr & _).
    assert (Hacc : (length accepted <= length (features im))%nat).
    { transitivity (length (tested im cr added)); [apply filter_length_le|].
      unfold tested, update_predictions. rewrite length_map. exact Hlen. }
    pose proof (Permutation_length Hperm) as Hpl.
    split; [lia|]. split; [rewrite length_firstn; lia|].
    split; [|left; reflexivity].
    apply Forall_forall. intros rp Hin. apply In_firstn in Hin.
    apply (Permutation_in _ (Permutation_sym Hperm)) in Hin.
    apply filter_In in Hin. destruct Hin as [Hin _].
    apply update_predictions_keeps in Hin.
    destruct Hin as (rp0 & Hin0 & Epk & Epn & _).
    rewrite Forall_forall in Hall. destruct (Hall rp0 Hin0) as (H1 & H2 & _).
    unfold from_feature. rewrite Epk, Epn. split; assumption.
  - destruct Hc as (i & Hi & Hf).
    split; [lia|]. split; [reflexivity|]. split; [constructor|].
    right. split; [reflexivity|]. split; [reflexivity|].
    exists i. split; [lia | exact Hf].
Qed.

End Pairing.

Section PairCount.
Context {libm : Libm} {utils : Utils} {ext : Externals}.

Lemma pairs_length im cr :
  (0 <= n_pairs im cr <= Z.of_nat (length (features im)))%Z /\
  Z.of_nat (length (pairs im cr)) = n_pairs im cr.
Proof.
  unfold n_pairs, pairs, first_pairing.
  destruct malloc_rps as [rps_Ih|]; [|simpl; lia].
  pose proof (pair_peaks_spec im cr rps_Ih (reflection_new_ok 0)) as H.
  destruct (pair_peaks _ _ _ _) as [[[n rps] cr'] Ih']. tauto.
Qed.

End PairCount.

(** X1.  [pair_peaks] returns a count between 0 and the number of entries
    of the image's feature list, so the caller's array "of sufficient size
    for all the peaks" is never overrun; the count is the number of pairs
    handed back; and every pair carries a (non-NULL) feature of the image
    with the panel that feature lies on.  The crystal comes back with its
    reflection list NULL and everything else as it was, unless
    [reflection_new] failed for one of the features: then the count is 0
    and the crystal is untouched, reflection list included. *)
Theorem X1_pair_peaks_within_features
        (libm : Libm) (utils : Utils) (ext : Externals)
        im cr rps_Ih new_ok :
  let '(n, rps, cr', _) := pair_peaks im cr rps_Ih new_ok in
  (0 <= n <= Z.of_nat (length (features im)))%Z /\
  Z.of_nat (length rps) = n /\
  Forall (from_feature im) rps /\
  (cr' = crystal_set_reflections cr None \/
   cr' = cr /\ n = 0%Z /\
   exists i, (0 <= i < Z.of_nat (length (features im)))%Z
             /\ new_ok i = false) /\
  ((forall i, (0 <= i < Z.of_nat (length (features im)))%Z ->
              new_ok i = true) ->
   cr' = crystal_set_reflections cr None).
Proof.
  pose proof (pair_peaks_spec im cr rps_Ih new_ok) as H.
  destruct (pair_peaks im cr rps_Ih new_ok) as [[[n rps] cr'] Ih'].
  destruct H as (Hn & Hl & Hf & Hc).
  repeat match goal with |- _ /\ _ => split end; try assumption; try lia.
  intros Hok. destruct Hc as [Hc | (_ & _ & i & Hi & Hfail)]; [exact Hc|].
  rewrite (Hok i Hi) in Hfail. discriminate.
Qed.

(** X2.  The first loop of [pair_peaks] builds at most one provisional
    pair per feature, and never one that indexes as (0,0,0) or has an
    index of magnitude 512 or more; each provisional reflection carries
    the panel number of its peak.  The loop does not write the weight
    [Ih]: the pair in slot [m] has the [Ih] the caller's array held
    there.  The loop ends early only at a feature for which
    [reflection_new] fails. *)
Theorem X2_candidate_pairs_well_indexed
        (libm : Libm) (utils : Utils) (ext : Externals)
        im cr dx dy rps_Ih new_ok :
  match candidate_pairs im cr dx dy rps_Ih new_ok (features im) 0 [] with
  | Some rps =>
      (length rps <= length (features im))%nat /\
      Forall (fun rp => well_indexed rp /\
                        panel_number (refl rp) = pn (peak rp) /\
                        from_feature im rp) rps /\
      (forall m rp, nth_error rps m = Some rp ->
                    Ih rp = rps_Ih (Z.of_nat m))
  | None =>
      exists i, (0 <= i < Z.of_nat (length (features im)))%Z
                /\ new_ok i = false
  end.
Proof.
  pose proof (candidate_pairs_spec im cr dx dy rps_Ih new_ok
                (features im) 0 []) as H.
  destruct (candidate_pairs _ _ _ _ _ _ _ _ _) as [rps|].
  - destruct H as (added & -> & Hlen & Hall & Hih). cbn [app].
    split; [exact Hlen|]. split; [|exact Hih].
    eapply Forall_impl; [|exact Hall].
    intros rp (H1 & H2 & H3 & H4). unfold from_feature. auto.
  - destruct H as (i & Hi & Hf). exists i. split; [lia | exact Hf].
Qed.

(** *** The distance test, within [pair_peaks] *)

(** C3, as the code has it.  Of the candidates that survive the
    index-rejection step, [pair_peaks] carries on exactly those whose
    distance between predicted and observed position (the [modulus] of the
    difference of the two positions that [detgeom_transform_coords]
    gives, in three dimensions) is not greater than one third of
    [lowest_reflection] of the crystal's cell: a candidate displaced by
    less than, or by exactly, that threshold passes the test, and one
    displaced by more never pairs.  The pairs returned are the first [n]
    of these in the order the outlier cut arranges them, and all of them
    when fewer than 3 passed. *)
Theorem C3_distance_test_rejects_only_beyond_threshold
        (libm : Libm) (utils : Utils) (ext : Externals)
        im cr rps_Ih new_ok :
  let dx := det_shift_x cr in
  let dy := det_shift_y cr in
  let distance := pair_distance im dx dy in
  let threshold := lowest_reflection (cell cr) / 3.0 in
  let '(n, pairs, _, _) := pair_peaks im cr rps_Ih new_ok in
  match candidate_pairs im cr dx dy rps_Ih new_ok (features im) 0 [] with
  | None => n = 0%Z /\ pairs = []
  | Some cands =>
      let accepted :=
        filter (fun rp => negb (distance rp >? threshold))
               (tested im cr cands) in
      (forall rp, In rp (tested im cr cands) ->
                  (distance rp <? threshold) = true -> In rp accepted) /\
      (forall rp, In rp (tested im cr cands) ->
                  (distance rp <=? threshold) = true -> In rp accepted) /\
      (forall rp, (distance rp >? threshold) = true -> ~ In rp accepted) /\
      (forall rp, In rp pairs ->
                  In rp (tested im cr cands) /\
                  (distance rp >? threshold) = false) /\
      ((length accepted < 3)%nat -> pairs = accepted) /\
      exists arranged,
        Permutation accepted arranged /\
        (0 <= n <= Z.of_nat (length accepted))%Z /\
        pairs = firstn (Z.to_nat n) arranged
  end.
Proof.
  cbv zeta. rewrite pair_peaks_unfold. cbv zeta.
  destruct (candidate_pairs _ _ _ _ _ _ _ _ _) as [cands|];
    [|split; reflexivity].
  change (good_pairing im (det_shift_x cr) (det_shift_y cr)
                       (lowest_reflection (cell cr)))
    with (fun rp => negb (pair_distance im (det_shift_x cr) (det_shift_y cr) rp
                          >? lowest_reflection (cell cr) / 3.0)).
  set (distance := pair_distance im (det_shift_x cr) (det_shift_y cr)).
  set (threshold := lowest_reflection (cell cr) / 3.0).
  set (accepted := filter _ (tested im cr cands)).
  assert (Hacc : forall rp, In rp accepted <->
                   In rp (tested im cr cands)
                   /\ (distance rp >? threshold) = false).
  { intros rp. unfold accepted. rewrite filter_In, negb_true_iff.
    reflexivity. }
  destruct (check_outlier_transition_range accepted) as (Hperm & Hr & _).
  repeat match goal with |- _ /\ _ => split end.
  - intros rp Hin Hlt. apply Hacc. split; [exact Hin|].
    apply leb_not_gtb, ltb_leb, Hlt.
  - intros rp Hin Hle. apply Hacc. split; [exact Hin|].
    apply leb_not_gtb, Hle.
  - intros rp Hgt Hin. apply Hacc in Hin. destruct Hin as [_ Hin].
    congruence.
  - intros rp Hin. apply In_firstn in Hin.
    apply (Permutation_in _ (Permutation_sym Hperm)) in Hin.
    apply Hacc, Hin.
  - intros Hfew. unfold check_outlier_transition.
    destruct (Z.ltb_spec (Z.of_nat (length accepted)) 3) as [_|Hge]; [|lia].
    cbn [fst snd]. rewrite Nat2Z.id. apply firstn_all.
  - exists (fst (check_outlier_transition accepted)).
    split; [exact Hperm|]. split; [exact Hr | reflexivity].
Qed.

(** Two peaks of a unit cell, one displaced from its prediction by
    exactly the threshold (a third of 3) and one by twice as much: the
    first pairs, the second does not. *)
Example pair_peaks_at_the_threshold :
  let im := one_panel_image
              [Some {| fs := 2; ss := 1; intensity := 1; pn := 0 |};
               Some {| fs := 2; ss := 2; intensity := 1; pn := 0 |}] in
  let cr := {| cell := {| asx := 1; asy := 0; asz := 0;
                          bsx := 0; bsy := 1; bsz := 0;
                          csx := 0; csy := 0; csz := 1 |};
               det_shift_x := 0; det_shift_y := 0;
               reflections := None; notes := [] |} in
  let '(n, pairs, _, _) :=
    @pair_peaks example_libm euclid_utils flat_externals im cr
                (fun _ => 0) (fun _ => true) in
  n = 1%Z /\
  map (fun rp => (ss (peak rp),
                  @pair_distance euclid_utils flat_externals im 0 0 rp))
      pairs = [(1, 1)].
Proof. vm_compute. split; reflexivity. Qed.

(** *** [refine_radius] *)

(** In a sorted array every entry up to position [n] is at most the entry
    at [n]. *)
Lemma sorted_prefix_below (d : reflpeak) s :
  StronglySorted le_mag s -> Forall is_number s ->
  forall n, (n < length s)%nat ->
  Forall (fun rp => le_mag rp (nth n s d)) (firstn (S n) s).
Proof.
  induction 1 as [|a s Hs IH Ha]; intros Hnum n Hn; simpl in Hn; [lia|].
  inversion Hnum as [|? ? Hna Hnum']; subst.
  destruct n as [|n].
  - simpl. constructor; [|constructor].
    apply leb_refl, mag_not_nan, Hna.
  - change (firstn (S (S n)) (a :: s)) with (a :: firstn (S n) s).
    cbn [nth]. constructor.
    + rewrite Forall_forall in Ha. apply Ha, nth_In. lia.
    + apply IH; [exact Hnum' | lia].
Qed.

Lemma le_mag_trans : Relations_1.Transitive le_mag.
Proof. intros x y z. apply leb_trans. Qed.

(** At most [length s - (n+1)] entries of a sorted array exceed the entry
    at position [n]. *)
Lemma sorted_exceeding (d : reflpeak) s n :
  Sorted le_mag s -> Forall is_number s -> (n < length s)%nat ->
  (length (filter (fun rp => (mag (nth n s d) <? mag rp)%float) s)
   <= length s - S n)%nat.
Proof.
  intros Hs Hnum Hn.
  apply Sorted_StronglySorted in Hs; [|exact le_mag_trans].
  pose proof (sorted_prefix_below d s Hs Hnum n Hn) as Hpre.
  set (f := fun rp => (mag (nth n s d) <? mag rp)%float).
  assert (E : filter f s = filter f (firstn (S n) s ++ skipn (S n) s))
    by (now rewrite firstn_skipn).
  rewrite E, filter_app, length_app, filter_none.
  - pose proof (filter_length_le f (skipn (S n) s)) as Hle.
    rewrite length_skipn in Hle. cbn [length Nat.add]. lia.
  - eapply Forall_impl; [|exact Hpre].
    intros rp Hle. apply (leb_not_gtb _ _ Hle).
Qed.

Section Radius.
Context {libm : Libm} {utils : Utils} {ext : Externals}.

(** The pairs as [refine_radius] sorts them: re-predicted through the
    list that [pair_peaks] filled. *)
Definition radius_pairs (im : image) (cr : Crystal) : list reflpeak :=
  qsort cmpd2
    (update_predictions im
       (crystal_set_reflections (crystal_set_reflections cr None)
          (Some (map refl (pairs im cr))))
       (pairs im cr)).

Lemma radius_pairs_length im cr :
  Z.of_nat (length (radius_pairs im cr)) = n_pairs im cr.
Proof.
  unfold radius_pairs.
  rewrite <- (Permutation_length (qsort_perm cmpd2 _)).
  unfold update_predictions. rewrite length_map. apply pairs_length.
Qed.

End Radius.

(** X3.  [refine_radius] fails with status 1 and sets no profile radius
    when the array of pairs cannot be allocated (the crystal is then
    untouched) or fewer than 3 pairs are accepted (the crystal is as
    [pair_peaks] left it: untouched, or with its reflection list NULL).
    Otherwise it returns 0 and sets the radius to the excitation-error
    magnitude of one of the re-predicted pairs, chosen so that (when the
    errors are numbers) at most [n/50] of the [n] pairs, 2 percent, have a
    larger magnitude; the crystal's reflection list is then NULL. *)
Theorem X3_refine_radius_covers_all_but_a_fiftieth
        (libm : Libm) (utils : Utils) (ext : Externals) im cr :
  (malloc_rps = None -> refine_radius im cr = (1%Z, None, cr)) /\
  ((n_pairs im cr < 3)%Z ->
   exists cr',
     refine_radius im cr = (1%Z, None, cr') /\
     (cr' = cr \/ cr' = crystal_set_reflections cr None)) /\
  ((3 <= n_pairs im cr)%Z ->
   exists r,
     refine_radius im cr = (0%Z, Some r, crystal_set_reflections cr None) /\
     (exists rp, In rp (radius_pairs im cr) /\ r = mag rp) /\
     (Forall is_number (radius_pairs im cr) ->
      (Z.of_nat (length (filter (fun rp => (r <? mag rp)%float)
                                (radius_pairs im cr)))
       <= n_pairs im cr / 50)%Z)).
Proof.
  pose proof (radius_pairs_length im cr) as Hlen. revert Hlen.
  unfold radius_pairs, refine_radius, n_pairs, pairs, first_pairing.
  destruct malloc_rps as [rps_Ih|].
  2:{ intros _. split; [reflexivity|]. split; [|lia].
      intros _. exists cr. split; [reflexivity | left; reflexivity]. }
  pose proof (pair_peaks_spec im cr rps_Ih (reflection_new_ok 0)) as Hp.
  destruct (pair_peaks im cr rps_Ih (reflection_new_ok 0))
    as [[[N rps] cr1] Ih1].
  destruct Hp as (_ & _ & _ & Hcr). intros Hlen.
  split; [discriminate|].
  destruct (Z.ltb_spec N 3) as [Hlt|Hge];
    (split; [intros H | intros H]); try lia.
  { exists cr1. split; [reflexivity|].
    destruct Hcr as [-> | (-> & _)]; auto. }
  destruct Hcr as [-> | (_ & HN & _)]; [|lia].
  set (s := qsort cmpd2 _) in *.
  rewrite Z.quot_div_nonneg by lia.
  pose proof (Z.div_pos N 50 ltac:(lia) ltac:(lia)) as Hq0.
  assert (Hq : (50 * (N / 50) <= N)%Z) by (apply Z.mul_div_le; lia).
  set (n := if (N - 1 - N / 50 <? 2)%Z then 2%Z else (N - 1 - N / 50)%Z).
  assert (Hn : (2 <= n < N)%Z /\ (N - 1 - N / 50 <= n)%Z).
  { unfold n. destruct (Z.ltb_spec (N - 1 - N / 50) 2); lia. }
  eexists. split; [reflexivity|]. split.
  - exists (rps_at s n). split; [|reflexivity].
    apply rps_at_In. lia.
  - intros Hnum.
    pose proof (sorted_exceeding
                  {| refl := reflection_new 0 0 0;
                     peak := {| fs := 0; ss := 0; intensity := 0; pn := 0 |};
                     Ih := 0; panel := null_panel |}
                  s (Z.to_nat n)) as Hex.
    fold (rps_at s n) in Hex.
    fold (mag (rps_at s n)).
    assert (Hs : Sorted le_mag s).
    { apply qsort_sorted.
      eapply Permutation_Forall;
        [apply Permutation_sym, qsort_perm | exact Hnum]. }
    assert (Hlt : (Z.to_nat n < length s)%nat) by lia.
    specialize (Hex Hs Hnum Hlt). lia.
Qed.

(** Ten peaks that all pair with zero excitation error: the radius is 0
    and no pair lies outside it. *)
Example refine_radius_ten_peaks :
  @refine_radius example_libm euclid_utils flat_externals
                 (ten_peaks 1) fresh_crystal
  = (0%Z, Some 0, fresh_crystal).
Proof. vm_compute. reflexivity. Qed.

(** *** The normal equations of [iterate] *)

Definition symmetric (M : matrix) : Prop := forall a b, M a b = M b a.

(** Nothing is stored outside the [num_params] x [num_params] block. *)
Definition within_block (M : matrix) : Prop :=
  forall a b, ~ ((0 <= a < num_params)%Z /\ (0 <= b < num_params)%Z) ->
              M a b = 0.

Definition within_range (v : vector) : Prop :=
  forall a, ~ (0 <= a < num_params)%Z -> v a = 0.

Ltac eqb_cases :=
  repeat match goal with
  | |- context [(?x =? ?y)%Z] => destruct (Z.eqb_spec x y)
  end.

Lemma set_pair_symmetric M k g x :
  symmetric M ->
  symmetric (gsl_matrix_set (gsl_matrix_set M k g x) g k x).
Proof.
  intros H a b. unfold gsl_matrix_set.
  eqb_cases; subst; simpl; try reflexivity; try lia; apply H.
Qed.

Lemma set_diagonal_symmetric M k x :
  symmetric M -> symmetric (gsl_matrix_set M k k x).
Proof.
  intros H a b. unfold gsl_matrix_set.
  eqb_cases; subst; simpl; try reflexivity; try lia; apply H.
Qed.

Lemma set_within_block M i j x :
  (0 <= i < num_params)%Z -> (0 <= j < num_params)%Z ->
  within_block M -> within_block (gsl_matrix_set M i j x).
Proof.
  intros Hi Hj H a b Hab. unfold gsl_matrix_set.
  eqb_cases; subst; simpl; try (exfalso; apply Hab; split; assumption);
    apply H, Hab.
Qed.

Lemma set_within_range v i x :
  (0 <= i < num_params)%Z -> within_range v ->
  within_range (gsl_vector_set v i x).
Proof.
  intros Hi H a Ha. unfold gsl_vector_set.
  eqb_cases; subst; simpl; [contradiction | apply H, Ha].
Qed.

Definition well_formed (Mv : matrix * vector) : Prop :=
  symmetric (fst Mv) /\ within_block (fst Mv) /\ within_range (snd Mv).

Lemma add_term_well_formed w grad dev Mv :
  well_formed Mv -> well_formed (add_term w grad dev Mv).
Proof.
  unfold add_term. apply fold_left_inv.
  intros [M v] k Hk (Hs & Hb & Hr). apply In_Zrange in Hk.
  unfold well_formed. cbn [fst snd].
  split; [|split].
  - apply (fold_left_inv symmetric); [|exact Hs].
    intros M' g _ Hs'. destruct (g >? k)%Z; [exact Hs'|].
    apply set_pair_symmetric, Hs'.
  - apply (fold_left_inv within_block); [|exact Hb].
    intros M' g Hg Hb'. apply In_Zrange in Hg.
    destruct (g >? k)%Z; [exact Hb'|].
    repeat apply set_within_block; assumption.
  - apply set_within_range; assumption.
Qed.

(** X4.  The normal equations that [iterate] hands to the solver have a
    symmetric matrix ("Matrix is symmetric"), also after the damping
    terms are added to the diagonal, and nothing is ever stored outside
    rows and columns 0..10 of the matrix or entries 0..10 of the
    vector. *)
Theorem X4_normal_equations_symmetric
        (libm : Libm) (utils : Utils) (ext : Externals) rps c im tx ty :
  let M := fst (normal_equations rps c im tx ty) in
  let v := snd (normal_equations rps c im tx ty) in
  (forall a b, M a b = M b a) /\
  (forall a b, ~ ((0 <= a < 11)%Z /\ (0 <= b < 11)%Z) -> M a b = 0) /\
  (forall a, ~ (0 <= a < 11)%Z -> v a = 0).
Proof.
  cbv zeta. change 11%Z with num_params.
  change (well_formed (normal_equations rps c im tx ty)).
  unfold normal_equations.
  match goal with |- context [fold_left ?f rps ?i] =>
    assert (H : well_formed (fold_left f rps i)) end.
  { apply fold_left_inv.
    - intros Mv rp _ H. repeat apply add_term_well_formed. exact H.
    - repeat split; intros; reflexivity. }
  destruct (fold_left _ rps _) as [M v]. destruct H as (Hs & Hb & Hr).
  unfold well_formed. cbn [fst snd] in *.
  split; [|split; [|exact Hr]].
  - apply (fold_left_inv symmetric); [|exact Hs].
    intros M' k _ Hs'. apply set_diagonal_symmetric, Hs'.
  - apply (fold_left_inv within_block); [|exact Hb].
    intros M' k Hk Hb'. apply In_Zrange in Hk.
    apply set_within_block; assumption.
Qed.

(** *** Shifts that are not numbers *)

Lemma clean_fold_spec (l : list Z) : forall (s : vector) (j : Z),
  fold_left (fun s i => if isnan (s i) then gsl_vector_set s i 0.0 else s)
            l s j
  = if existsb (Z.eqb j) l && isnan (s j) then 0.0 else s j.
Proof.
  induction l as [|i l IH]; intros s j; simpl; [reflexivity|].
  rewrite IH. unfold gsl_vector_set.
  destruct (Z.eqb_spec j i) as [->|Hne]; simpl.
  - destruct (isnan (s i)) eqn:E.
    + rewrite Z.eqb_refl. rewrite andb_false_r. reflexivity.
    + rewrite E, andb_false_r. reflexivity.
  - destruct (isnan (s i)); [|reflexivity].
    destruct (Z.eqb_spec j i); [contradiction | reflexivity].
Qed.

Lemma clean_shifts_spec shifts j :
  clean_shifts shifts j
  = if ((0 <=? j) && (j <? num_params))%Z && isnan (shifts j) then 0.0
    else shifts j.
Proof.
  unfold clean_shifts. rewrite clean_fold_spec.
  replace (existsb (Z.eqb j) (Zrange 0 num_params))
    with ((0 <=? j) && (j <? num_params))%Z; [reflexivity|].
  destruct (existsb _ _) eqn:E.
  - apply existsb_exists in E. destruct E as (i & Hi & Eji).
    apply In_Zrange in Hi. apply Z.eqb_eq in Eji. subst. 
    apply andb_true_iff. split; [apply Z.leb_le | apply Z.ltb_lt]; lia.
  - destruct (Z.leb_spec 0 j), (Z.ltb_spec j num_params); try reflexivity.
    assert (Hin : existsb (Z.eqb j) (Zrange 0 num_params) = true).
    { apply existsb_exists. exists j. split; [apply In_Zrange; lia|].
      apply Z.eqb_refl. }
    congruence.
Qed.

(** X5.  [iterate] never applies a shift that is not a number: every
    component 0..10 of the solver's answer that is NaN is replaced by
    0.0 before the cell and the detector shift are updated, every other
    component is applied as it is, and nothing is changed when the solver
    fails. *)
Theorem X5_iterate_clamps_nan_shifts
        (libm : Libm) (utils : Utils) (ext : Externals)
        rps c im tx ty tz :
  let '(M, v) := normal_equations rps c im tx ty in
  match solve_svd v M with
  | None => iterate rps c im tx ty tz = None
  | Some shifts =>
      let applied := fun i => if isnan (shifts i) then 0.0 else shifts i in
      (forall i, isnan (applied i) = false) /\
      iterate rps c im tx ty tz
      = Some (apply_shifts c applied,
              tx + applied 9%Z, ty + applied 10%Z, tz + 0.0)
  end.
Proof.
  unfold iterate. destruct (normal_equations rps c im tx ty) as [M v].
  destruct (solve_svd v M) as [shifts|]; [|reflexivity].
  cbv zeta. split.
  - intros i. destruct (isnan (shifts i)) eqn:E; [reflexivity | exact E].
  - unfold apply_shifts. rewrite !clean_shifts_spec. reflexivity.
Qed.

(** *** The exits of [refine_prediction] *)

Section Exits.
Context {libm : Libm} {utils : Utils} {ext : Externals}.

(** The refinement loop writes no note. *)
Lemma refine_loop_notes im todo : forall st,
  match refine_loop im todo st with
  | inl st' | inr st' => notes (st_crystal st') = notes (st_crystal st)
  end.
Proof.
  induction todo as [|todo IH]; intros st; simpl; [reflexivity|].
  destruct (iterate _ _ _ _ _ _) as [[[[c tx] ty] tz]|]; simpl;
    [|reflexivity].
  match goal with |- context [refine_loop im todo ?s] =>
    specialize (IH s); destruct (refine_loop im todo s) end;
    simpl in IH; exact IH.
Qed.

(** What every return of [refine_prediction] has in common, by exit. *)
Lemma refine_prediction_exit im cr :
  let r := refine_prediction im cr in
  match exit r with
  | NoMemory =>
      crystal r = cr /\ malloc_rps = None /\
      status r = 1%Z /\ cycles r = 0%nat /\ notes (crystal r) = notes cr
  | InitialPairing =>
      (crystal r = crystal_set_reflections cr None \/
       crystal r = cr /\
       exists i, (0 <= i < Z.of_nat (length (features im)))%Z
                 /\ reflection_new_ok 0 i = false) /\
      status r = 1%Z /\ cycles r = 0%nat /\ notes (crystal r) = notes cr
  | AllPeaksNegative =>
      reflections (crystal r) = None /\
      status r = 1%Z /\ cycles r = 0%nat /\ notes (crystal r) = notes cr
  | SolveFailed =>
      reflections (crystal r) = None /\
      status r = 1%Z /\ (1 <= cycles r <= MAX_CYCLES)%nat /\
      notes (crystal r) = notes cr
  | FinalPairing =>
      reflections (crystal r) = None /\
      status r = 1%Z /\ cycles r = MAX_CYCLES /\
      exists res, notes (crystal r) = notes cr ++ [res]
  | Refined =>
      reflections (crystal r) = None /\
      status r = 0%Z /\ cycles r = MAX_CYCLES /\
      exists res, notes (crystal r) = notes cr ++ [res]
  end.
Proof.
  cbv zeta. unfold refine_prediction.
  destruct malloc_rps as [rps_Ih|]; [|cbn; auto].
  pose proof (pair_peaks_spec im cr rps_Ih (reflection_new_ok 0)) as Hp.
  destruct (pair_peaks im cr rps_Ih (reflection_new_ok 0))
    as [[[n rps] cr1] Ih1].
  destruct Hp as (_ & _ & _ & Hcr).
  assert (Hnotes : notes cr1 = notes cr)
    by (destruct Hcr as [-> | (-> & _)]; reflexivity).
  destruct (n <? 10)%Z.
  { cbn. split; [|auto].
    destruct Hcr as [-> | (-> & _ & Hi)]; [left | right]; auto. }
  destruct (max_intensity rps <=? 0.0); [cbn; auto|].
  match goal with |- context [refine_loop im MAX_CYCLES ?s] =>
    pose proof (refine_loop_cycles im MAX_CYCLES s) as Hc;
    pose proof (refine_loop_notes im MAX_CYCLES s) as Hn;
    destruct (refine_loop im MAX_CYCLES s) as [st|st] end;
    cbn [st_cycles st_crystal] in Hc, Hn.
  - cbn. split; [reflexivity|]. split; [reflexivity|].
    split; [lia|]. rewrite Hn. cbn. exact Hnotes.
  - match goal with |- context [pair_peaks im ?c ?a ?o] =>
      pose proof (pair_peaks_crystal im c a o) as Hcr2;
      destruct (pair_peaks im c a o) as [[[n2 rps2] cr2] Ih2] end.
    cbn [fst snd] in Hcr2.
    destruct (n2 <? 10)%Z; cbn;
      (split; [destruct Hcr2 as [-> | ->]; reflexivity|]);
      (split; [reflexivity|]); (split; [exact Hc|]);
      eexists; destruct Hcr2 as [-> | ->]; cbn; rewrite Hn; cbn;
      rewrite Hnotes; reflexivity.
Qed.

End Exits.

(** X6.  A return of [refine_prediction] leaves the crystal's reflection
    list NULL, with two exceptions that leave the crystal exactly as it
    was: the return after a failed allocation of the array of pairs, and
    the too-few-pairs return when [reflection_new] failed in the first
    pairing.  The status is 0 or 1, and it is 0 exactly when the function
    leaves through its last [return]; that happens only after all ten
    cycles.  A failure at the allocation, the initial pairing or the
    intensity check happens before any cycle, a failure of the solver
    after one to ten calls of [iterate]. *)
Theorem X6_refine_prediction_exits
        (libm : Libm) (utils : Utils) (ext : Externals) im cr :
  let r := refine_prediction im cr in
  (exit r = NoMemory <-> malloc_rps = None) /\
  (exit r = NoMemory -> crystal r = cr) /\
  (exit r = InitialPairing ->
   crystal r = crystal_set_reflections cr None \/
   crystal r = cr /\
   exists i, (0 <= i < Z.of_nat (length (features im)))%Z
             /\ reflection_new_ok 0 i = false) /\
  (exit r <> NoMemory -> exit r <> InitialPairing ->
   reflections (crystal r) = None) /\
  (status r = 0%Z \/ status r = 1%Z) /\
  (status r = 0%Z <-> exit r = Refined) /\
  (cycles r <= 10)%nat /\
  (status r = 0%Z -> cycles r = 10%nat) /\
  (exit r = NoMemory \/ exit r = InitialPairing
   \/ exit r = AllPeaksNegative -> cycles r = 0%nat) /\
  (exit r = SolveFailed -> (1 <= cycles r)%nat).
Proof.
  cbv zeta. pose proof (refine_prediction_exit im cr) as He.
  cbv zeta in He. change MAX_CYCLES with 10%nat in He.
  assert (Hm : exit (refine_prediction im cr) = NoMemory <->
               malloc_rps = None).
  { destruct (exit (refine_prediction im cr)) eqn:Ee;
      try (split; [discriminate|]; intros Hnone; exfalso; revert Ee;
           unfold refine_prediction; rewrite Hnone; discriminate).
    split; [intros _; apply He | reflexivity]. }
  split; [exact Hm|]. clear Hm.
  destruct (exit (refine_prediction im cr));
    destruct He as (Hr & Hs & Hc & Hn); try rewrite Hs;
    try (destruct Hc as (Hs' & Hc & Hn'); rewrite Hs');
    repeat match goal with
           | |- _ /\ _ => split
           | |- _ <-> _ => split
           | |- _ -> _ => intros ?
           | H : _ \/ _ |- _ => destruct H
           end;
    try congruence; try lia; auto.
Qed.

(** X7.  [refine_prediction] appends the final residual to the crystal's
    notes exactly when all ten cycles were completed: once on success, and
    also when the re-pairing afterwards finds fewer than 10 pairs and the
    call fails.  The earlier failures leave the notes as they were. *)
Theorem X7_refine_prediction_notes
        (libm : Libm) (utils : Utils) (ext : Externals) im cr :
  let r := refine_prediction im cr in
  (exit r = Refined \/ exit r = FinalPairing ->
   exists res, notes (crystal r) = notes cr ++ [res]) /\
  (exit r = NoMemory \/ exit r = InitialPairing
   \/ exit r = AllPeaksNegative \/ exit r = SolveFailed ->
   notes (crystal r) = notes cr).
Proof.
  cbv zeta. pose proof (refine_prediction_exit im cr) as He.
  cbv zeta in He.
  destruct (exit (refine_prediction im cr));
    repeat match type of He with _ /\ _ => destruct He as [_ He] end;
    split; intros H; try exact He;
    repeat (destruct H as [H|H]); discriminate.
Qed.

(** Ten peaks of unit intensity: the ten cycles are completed, the
    re-pairing fails, and the residual has been noted all the same. *)
Example ten_peaks_note_written :
  let r := @refine_prediction example_libm euclid_utils flat_externals
                              (ten_peaks 1) fresh_crystal in
  exit r = FinalPairing /\ length (notes (crystal r)) = 1%nat.
Proof. vm_compute. split; reflexivity. Qed.

(** [flat_externals] with an allocator that fails: [array] is what
    [malloc] returns, and [reflection_new] fails for feature [fail_at] of
    the first pairing. *)
Definition short_of_memory (array : option (Z -> float)) (fail_at : Z)
  : Externals :=
  {| cell_get_cartesian := @cell_get_cartesian flat_externals;
     lowest_reflection := @lowest_reflection flat_externals;
     detgeom_transform_coords := @detgeom_transform_coords flat_externals;
     update_prediction := @update_prediction flat_externals;
     r_gradient := @r_gradient flat_externals;
     x_gradient := @x_gradient flat_externals;
     y_gradient := @y_gradient flat_externals;
     solve_svd := @solve_svd flat_externals;
     malloc_rps := array;
     reflection_new_ok := fun c i => negb ((c =? 0) && (i =? fail_at))%Z |}.

(** A crystal that comes with a (here empty) reflection list. *)
Definition crystal_with_list : Crystal :=
  crystal_set_reflections fresh_crystal (Some []).

(** Without an array the call fails at once and the crystal keeps its
    list; so it does when the fourth reflection cannot be created,
    although all ten peaks would pair. *)
Example refine_prediction_without_array :
  let r := @refine_prediction example_libm euclid_utils
                              (short_of_memory None (-1))
                              (ten_peaks 1) crystal_with_list in
  status r = 1%Z /\ exit r = NoMemory /\ crystal r = crystal_with_list.
Proof. vm_compute. repeat split. Qed.

Example refine_prediction_without_reflection :
  let r := @refine_prediction example_libm euclid_utils
                              (short_of_memory (Some (fun _ => 0)) 3)
                              (ten_peaks 1) crystal_with_list in
  status r = 1%Z /\ exit r = InitialPairing /\
  crystal r = crystal_with_list /\
  reflections (crystal r) = Some [].
Proof. vm_compute. repeat split. Qed.

(** *** The brightest peak *)

Lemma max_fold_spec rps : forall m,
  not_nan m ->
  let r := fold_left (fun max_I rp =>
                        let cur_I := intensity (peak rp) in
                        if cur_I >? max_I then cur_I else max_I) rps m in
  not_nan r /\ (r <? m) = false /\
  Forall (fun rp => (intensity (peak rp) >? r) = false) rps /\
  (r = m \/ exists rp, In rp rps /\ r = intensity (peak rp)).
Proof.
  induction rps as [|rp rest IH]; intros m Hm; cbv zeta; simpl.
  - split; [exact Hm|]. split; [|split; [constructor | left; reflexivity]].
    apply ltb_false_leb; [assumption..|]. apply leb_refl, Hm.
  - set (I := intensity (peak rp)).
    set (m' := if I >? m then I else m).
    assert (Hm' : not_nan m' /\ (m' <? m) = false /\ (m' <? I) = false).
    { unfold m', gtb. destruct (m <? I) eqn:E.
      - destruct (ltb_not_nan _ _ E) as [_ HI].
        split; [exact HI|]. split; [apply ltb_asym, E|].
        apply ltb_false_leb; [assumption..|]. apply leb_refl, HI.
      - split; [exact Hm|]. split; [|exact E].
        apply ltb_false_leb; [assumption..|]. apply leb_refl, Hm. }
    destruct Hm' as (Hn' & Hmm & HmI).
    destruct (IH m' Hn') as (Hr & Hrm & Hall & Hex). cbv zeta in *.
    split; [exact Hr|].
    split; [exact (not_ltb_trans m m' _ Hn' Hmm Hrm)|].
    split.
    + constructor; [|exact Hall]. unfold gtb.
      exact (not_ltb_trans I m' _ Hn' HmI Hrm).
    + destruct Hex as [-> | (rp' & Hin & ->)].
      * unfold m', gtb. destruct (m <? I).
        -- right. exists rp. split; [left; reflexivity | reflexivity].
        -- left. reflexivity.
      * right. exists rp'. split; [right; exact Hin | reflexivity].
Qed.

(** X8.  The maximum that [refine_prediction] normalises by is never NaN,
    no paired peak has an intensity above it, and it is the intensity of
    one of the paired peaks unless it is still the initial [-INFINITY]
    (no pair, or none whose intensity is a number greater than that). *)
Theorem X8_max_intensity_is_a_maximum rps :
  isnan (max_intensity rps) = false /\
  Forall (fun rp => (intensity (peak rp) >? max_intensity rps) = false) rps /\
  (max_intensity rps = neg_infinity \/
   exists rp, In rp rps /\ max_intensity rps = intensity (peak rp)).
Proof.
  destruct (max_fold_spec rps neg_infinity eq_refl) as (Hn & _ & Hall & Hex).
  exact (conj Hn (conj Hall Hex)).
Qed.


(** *** The weights *)

(** X26.  When [refine_prediction] normalises the intensities, the
    maximum being above zero and not infinite, every weight [Ih] it
    assigns is a number and not negative: it is 0.0 for a peak whose
    intensity is not above zero (or is NaN) and the intensity divided by
    the maximum otherwise; the peaks and predictions stay as they are. *)
Theorem X26_normalised_weights_not_negative rps :
  (max_intensity rps <=? 0.0) = false ->
  isinf (max_intensity rps) = false ->
  map peak (normalise (max_intensity rps) rps) = map peak rps /\
  map refl (normalise (max_intensity rps) rps) = map refl rps /\
  Forall (fun rp =>
            (0 <=? Ih rp) = true /\
            ((intensity (peak rp) >? 0.0) = false -> Ih rp = 0.0) /\
            ((intensity (peak rp) >? 0.0) = true ->
             Ih rp = intensity (peak rp) / max_intensity rps))
         (normalise (max_intensity rps) rps).
Proof.
  intros Hpos Hfin.
  destruct (max_fold_spec rps neg_infinity eq_refl) as (Hn & _).
  fold (max_intensity rps) in Hn.
  apply leb_false_ltb in Hpos; [|exact Hn | reflexivity].
  pose proof (positive_finite_finpos _ Hpos Hfin) as Hm.
  unfold normalise. rewrite !map_map.
  split; [apply map_ext; intros rp; destruct (_ >? _); reflexivity|].
  split; [apply map_ext; intros rp; destruct (_ >? _); reflexivity|].
  apply Forall_forall. intros rp' Hin. apply in_map_iff in Hin.
  destruct Hin as (rp & <- & _).
  destruct (intensity (peak rp) >? 0.0) eqn:E; cbn [set_Ih Ih peak].
  - rewrite E. split; [|split; [discriminate | reflexivity]].
    apply nonneg_leb. rewrite div_spec.
    apply SFdiv_sign; [apply positive_sign, E | exact Hm].
  - rewrite E. split; [reflexivity|]. split; [reflexivity | discriminate].
Qed.

Lemma X26_normalised_weights_not_negative_witness :
  (max_intensity five_pairs <=? 0.0) = false /\
  Forall (fun rp => (0 <=? Ih rp) = true)
         (normalise (max_intensity five_pairs) five_pairs).
Proof.
  assert (H1 : (max_intensity five_pairs <=? 0.0) = false)
    by (vm_compute; reflexivity).
  assert (H2 : isinf (max_intensity five_pairs) = false)
    by (vm_compute; reflexivity).
  split; [exact H1|].
  destruct (X26_normalised_weights_not_negative five_pairs H1 H2)
    as (_ & _ & H).
  eapply Forall_impl; [|exact H]. intros rp (H0 & _). exact H0.
Defined.

End PredictRefineFacts.


(** ** Scaling *)
Module ScalingFacts.

Import Double DoubleFacts Scaling.

(** *** Which reflections enter the fit of [scale_iterate] *)

(** The conditions of the specification: not held out, a match in the
    reference, reference redundancy at least 2, reference intensity
    positive, partiality positive, intensity above three standard
    deviations. *)
Definition usable (full : RefList) (refl : Reflection) : bool :=
  negb (flag refl)
  && match find_refl full (h refl) (k refl) (l refl) with
     | None => false
     | Some match_ =>
         (2 <=? redundancy match_)%Z
         && (0 <? intensity match_)
         && (0 <? partiality refl)
         && (3.0 * esd_intensity refl <? intensity refl)
     end.

(** Intensity, its standard deviation and the partiality are numbers. *)
Definition numeric (r : Reflection) : Prop :=
  not_nan (intensity r) /\ not_nan (esd_intensity r) /\ not_nan (partiality r).

Lemma three_esd_not_nan x : not_nan x -> not_nan (3.0 * x).
Proof.
  rewrite !not_nan_spec, mul_spec. intros H.
  apply SFmul_finpos_not_nan; [vm_compute; exact I | exact H].
Qed.

Lemma find_refl_In full h' k' l' m :
  find_refl full h' k' l' = Some m -> In m full.
Proof. unfold find_refl. intros H. apply find_some in H. tauto. Qed.

Section Fit.
Context {libm : Libm} {ext : Externals}.

Lemma accumulate_nref cr refl m st :
  nref (accumulate cr refl m st) = (nref st + 1)%Z.
Proof.
  unfold accumulate. destruct (fold_left _ _ _) as [M' v']. reflexivity.
Qed.

(** The exclusions as the code tests them, valid for every value a double
    can take: held out, no match, intensity at most three standard
    deviations, reference redundancy below 2, reference intensity at most
    0, partiality at most 0. *)
Definition excluded (full : RefList) (refl : Reflection) : bool :=
  flag refl
  || match find_refl full (h refl) (k refl) (l refl) with
     | None => true
     | Some match_ =>
         (intensity refl <=? 3.0 * esd_intensity refl)
         || (redundancy match_ <? 2)%Z
         || (intensity match_ <=? 0)
         || (partiality refl <=? 0.0)
     end.

Lemma scale_term_excluded cr full st refl :
  scale_term cr full st refl =
  if excluded full refl then st
  else match find_refl full (h refl) (k refl) (l refl) with
       | Some match_ => accumulate cr refl match_ st
       | None => st
       end.
Proof.
  unfold scale_term, excluded.
  destruct (flag refl); [reflexivity|]. cbn [orb].
  destruct (find_refl full (h refl) (k refl) (l refl)) as [m|]; [|reflexivity].
  destruct (intensity refl <=? 3.0 * esd_intensity refl); [reflexivity|].
  destruct (redundancy m <? 2)%Z; [reflexivity|].
  destruct (intensity m <=? 0); [reflexivity|].
  destruct (partiality refl <=? 0.0); reflexivity.
Qed.

(** [log_residual] makes the same tests on the data, but looks at the flag
    only when asked for the free set: with [free = 0], as the scaling loop
    calls it, a held-out reflection that is otherwise usable adds its term
    to the residual although the fit leaves it out. *)
Definition weak_or_unmatched (full : RefList) (refl : Reflection) : bool :=
  match find_refl full (h refl) (k refl) (l refl) with
  | None => true
  | Some match_ =>
      (intensity refl <=? 3.0 * esd_intensity refl)
      || (redundancy match_ <? 2)%Z
      || (intensity match_ <=? 0)
      || (partiality refl <=? 0.0)
  end.

Lemma excluded_split full refl :
  excluded full refl = flag refl || weak_or_unmatched full refl.
Proof. reflexivity. Qed.

Lemma residual_term_skips cr full free dev refl :
  (free && negb (flag refl)) || weak_or_unmatched full refl = true ->
  residual_term cr full free dev refl = dev.
Proof.
  unfold residual_term, weak_or_unmatched.
  destruct (free && negb (flag refl)); [reflexivity|]. cbn [orb].
  destruct (find_refl full (h refl) (k refl) (l refl)) as [m|]; [|reflexivity].
  destruct (intensity refl <=? 3.0 * esd_intensity refl); [reflexivity|].
  destruct (redundancy m <? 2)%Z; [reflexivity|].
  destruct (intensity m <=? 0); [reflexivity|].
  destruct (partiality refl <=? 0.0); [reflexivity|]. discriminate.
Qed.

Lemma scale_term_usable cr full st refl :
  numeric refl -> Forall numeric full ->
  scale_term cr full st refl =
  if usable full refl then
    match find_refl full (h refl) (k refl) (l refl) with
    | Some match_ => accumulate cr refl match_ st
    | None => st
    end
  else st.
Proof.
  intros (Hi & He & Hp) Hfull. unfold scale_term, usable.
  destruct (flag refl); [reflexivity|]. cbn [negb andb].
  destruct (find_refl full (h refl) (k refl) (l refl)) as [m|] eqn:Ef;
    [|reflexivity].
  assert (Hm : numeric m).
  { rewrite Forall_forall in Hfull. eapply Hfull, find_refl_In, Ef. }
  destruct Hm as (Hmi & _ & _).
  assert (H0 : not_nan 0) by reflexivity.
  pose proof (three_esd_not_nan _ He) as H3.
  destruct (intensity refl <=? 3.0 * esd_intensity refl) eqn:E1.
  - destruct (3.0 * esd_intensity refl <? intensity refl) eqn:E1';
      [|now rewrite !andb_false_r].
    apply leb_false_ltb in E1'; auto. congruence.
  - apply leb_false_ltb in E1; auto. rewrite E1, andb_true_r.
    destruct (Z.ltb_spec (redundancy m) 2) as [Hr|Hr].
    + destruct (Z.leb_spec 2 (redundancy m)); [lia|]. reflexivity.
    + destruct (Z.leb_spec 2 (redundancy m)); [|lia]. cbn [andb].
      destruct (intensity m <=? 0) eqn:E2.
      * destruct (0 <? intensity m) eqn:E2'; [|reflexivity].
        apply leb_false_ltb in E2'; auto. congruence.
      * apply leb_false_ltb in E2; auto. rewrite E2. cbn [andb].
        destruct (partiality refl <=? 0.0) eqn:E3.
        -- destruct (0 <? partiality refl) eqn:E3'; [|reflexivity].
           apply leb_false_ltb in E3'; auto. congruence.
        -- apply leb_false_ltb in E3; auto. now rewrite E3.
Qed.

Lemma excluded_usable full refl :
  numeric refl -> Forall numeric full ->
  excluded full refl = negb (usable full refl).
Proof.
  intros (Hi & He & Hp) Hfull. unfold excluded, usable.
  destruct (flag refl); [reflexivity|]. cbn [negb andb orb].
  destruct (find_refl full (h refl) (k refl) (l refl)) as [m|] eqn:Ef;
    [|reflexivity].
  assert (Hm : numeric m).
  { rewrite Forall_forall in Hfull. eapply Hfull, find_refl_In, Ef. }
  destruct Hm as (Hmi & _ & _).
  assert (H0 : not_nan 0) by reflexivity.
  pose proof (three_esd_not_nan _ He) as H3.
  destruct (intensity refl <=? 3.0 * esd_intensity refl) eqn:E1.
  - destruct (3.0 * esd_intensity refl <? intensity refl) eqn:E1';
      [|now rewrite !andb_false_r].
    apply leb_false_ltb in E1'; auto. congruence.
  - apply leb_false_ltb in E1; auto. rewrite E1, andb_true_r. cbn [orb].
    destruct (Z.ltb_spec (redundancy m) 2) as [Hr|Hr].
    + destruct (Z.leb_spec 2 (redundancy m)); [lia|]. reflexivity.
    + destruct (Z.leb_spec 2 (redundancy m)); [|lia]. cbn [andb orb].
      destruct (intensity m <=? 0) eqn:E2.
      * destruct (0 <? intensity m) eqn:E2'; [|reflexivity].
        apply leb_false_ltb in E2'; auto. congruence.
      * apply leb_false_ltb in E2; auto. rewrite E2. cbn [andb orb].
        destruct (partiality refl <=? 0.0) eqn:E3.
        -- destruct (0 <? partiality refl) eqn:E3'; [|reflexivity].
           apply leb_false_ltb in E3'; auto. congruence.
        -- apply leb_false_ltb in E3; auto. now rewrite E3.
Qed.

(** What it is for a reflection to contribute to the fit: with the
    gradient [g = (1, -s*s)], the weight 1 and [delta_I] the measured
    minus the modelled logarithm of the intensity, the lower triangle of
    [M] and its mirror gain [g gT], [v] gains [delta_I g], and the
    reflection is counted. *)
Definition contributes (cr : Crystal) (refl match_ : Reflection)
           (st st' : fit_state) : Prop :=
  let s := resolution (cell cr) (h refl) (k refl) (l refl) in
  let fx := - log (osf cr) + log (partiality refl) - log (lorentz refl)
            - Bfac cr * s * s + log (intensity match_) in
  let delta_I := log (intensity refl) - fx in
  M st' 0%Z 0%Z = M st 0%Z 0%Z + 1.0 * 1.0 * 1.0 /\
  M st' 1%Z 0%Z = M st 1%Z 0%Z + 1.0 * 1.0 * (- s * s) /\
  M st' 0%Z 1%Z = M st 1%Z 0%Z + 1.0 * 1.0 * (- s * s) /\
  M st' 1%Z 1%Z = M st 1%Z 1%Z + 1.0 * (- s * s) * (- s * s) /\
  v st' 0%Z = v st 0%Z + 1.0 * delta_I * 1.0 /\
  v st' 1%Z = v st 1%Z + 1.0 * delta_I * (- s * s) /\
  nref st' = (nref st + 1)%Z.

Lemma accumulate_contributes cr refl m st :
  contributes cr refl m st (accumulate cr refl m st).
Proof.
  unfold contributes, accumulate.
  change (Zrange 0 num_params) with [0%Z; 1%Z].
  cbn [fold_left Z.gtb Z.compare M v nref].
  unfold gsl_matrix_set, gsl_vector_set. cbn.
  repeat split.
Qed.

Lemma scale_terms_nref cr full refls : forall st,
  Forall numeric refls -> Forall numeric full ->
  nref (fold_left (scale_term cr full) refls st)
  = (nref st + Z.of_nat (length (filter (usable full) refls)))%Z.
Proof.
  induction refls as [|r rest IH]; intros st Hr Hfull; simpl.
  - lia.
  - inversion Hr as [|? ? Hr1 Hr2]; subst.
    rewrite IH by assumption. rewrite scale_term_usable by assumption.
    destruct (usable full r) eqn:Eu; simpl; [|lia].
    destruct (find_refl full (h r) (k r) (l r)) as [m|] eqn:Ef.
    + rewrite accumulate_nref. lia.
    + unfold usable in Eu. rewrite Ef, andb_false_r in Eu. discriminate.
Qed.

Lemma scale_iterate_nr cr full :
  snd (scale_iterate cr full)
  = nref (fold_left (scale_term cr full) (reflections cr)
                    {| M := fun _ _ => 0; v := fun _ => 0; nref := 0 |}).
Proof.
  unfold scale_iterate.
  destruct (nref _ <? num_params)%Z; [reflexivity|].
  destruct (solve_svd _ _); [|reflexivity].
  destruct (fold_left _ (Zrange 0 num_params) _). reflexivity.
Qed.

End Fit.

(** C8, as the code has it.  In one scaling iteration a reflection of the
    crystal contributes its terms to the normal equations, and is
    counted, if and only if none of the code's exclusions applies: it is
    not held out, has a match in the merged reference, and none of
    "intensity at most 3 standard deviations", "reference redundancy
    below 2", "reference intensity at most 0" and "partiality at most 0"
    holds; an excluded reflection leaves the fit as it is.  For
    intensities, deviations and partialities that are numbers these are
    the conditions of the specification (redundancy at least 2, reference
    intensity and partiality above 0, intensity above 3 standard
    deviations), and [*nr] counts the reflections that meet them. *)
Theorem C8_fit_uses_exactly_the_usable_reflections
        (libm : Libm) (ext : Externals) cr full :
  (forall refl st,
      (excluded full refl = false ->
       exists match_,
         find_refl full (h refl) (k refl) (l refl) = Some match_ /\
         contributes cr refl match_ st (scale_term cr full st refl)) /\
      (excluded full refl = true -> scale_term cr full st refl = st)) /\
  (forall refl,
      numeric refl -> Forall numeric full ->
      excluded full refl = negb (usable full refl)) /\
  snd (scale_iterate cr full)
  = Z.of_nat (length (filter (fun refl => negb (excluded full refl))
                             (reflections cr))) /\
  (Forall numeric (reflections cr) -> Forall numeric full ->
   snd (scale_iterate cr full)
   = Z.of_nat (length (filter (usable full) (reflections cr)))).
Proof.
  split; [|split; [|split]].
  - intros refl st. rewrite scale_term_excluded. split.
    + intros He. rewrite He.
      destruct (find_refl full (h refl) (k refl) (l refl)) as [m|] eqn:Ef.
      * exists m. split; [reflexivity | apply accumulate_contributes].
      * unfold excluded in He. rewrite Ef, orb_true_r in He. discriminate.
    + intros ->. reflexivity.
  - intros refl. apply excluded_usable.
  - rewrite scale_iterate_nr.
    assert (H : forall refls st,
               nref (fold_left (scale_term cr full) refls st)
               = (nref st
                  + Z.of_nat (length (filter (fun refl =>
                                                negb (excluded full refl))
                                             refls)))%Z).
    { induction refls as [|r rest IH]; intros st; simpl; [lia|].
      rewrite IH, scale_term_excluded.
      destruct (excluded full r) eqn:E; simpl; [lia|].
      destruct (find_refl full (h r) (k r) (l r)) as [m|] eqn:Ef.
      - rewrite accumulate_nref. lia.
      - unfold excluded in E. rewrite Ef, orb_true_r in E. discriminate. }
    rewrite H. simpl. lia.
  - intros Hr Hfull.
    rewrite scale_iterate_nr, scale_terms_nref by assumption. simpl. lia.
Qed.

(** A reference of two reflections and a crystal that measured them, one
    strongly and one within noise. *)
Definition scaling_externals
           (fit : list float -> list float -> list float ->
                  Z * float * float * float) : Externals :=
  {| resolution := fun _ _ _ _ => 1e9;
     solve_svd := fun _ _ => None;
     gsl_fit_wmul := fit |}.

Definition no_fit (x w y : list float) : Z * float * float * float :=
  (0%Z, 1, 0, 0).

Definition measured (h' : Z) (I sigma p : float) (n : Z) : Reflection :=
  {| h := h'; k := 0; l := 0; intensity := I; esd_intensity := sigma;
     partiality := p; lorentz := 1; redundancy := n; flag := false |}.

Definition cubic : UnitCell :=
  {| asx := 1e9; asy := 0; asz := 0; bsx := 0; bsy := 1e9; bsz := 0;
     csx := 0; csy := 0; csz := 1e9 |}.

Definition crystal_of (refls : RefList) : Crystal :=
  {| osf := 1; Bfac := 0; cell := cubic; reflections := refls;
     user_flag := PRFLAG_OK |}.

Definition merged_reference : RefList :=
  [measured 1 100 1 1 5; measured 2 200 1 1 5].

Definition strong_and_weak : RefList :=
  [measured 1 50 2 0.5 1; measured 2 5 2 0.5 1].

Example strong_and_weak_usable :
  map (usable merged_reference) strong_and_weak = [true; false].
Proof. vm_compute. reflexivity. Qed.

Example strong_and_weak_counted :
  snd (@scale_iterate example_libm (scaling_externals no_fit)
                      (crystal_of strong_and_weak) merged_reference)
  = 1%Z.
Proof. vm_compute. reflexivity. Qed.

(** A measurement whose intensity is not a number. *)
Definition unmeasured : Reflection := measured 1 nan 2 0.5 1.

(** C8, counterexample.  "Contributes if and only if ... the measured
    intensity exceeds 3 times its standard deviation" fails for a
    reflection whose intensity is NaN: NaN exceeds nothing, but the test
    [I_partial <= 3.0*esd] is false for it as well, so the reflection is
    not skipped and its terms (NaN, through the logarithm of a real libm)
    enter the fit. *)
Lemma C8_counterexample_nan_intensity :
  ~ (forall (libm : Libm) (ext : Externals) cr full refl st,
        In refl (reflections cr) ->
        (scale_term cr full st refl <> st <-> usable full refl = true)).
Proof.
  intros H.
  specialize (H example_libm (scaling_externals no_fit)
                (crystal_of [unmeasured]) merged_reference unmeasured
                {| M := fun _ _ => 0; v := fun _ => 0; nref := 0 |}
                (or_introl eq_refl)).
  destruct H as [H _].
  assert (Hu : usable merged_reference unmeasured = true).
  { apply H. intros E. apply (f_equal nref) in E. vm_compute in E.
    discriminate. }
  vm_compute in Hu. discriminate.
Qed.

Example unmeasured_counted :
  (3.0 * esd_intensity unmeasured <? intensity unmeasured) = false /\
  excluded merged_reference unmeasured = false /\
  snd (@scale_iterate example_libm (scaling_externals no_fit)
                      (crystal_of [unmeasured]) merged_reference)
  = 1%Z.
Proof. vm_compute. repeat split. Qed.

(** *** [linear_scale] *)

Section LinearScale.
Context {libm : Libm} {ext : Externals}.

Lemma linear_scale_too_few list1 list2 :
  (Z.of_nat (length (scale_points list1 list2)) < 2)%Z ->
  linear_scale list1 list2 = Returned (1%Z, None).
Proof.
  intros H. unfold linear_scale.
  destruct (Z.ltb_spec (Z.of_nat (length (scale_points list1 list2))) 2);
    [reflexivity | lia].
Qed.

(** With at least two pairs, the call ends as the fitted value dictates. *)
Lemma linear_scale_by_fit list1 list2 r G cov11 sumsq :
  (2 <= Z.of_nat (length (scale_points list1 list2)))%Z ->
  gsl_fit_wmul (map (fun pt => fst (fst pt)) (scale_points list1 list2))
               (map (fun pt => snd pt) (scale_points list1 list2))
               (map (fun pt => snd (fst pt)) (scale_points list1 list2))
  = (r, G, cov11, sumsq) ->
  linear_scale list1 list2 =
  if negb (r =? 0)%Z then Returned (1%Z, Some G)
  else if isnan G then Aborted
  else Returned (0%Z, Some G).
Proof.
  intros Hn Hfit. unfold linear_scale.
  destruct (Z.ltb_spec (Z.of_nat (length (scale_points list1 list2))) 2);
    [lia|].
  rewrite Hfit. reflexivity.
Qed.

End LinearScale.

(** GSL's [gsl_fit_wmul] (an external library), after its fit/linear.c: the
    weighted means of the samples with positive weight, and the slope
    [(wm_x wm_y + wm_dxdy) / (wm_x^2 + wm_dx2)]. *)
Definition gsl_fit_wmul_reference (x w y : list float)
  : Z * float * float * float :=
  let pts := combine (combine x w) y in
  let '(W, wm_x, wm_y) :=
    fold_left
      (fun (acc : float * float * float) (pt : float * float * float) =>
         let '(W, wm_x, wm_y) := acc in
         let '(xi, wi, yi) := pt in
         if wi >? 0 then
           let W := W + wi in
           (W, wm_x + (xi - wm_x) * (wi / W), wm_y + (yi - wm_y) * (wi / W))
         else acc)
      pts (0, 0, 0) in
  let '(W, wm_dx2, wm_dxdy) :=
    fold_left
      (fun (acc : float * float * float) (pt : float * float * float) =>
         let '(W, wm_dx2, wm_dxdy) := acc in
         let '(xi, wi, yi) := pt in
         if wi >? 0 then
           let dx := xi - wm_x in
           let dy := yi - wm_y in
           let W := W + wi in
           (W, wm_dx2 + (dx * dx - wm_dx2) * (wi / W),
            wm_dxdy + (dx * dy - wm_dxdy) * (wi / W))
         else acc)
      pts (0, 0, 0) in
  let b := (wm_x * wm_y + wm_dxdy) / (wm_x * wm_x + wm_dx2) in
  let cov_11 := 1 / (W * (wm_x * wm_x + wm_dx2)) in
  let d2 :=
    fold_left
      (fun (d2 : float) (pt : float * float * float) =>
         let '(xi, wi, yi) := pt in
         if wi >? 0 then
           let dx := xi - wm_x in
           let dy := yi - wm_y in
           let d := (wm_y - b * wm_x) + (dy - b * dx) in
           d2 + wi * d * d
         else d2)
      pts 0 in
  (0%Z, b, cov_11, d2).

(** Two reflections of intensity 1 whose partiality is 0: every weight of
    the fit is 0. *)
Definition zero_partiality : RefList :=
  [measured 1 1 1 0 1; measured 2 1 1 0 1].

(** Two equal pairs with reference intensity 1e308 and crystal intensity
    1e-308. *)
Definition huge_reference : RefList :=
  [measured 1 1e308 1 1 1; measured 2 1e308 1 1 1].

Definition tiny_crystal : RefList :=
  [measured 1 1e-308 1 1 1; measured 2 1e-308 1 1 1].

(** The weights, samples and fitted values of a call, as [linear_scale]
    passes them to the fit and reads them back. *)
Definition fit_of {ext : Externals} (list1 list2 : RefList)
  : Z * float * float * float :=
  gsl_fit_wmul (map (fun pt => fst (fst pt)) (scale_points list1 list2))
               (map (fun pt => snd pt) (scale_points list1 list2))
               (map (fun pt => snd (fst pt)) (scale_points list1 list2)).

Definition fit_status {ext : Externals} (list1 list2 : RefList) : Z :=
  fst (fst (fst (fit_of list1 list2))).

Definition fitted_G {ext : Externals} (list1 list2 : RefList) : float :=
  snd (fst (fst (fit_of list1 list2))).

(** The call returned, with a status other than 0. *)
Definition returns_error_status (o : outcome (Z * option float)) : Prop :=
  exists status G, o = Returned (status, G) /\ status <> 0%Z.

(** C2, as the code has it.  [linear_scale] returns the error status 1,
    without terminating the process, whenever fewer than 2 usable
    reflection pairs remain or the weighted fit reports an error; and after
    a call that returns a non-zero status [scale_all_to_reference] leaves
    that crystal as it is and goes on with the remaining crystals. *)
Theorem C2_linear_scale_error_status
        (ext : Externals) (list1 list2 : RefList) :
  ((Z.of_nat (length (scale_points list1 list2)) < 2)%Z ->
   linear_scale list1 list2 = Returned (1%Z, None)) /\
  ((2 <= Z.of_nat (length (scale_points list1 list2)))%Z ->
   fit_status list1 list2 <> 0%Z ->
   linear_scale list1 list2 = Returned (1%Z, Some (fitted_G list1 list2))) /\
  (forall cr rest,
      returns_error_status (linear_scale list1 (reflections cr)) ->
      scale_all_to_reference (cr :: rest) list1 =
      match scale_all_to_reference rest list1 with
      | Aborted => Aborted
      | Returned done => Returned (cr :: done)
      end).
Proof.
  repeat match goal with |- _ /\ _ => split end.
  - apply linear_scale_too_few.
  - intros Hn Hr. unfold fit_status, fitted_G, fit_of in *.
    destruct (gsl_fit_wmul _ _ _) as [[[r G] cov11] sumsq] eqn:Ef.
    rewrite (linear_scale_by_fit list1 list2 r G cov11 sumsq Hn Ef).
    simpl in Hr. destruct (Z.eqb_spec r 0); [contradiction | reflexivity].
  - intros cr rest (status & G & E & Hs). simpl. rewrite E.
    destruct status; try contradiction; destruct G; reflexivity.
Qed.

(** C2, counterexample.  A fitted factor that is not finite does not make
    [linear_scale] return an error status.  With two usable pairs whose
    fitted factor is NaN the call reaches [abort()] (the [return 1] after it
    is never executed) and [scale_all_to_reference] never gets to the
    crystals that follow; an infinite factor passes the [isnan] test and is
    returned with the success status 0. *)
Lemma C2_counterexample_non_finite_factor :
  (Z.of_nat (length (scale_points zero_partiality zero_partiality)) = 2%Z /\
   isnan (@fitted_G (scaling_externals gsl_fit_wmul_reference)
                    zero_partiality zero_partiality) = true /\
   @linear_scale (scaling_externals gsl_fit_wmul_reference)
                 zero_partiality zero_partiality = Aborted /\
   ~ returns_error_status
       (@linear_scale (scaling_externals gsl_fit_wmul_reference)
                      zero_partiality zero_partiality) /\
   @scale_all_to_reference (scaling_externals gsl_fit_wmul_reference)
     [crystal_of zero_partiality; crystal_of strong_and_weak] zero_partiality
   = Aborted) /\
  (isinf (@fitted_G (scaling_externals gsl_fit_wmul_reference)
                    huge_reference tiny_crystal) = true /\
   @linear_scale (scaling_externals gsl_fit_wmul_reference)
                 huge_reference tiny_crystal
   = Returned (0%Z, Some infinity) /\
   ~ returns_error_status
       (@linear_scale (scaling_externals gsl_fit_wmul_reference)
                      huge_reference tiny_crystal)).
Proof.
  split.
  - repeat match goal with |- _ /\ _ => split end;
      try (vm_compute; reflexivity).
    intros (status & G & E & _). vm_compute in E. discriminate.
  - repeat match goal with |- _ /\ _ => split end;
      try (vm_compute; reflexivity).
    intros (status & G & E & Hs). vm_compute in E.
    injection E as <- _. contradiction.
Qed.

(** Fewer than 2 usable pairs: the error status, and the caller goes on. *)
Example linear_scale_one_pair :
  @linear_scale (scaling_externals gsl_fit_wmul_reference)
                merged_reference [measured 1 50 2 0.5 1]
  = Returned (1%Z, None)
  /\ @scale_all_to_reference (scaling_externals gsl_fit_wmul_reference)
       [crystal_of [measured 1 50 2 0.5 1]; crystal_of merged_reference]
       merged_reference
     = Returned [crystal_of [measured 1 50 2 0.5 1];
                 crystal_set_Bfac (crystal_set_osf (crystal_of merged_reference) 1)
                                  0].
Proof. vm_compute. split; reflexivity. Qed.

(** A fit that reports an error: the error status again. *)
Example linear_scale_failed_fit :
  @linear_scale (scaling_externals (fun _ _ _ => (1%Z, 0, 0, 0)))
                merged_reference merged_reference
  = Returned (1%Z, Some 0).
Proof. vm_compute. reflexivity. Qed.


(** *** What [scale_iterate] changes *)

Import ListFacts.

(** The reflections that enter the fit, for every value a double can
    take. *)
Definition enters (full : RefList) (refl : Reflection) : bool :=
  negb (excluded full refl).

Definition n_entering (full : RefList) (cr : Crystal) : Z :=
  Z.of_nat (length (filter (enters full) (reflections cr))).

Section Iterate.
Context {libm : Libm} {ext : Externals}.

Lemma scale_terms_entering cr full refls : forall st,
  nref (fold_left (scale_term cr full) refls st)
  = (nref st + Z.of_nat (length (filter (enters full) refls)))%Z.
Proof.
  induction refls as [|r rest IH]; intros st; simpl; [lia|].
  rewrite IH, scale_term_excluded. unfold enters at 2.
  destruct (excluded full r) eqn:E; simpl; [lia|].
  destruct (find_refl full (h r) (k r) (l r)) as [m|] eqn:Ef.
  - rewrite accumulate_nref. lia.
  - unfold excluded in E. rewrite Ef, orb_true_r in E. discriminate.
Qed.

Lemma scale_iterate_count cr full :
  snd (scale_iterate cr full) = n_entering full cr.
Proof.
  rewrite scale_iterate_nr, scale_terms_entering. reflexivity.
Qed.

(** What [apply_shift] leaves alone. *)
Definition same_data (cr cr' : Crystal) : Prop :=
  cell cr' = cell cr /\ reflections cr' = reflections cr.

Lemma apply_shift_same cr k shift :
  same_data cr (apply_shift cr k shift) /\
  user_flag (apply_shift cr k shift) = user_flag cr.
Proof. destruct k; repeat split. Qed.

(** The loop that applies the shifts and finds the largest. *)
Lemma apply_shifts_spec (shifts : vector) (l : list Z) : forall cr0 cr m,
  same_data cr0 cr -> user_flag cr = user_flag cr0 ->
  sf_sign_is false (Prim2SF m) ->
  let r := fold_left
             (fun (acc : Crystal * float) (param : Z) =>
                let '(cr, max_shift) := acc in
                let shift := shifts param in
                (apply_shift cr (rv_at param) shift,
                 if fabs shift >? max_shift then fabs shift else max_shift))
             l (cr, m) in
  same_data cr0 (fst r) /\ user_flag (fst r) = user_flag cr0 /\
  sf_sign_is false (Prim2SF (snd r)) /\
  (snd r <? m) = false /\
  Forall (fun i => (fabs (shifts i) >? snd r) = false) l.
Proof.
  induction l as [|i l IH]; intros cr0 cr m Hd Hf Hm; cbv zeta; simpl.
  - split; [exact Hd|]. split; [exact Hf|]. split; [exact Hm|].
    split; [|constructor].
    apply ltb_false_leb; try (eapply sign_is_not_nan; eassumption).
    apply leb_refl. eapply sign_is_not_nan; eassumption.
  - set (m' := if fabs (shifts i) >? m then fabs (shifts i) else m).
    assert (Hm' : sf_sign_is false (Prim2SF m') /\ (m' <? m) = false
                  /\ (m' <? fabs (shifts i)) = false).
    { unfold m', gtb. destruct (m <? fabs (shifts i)) eqn:E.
      - destruct (ltb_not_nan _ _ E) as [_ Hs].
        assert (Hsh : not_nan (shifts i)) by (apply abs_not_nan_inv, Hs).
        split; [apply abs_sign, Hsh|]. split; [apply ltb_asym, E|].
        apply ltb_false_leb; try assumption. apply leb_refl, Hs.
      - split; [exact Hm|]. split; [|exact E].
        apply ltb_false_leb; try (eapply sign_is_not_nan; eassumption).
        apply leb_refl. eapply sign_is_not_nan; eassumption. }
    destruct Hm' as (Hs' & Hmm & Hmi).
    destruct (apply_shift_same cr (rv_at i) (shifts i)) as [[Hc Hr] Hfl].
    destruct Hd as [Hdc Hdr].
    destruct (IH cr0 (apply_shift cr (rv_at i) (shifts i)) m')
      as (Hd' & Hf' & Hsr & Hrm & Hall).
    + split; congruence.
    + congruence.
    + exact Hs'.
    + cbv zeta in *. split; [exact Hd'|]. split; [exact Hf'|].
      split; [exact Hsr|].
      assert (Hn' : not_nan m') by (eapply sign_is_not_nan; eassumption).
      split; [exact (not_ltb_trans m m' _ Hn' Hmm Hrm)|].
      constructor; [|exact Hall]. unfold gtb.
      exact (not_ltb_trans (fabs (shifts i)) m' _ Hn' Hmi Hrm).
Qed.

End Iterate.

(** The normal equations [scale_iterate] has built when it calls the
    solver. *)
Definition normal_eqs {libm : Libm} {ext : Externals}
           (cr : Crystal) (full : RefList) : fit_state :=
  fold_left (scale_term cr full) (reflections cr)
            {| M := fun _ _ => 0; v := fun _ => 0; nref := 0 |}.

Section IterateOutcome.
Context {libm : Libm} {ext : Externals}.

Lemma normal_eqs_nref cr full : nref (normal_eqs cr full) = n_entering full cr.
Proof.
  unfold normal_eqs. rewrite scale_terms_entering. cbn [nref].
  apply Z.add_0_l.
Qed.

Lemma scale_iterate_few cr full :
  (n_entering full cr < 2)%Z ->
  scale_iterate cr full
  = (0.0, crystal_set_user_flag cr PRFLAG_FEWREFL, n_entering full cr).
Proof.
  intros Hlt. unfold scale_iterate. fold (normal_eqs cr full).
  rewrite normal_eqs_nref. change num_params with 2%Z.
  destruct (Z.ltb_spec (n_entering full cr) 2); [reflexivity | lia].
Qed.

Lemma scale_iterate_same_data cr full :
  same_data cr (snd (fst (scale_iterate cr full))).
Proof.
  unfold scale_iterate. fold (normal_eqs cr full).
  destruct (_ <? _)%Z; [split; reflexivity|].
  destruct (solve_svd _ _) as [shifts|]; [|split; reflexivity].
  pose proof (apply_shifts_spec shifts (Zrange 0 num_params) cr cr 0.0
                (conj eq_refl eq_refl) eq_refl eq_refl) as (Hd & _).
  cbv zeta in Hd.
  destruct (fold_left _ (Zrange 0 num_params) (cr, 0.0)) as [cr' ms].
  exact Hd.
Qed.

End IterateOutcome.

(** X9.  [scale_iterate] counts in [*nr] the reflections that enter the
    fit.  When fewer than two do, it returns a zero shift and sets the
    crystal's flag to [PRFLAG_FEWREFL]; when the solver fails, it returns a
    zero shift and sets the flag to [PRFLAG_SOLVEFAIL].  In both cases the
    scale factor, the B factor, the cell and the reflections are as
    before. *)
Theorem X9_scale_iterate_failure_keeps_parameters
        (libm : Libm) (ext : Externals) cr full :
  let n := n_entering full cr in
  snd (scale_iterate cr full) = n /\
  ((n < 2)%Z ->
   scale_iterate cr full
   = (0.0, crystal_set_user_flag cr PRFLAG_FEWREFL, n)) /\
  ((2 <= n)%Z ->
   solve_svd (v (normal_eqs cr full)) (M (normal_eqs cr full)) = None ->
   scale_iterate cr full
   = (0.0, crystal_set_user_flag cr PRFLAG_SOLVEFAIL, n)).
Proof.
  cbv zeta. split; [apply scale_iterate_count|].
  split; [apply scale_iterate_few|].
  intros Hge Hs. unfold scale_iterate. fold (normal_eqs cr full).
  rewrite normal_eqs_nref, Hs. change num_params with 2%Z.
  destruct (Z.ltb_spec (n_entering full cr) 2); [lia | reflexivity].
Qed.

(** One reflection in a reference of two: too few for a fit. *)
Example scale_iterate_one_reflection :
  @scale_iterate example_libm (scaling_externals no_fit)
                 (crystal_of [measured 1 50 2 0.5 1]) merged_reference
  = (0.0, crystal_set_user_flag (crystal_of [measured 1 50 2 0.5 1])
                                PRFLAG_FEWREFL, 1%Z).
Proof. vm_compute. reflexivity. Qed.

(** X10.  [scale_iterate] changes nothing of a crystal but its scale
    factor, its B factor and its flag: the cell and the reflections are as
    before.  The shift it returns is a number and not negative; after a
    successful solve it is at least the magnitude of each of the two
    shifts, and the flag is as before. *)
Theorem X10_scale_iterate_touches_only_scale_factors
        (libm : Libm) (ext : Externals) cr full :
  let max_shift := fst (fst (scale_iterate cr full)) in
  let cr' := snd (fst (scale_iterate cr full)) in
  cell cr' = cell cr /\ reflections cr' = reflections cr /\
  (0 <=? max_shift) = true /\
  forall shifts,
    (2 <= n_entering full cr)%Z ->
    solve_svd (v (normal_eqs cr full)) (M (normal_eqs cr full))
    = Some shifts ->
    (fabs (shifts 0%Z) >? max_shift) = false /\
    (fabs (shifts 1%Z) >? max_shift) = false /\
    user_flag cr' = user_flag cr.
Proof.
  cbv zeta. unfold scale_iterate. fold (normal_eqs cr full).
  rewrite normal_eqs_nref. change num_params with 2%Z.
  destruct (Z.ltb_spec (n_entering full cr) 2) as [Hlt|Hge].
  { cbn. split; [reflexivity|]. split; [reflexivity|].
    split; [reflexivity|]. intros; lia. }
  destruct (solve_svd _ _) as [shifts|].
  - pose proof (apply_shifts_spec shifts (Zrange 0 2) cr cr 0.0
                  (conj eq_refl eq_refl) eq_refl eq_refl)
      as (Hd & Hf & Hs & _ & Hall).
    cbv zeta in *.
    destruct (fold_left _ (Zrange 0 2) (cr, 0.0)) as [cr' ms].
    cbn [fst snd] in *. destruct Hd as [Hc Hr].
    split; [exact Hc|]. split; [exact Hr|].
    split; [apply nonneg_leb, Hs|].
    intros shifts' _ E. injection E as <-.
    change (Zrange 0 2) with [0%Z; 1%Z] in Hall.
    inversion Hall as [|? ? H0 Hall']; subst.
    inversion Hall' as [|? ? H1 _]; subst. auto.
  - cbn. split; [reflexivity|]. split; [reflexivity|].
    split; [reflexivity|]. intros; discriminate.
Qed.

(** *** The residual *)

Section Residual.
Context {libm : Libm} {ext : Externals}.

Lemma residual_term_sign cr full free dev refl :
  nan_or_nonneg dev -> nan_or_nonneg (residual_term cr full free dev refl).
Proof.
  intros Hd. unfold residual_term.
  destruct (free && negb (flag refl)); [exact Hd|].
  destruct (find_refl full (h refl) (k refl) (l refl)) as [m|]; [|exact Hd].
  destruct (intensity refl <=? 3.0 * esd_intensity refl); [exact Hd|].
  destruct (redundancy m <? 2)%Z; [exact Hd|].
  destruct (intensity m <=? 0); [exact Hd|].
  destruct (partiality refl <=? 0.0); [exact Hd|].
  cbv zeta. apply add_nan_or_nonneg; [exact Hd|].
  apply square_nan_or_nonneg. vm_compute. exact I.
Qed.

Lemma log_residual_sign cr full free :
  nan_or_nonneg (log_residual cr full free).
Proof.
  unfold log_residual. apply fold_left_invariant.
  - intros dev refl. apply residual_term_sign.
  - right. reflexivity.
Qed.

Lemma log_residual_nothing_to_sum cr full free :
  Forall (fun refl => (free && negb (flag refl))
                      || weak_or_unmatched full refl = true)
         (reflections cr) ->
  log_residual cr full free = 0.0.
Proof.
  intros H. unfold log_residual. generalize 0.0 as d0.
  induction H as [|refl rest Hr _ IH]; intros d0; simpl; [reflexivity|].
  rewrite residual_term_skips by exact Hr. apply IH.
Qed.

(** The residual reads the reflections and the two scale factors, not the
    flag. *)
Lemma log_residual_flag cr full free f :
  log_residual (crystal_set_user_flag cr f) full free
  = log_residual cr full free.
Proof. reflexivity. Qed.

Lemma total_log_r_spec crystals full : forall total n,
  sf_sign_is false (Prim2SF total) ->
  let counted := fun cr => negb (flagged cr)
                           && negb (isnan (log_residual cr full false)) in
  let r := fold_left
             (fun (acc : float * Z) (cr : Crystal) =>
                let '(total, n) := acc in
                if flagged cr then acc
                else
                  let r := log_residual cr full false in
                  if isnan r then acc
                  else (total + r, (n + 1)%Z))
             crystals (total, n) in
  sf_sign_is false (Prim2SF (fst r)) /\
  snd r = (n + Z.of_nat (length (filter counted crystals)))%Z.
Proof.
  induction crystals as [|cr rest IH]; intros total n Ht; cbv zeta; simpl.
  - split; [exact Ht | lia].
  - destruct (flagged cr); simpl.
    { apply IH, Ht. }
    destruct (isnan (log_residual cr full false)) eqn:E; simpl.
    { apply IH, Ht. }
    destruct (log_residual_sign cr full false) as [En|Hs].
    { unfold isnan in E. congruence. }
    destruct (IH (total + log_residual cr full false) (n + 1)%Z
                 (add_nonneg _ _ Ht Hs)) as [H1 H2].
    cbv zeta in *. split; [exact H1 | lia].
Qed.

End Residual.

(** X11.  The residual [log_residual] returns is NaN or not negative,
    whatever the data and the external functions give; it is exactly 0.0
    when every reflection of the crystal is skipped (no match, too weak,
    low redundancy, non-positive reference intensity or partiality, or not
    in the free set when that is asked for). *)
Theorem X11_log_residual_not_negative
        (libm : Libm) (ext : Externals) cr full free :
  (isnan (log_residual cr full free) = true
   \/ (0 <=? log_residual cr full free) = true) /\
  (Forall (fun refl => (free && negb (flag refl))
                       || weak_or_unmatched full refl = true)
          (reflections cr) ->
   log_residual cr full free = 0.0).
Proof.
  split; [|apply log_residual_nothing_to_sum].
  destruct (log_residual_sign cr full free) as [H|H];
    [left; exact H | right; apply nonneg_leb, H].
Qed.

(** The total is the sum, taken in the order of the array and starting
    from 0.0, of the residuals that are counted. *)
Lemma total_log_r_sum {libm : Libm} {ext : Externals} crystals full :
  forall total n,
  let counted := fun cr => negb (flagged cr)
                           && negb (isnan (log_residual cr full false)) in
  fst (fold_left
         (fun (acc : float * Z) (cr : Crystal) =>
            let '(total, n) := acc in
            if flagged cr then acc
            else
              let r := log_residual cr full false in
              if isnan r then acc
              else (total + r, (n + 1)%Z))
         crystals (total, n))
  = fold_left (fun t r => t + r)
              (map (fun cr => log_residual cr full false)
                   (filter counted crystals))
              total.
Proof.
  induction crystals as [|cr rest IH]; intros total n; cbv zeta; simpl;
    [reflexivity|].
  destruct (flagged cr); simpl; [apply IH|].
  destruct (isnan (log_residual cr full false)); simpl; apply IH.
Qed.

(** X12.  [total_log_r] adds up the residuals of the crystals that are not
    flagged and whose residual is a number, and counts them in [*ninc]:
    the total is the sum of exactly these residuals, added in the order of
    the array to 0.0.  The total is therefore never NaN and never
    negative, and the count is at most the number of crystals. *)
Theorem X12_total_log_r_is_a_number
        (libm : Libm) (ext : Externals) crystals full :
  let counted := fun cr => negb (flagged cr)
                           && negb (isnan (log_residual cr full false)) in
  fst (total_log_r crystals full)
  = fold_left (fun total r => total + r)
              (map (fun cr => log_residual cr full false)
                   (filter counted crystals))
              0.0 /\
  (0 <=? fst (total_log_r crystals full)) = true /\
  isnan (fst (total_log_r crystals full)) = false /\
  snd (total_log_r crystals full)
  = Z.of_nat (length (filter counted crystals)) /\
  (0 <= snd (total_log_r crystals full) <= Z.of_nat (length crystals))%Z.
Proof.
  cbv zeta.
  destruct (total_log_r_spec crystals full 0.0 0%Z eq_refl) as [Hs Hn].
  cbv zeta in *. fold (total_log_r crystals full) in Hs, Hn.
  split; [apply (total_log_r_sum crystals full 0.0 0%Z)|].
  split; [apply nonneg_leb, Hs|].
  split; [eapply sign_is_not_nan, Hs|].
  split; [rewrite Hn; lia|]. rewrite Hn.
  match goal with |- context [filter ?f crystals] =>
    pose proof (filter_length_le f crystals) end.
  lia.
Qed.

(** *** The refinement loop of one crystal *)

Section RefineLoop.
Context {libm : Libm} {ext : Externals}.

Lemma scale_refine_loop_spec full todo : forall cr old_dev,
  let r := scale_refine_loop full todo cr old_dev in
  (1 <= snd r <= S todo)%nat /\
  cell (fst (fst r)) = cell cr /\
  reflections (fst (fst r)) = reflections cr /\
  snd (fst r) = n_entering full cr /\
  ((n_entering full cr < 2)%Z ->
   fst (fst r) = crystal_set_user_flag cr PRFLAG_FEWREFL).
Proof.
  induction todo as [|todo IH]; intros cr old_dev; cbv zeta;
    cbn [scale_refine_loop];
    pose proof (scale_iterate_count cr full) as Hn;
    pose proof (scale_iterate_few cr full) as Hfew;
    destruct (scale_iterate_same_data cr full) as [Hc Hr];
    destruct (scale_iterate cr full) as [[ms cr1] nr1]; cbn [fst snd] in *.
  - split; [lia|]. split; [exact Hc|]. split; [exact Hr|].
    split; [exact Hn|]. intros Hlt. specialize (Hfew Hlt). congruence.
  - destruct (_ <? _).
    + cbn [fst snd]. split; [lia|]. split; [exact Hc|]. split; [exact Hr|].
      split; [exact Hn|]. intros Hlt. specialize (Hfew Hlt). congruence.
    + specialize (IH cr1 (log_residual cr1 full false)). cbv zeta in IH.
      destruct (scale_refine_loop full todo cr1 _) as [[cr2 nr2] passes].
      cbn [fst snd] in *.
      assert (En : n_entering full cr1 = n_entering full cr)
        by (unfold n_entering; now rewrite Hr).
      destruct IH as (Hp & Hc2 & Hr2 & Hn2 & Hfew2).
      split; [lia|]. split; [congruence|]. split; [congruence|].
      split; [congruence|]. intros Hlt.
      rewrite Hfew2 by lia. specialize (Hfew Hlt).
      injection Hfew as _ -> _. reflexivity.
Qed.

Lemma nothing_enters full cr :
  Forall (fun refl => weak_or_unmatched full refl = true) (reflections cr) ->
  n_entering full cr = 0%Z.
Proof.
  intros H. unfold n_entering. rewrite filter_none; [reflexivity|].
  eapply Forall_impl; [|exact H]. intros refl Hw.
  unfold enters. rewrite excluded_split, Hw, orb_true_r. reflexivity.
Qed.

(** With nothing to sum the residual stays 0.0, and the test
    [fabs(dev - old_dev) < dev*0.01] reads [0 < 0]: the loop runs to its
    cap. *)
Lemma scale_refine_loop_to_the_cap full todo : forall cr,
  Forall (fun refl => weak_or_unmatched full refl = true) (reflections cr) ->
  snd (scale_refine_loop full todo cr 0.0) = S todo.
Proof.
  induction todo as [|todo IH]; intros cr Hw.
  - cbn [scale_refine_loop].
    destruct (scale_iterate cr full) as [[ms cr1] nr1]. reflexivity.
  - cbn [scale_refine_loop].
    pose proof (scale_iterate_few cr full) as Hfew.
    rewrite (nothing_enters full cr Hw) in Hfew.
    rewrite (Hfew ltac:(lia)).
    assert (E : log_residual (crystal_set_user_flag cr PRFLAG_FEWREFL)
                             full false = 0.0).
    { apply log_residual_nothing_to_sum. cbn [reflections crystal_set_user_flag].
      eapply Forall_impl; [|exact Hw]. intros refl ->. reflexivity. }
    rewrite E.
    replace (fabs (0.0 - 0.0) <? 0.0 * 0.01) with false
      by (vm_compute; reflexivity).
    specialize (IH (crystal_set_user_flag cr PRFLAG_FEWREFL) Hw).
    destruct (scale_refine_loop full todo _ 0.0) as [[cr2 nr2] passes].
    cbn [fst snd] in *. congruence.
Qed.

End RefineLoop.

(** X13.  [do_scale_refine] makes at least one and at most ten passes of
    [scale_iterate]; it leaves the cell and the reflections of the crystal
    alone, and the count it reports is that of the reflections entering the
    fit.  A crystal with fewer than two such reflections comes back with
    its scale factors unchanged and the flag [PRFLAG_FEWREFL].  When no
    reflection at all passes the tests, the residual is 0.0 before and
    after every pass, the convergence test [0 < 0] never succeeds, and all
    ten passes are made. *)
Theorem X13_do_scale_refine_passes
        (libm : Libm) (ext : Externals) cr full :
  let cr' := fst (fst (do_scale_refine cr full)) in
  let nr := snd (fst (do_scale_refine cr full)) in
  let passes := snd (do_scale_refine cr full) in
  (1 <= passes <= 10)%nat /\
  cell cr' = cell cr /\ reflections cr' = reflections cr /\
  nr = n_entering full cr /\
  ((n_entering full cr < 2)%Z ->
   cr' = crystal_set_user_flag cr PRFLAG_FEWREFL) /\
  (Forall (fun refl => weak_or_unmatched full refl = true)
          (reflections cr) ->
   passes = 10%nat).
Proof.
  cbv zeta. unfold do_scale_refine.
  destruct (scale_refine_loop_spec full (MAX_CYCLES - 1) cr
              (log_residual cr full false)) as (Hp & Hc & Hr & Hn & Hfew).
  cbv zeta in *. change (MAX_CYCLES - 1)%nat with 9%nat in *.
  repeat match goal with |- _ /\ _ => split end;
    try assumption; try lia.
  intros Hw. rewrite log_residual_nothing_to_sum.
  - apply scale_refine_loop_to_the_cap, Hw.
  - eapply Forall_impl; [|exact Hw]. intros refl ->. reflexivity.
Qed.

(** A crystal none of whose reflections is in the reference. *)
Example do_scale_refine_unmatched :
  @do_scale_refine example_libm (scaling_externals no_fit)
                   (crystal_of [measured 7 50 2 0.5 1]) merged_reference
  = (crystal_set_user_flag (crystal_of [measured 7 50 2 0.5 1])
                           PRFLAG_FEWREFL, 0%Z, 10%nat).
Proof. vm_compute. reflexivity. Qed.

(** *** The samples of [linear_scale] *)

(** Greater than zero and not infinite (hence a number). *)
Definition positive_finite (x : float) : Prop :=
  (0 <? x) = true /\ isinf x = false.

Lemma passes_guards x :
  (x <=? 0.0) = false -> isnan x || isinf x = false -> positive_finite x.
Proof.
  intros Hle Hn. apply orb_false_iff in Hn. destruct Hn as [Hn Hi].
  split; [|exact Hi]. apply leb_false_ltb; [exact Hn | reflexivity | exact Hle].
Qed.

Section Samples.
Context {ext : Externals}.

Lemma scale_point_spec list2 refl1 x y w :
  scale_point list2 refl1 = Some (x, y, w) ->
  exists refl2,
    find_refl list2 (h refl1) (k refl1) (l refl1) = Some refl2 /\
    y = intensity refl1 /\ w = partiality refl2 /\
    x = intensity refl2 / partiality refl2 /\
    positive_finite (intensity refl1) /\ positive_finite (intensity refl2).
Proof.
  unfold scale_point.
  destruct (find_refl list2 (h refl1) (k refl1) (l refl1)) as [refl2|];
    [|discriminate].
  destruct (intensity refl1 <=? 0.0) eqn:E1; [discriminate|].
  destruct (intensity refl2 <=? 0.0) eqn:E2; [discriminate|]. cbn [orb].
  destruct (isnan (intensity refl1) || isinf (intensity refl1)) eqn:E3;
    [discriminate|].
  destruct (isnan (intensity refl2) || isinf (intensity refl2)) eqn:E4;
    [discriminate|].
  intros E. injection E as <- <- <-. exists refl2.
  repeat match goal with |- _ /\ _ => split end; try reflexivity;
    apply passes_guards; assumption.
Qed.

End Samples.

(** X14.  [linear_scale] hands the fit at most one sample per reflection of
    its first list.  Each sample pairs a reflection of the first list with
    its match in the second: [y] is the intensity of the first, [w] the
    partiality of the second and [x] the intensity of the second divided
    by that partiality; both intensities are greater than zero and finite,
    so no sample has a [y] that is zero, negative, infinite or NaN. *)
Theorem X14_linear_scale_samples_positive_finite
        (ext : Externals) (list1 list2 : RefList) :
  (length (scale_points list1 list2) <= length list1)%nat /\
  Forall (fun pt =>
            let x := fst (fst pt) in
            let y := snd (fst pt) in
            let w := snd pt in
            positive_finite y /\
            exists refl1 refl2,
              In refl1 list1 /\
              find_refl list2 (h refl1) (k refl1) (l refl1) = Some refl2 /\
              y = intensity refl1 /\ w = partiality refl2 /\
              x = intensity refl2 / partiality refl2 /\
              positive_finite (intensity refl2))
         (scale_points list1 list2).
Proof.
  split; [apply flat_map_option_length|].
  apply Forall_forall. intros [[x y] w] Hin.
  unfold scale_points in Hin. apply flat_map_option_In in Hin.
  destruct Hin as (refl1 & Hin1 & E).
  apply scale_point_spec in E.
  destruct E as (refl2 & Ef & -> & -> & -> & Hp1 & Hp2).
  cbn [fst snd]. split; [exact Hp1|].
  exists refl1, refl2. auto 10.
Qed.

(** *** [scale_all_to_reference] *)

Section ToReference.
Context {libm : Libm} {ext : Externals}.

(** What the loop does to one crystal: nothing, or the fitted factor,
    which is not NaN, and a B factor of zero. *)
Definition scaled_to (reference : RefList) (cr cr' : Crystal) : Prop :=
  (exists status G,
      linear_scale reference (reflections cr) = Returned (status, G) /\
      status <> 0%Z /\ cr' = cr)
  \/ (exists G,
        linear_scale reference (reflections cr) = Returned (0%Z, Some G) /\
        isnan G = false /\
        cr' = crystal_set_Bfac (crystal_set_osf cr G) 0.0).

Lemma linear_scale_success reference refls G :
  linear_scale reference refls = Returned (0%Z, G) ->
  exists G', G = Some G' /\ isnan G' = false.
Proof.
  unfold linear_scale.
  destruct (_ <? 2)%Z; [discriminate|].
  destruct (gsl_fit_wmul _ _ _) as [[[r G0] cov11] sumsq].
  destruct (negb (r =? 0)%Z); [discriminate|].
  destruct (isnan G0) eqn:E; [discriminate|].
  intros H. injection H as <-. eauto.
Qed.

Lemma scale_all_to_reference_spec reference crystals :
  match scale_all_to_reference crystals reference with
  | Returned done => Forall2 (scaled_to reference) crystals done
  | Aborted =>
      exists cr, In cr crystals /\
                 linear_scale reference (reflections cr) = Aborted
  end.
Proof.
  induction crystals as [|cr rest IH]; simpl; [constructor|].
  destruct (linear_scale reference (reflections cr)) as [[status G]|] eqn:E.
  - destruct (scale_all_to_reference rest reference) as [done|].
    + constructor; [|exact IH].
      destruct (Z.eq_dec status 0) as [->|Hs].
      * destruct (linear_scale_success _ _ _ E) as (G' & -> & HG).
        right. exists G'. split; [exact E|]. split; [exact HG|].
        reflexivity.
      * left. exists status, G. split; [exact E|]. split; [exact Hs|].
        destruct status; try contradiction; destruct G; reflexivity.
    + destruct IH as (cr' & Hin & Ha). exists cr'. split; [right|]; assumption.
  - exists cr. split; [left; reflexivity | exact E].
Qed.

End ToReference.

(** X15.  When [scale_all_to_reference] returns, it hands back as many
    crystals as it was given, in the same order, and each of them is
    either untouched (its [linear_scale] returned a non-zero status) or has
    the fitted scale factor, which is not NaN, and a B factor of 0.0; so
    the caller's test for a NaN factor never fires.  It fails to return
    exactly when the fit of one of the crystals ends in [abort()]. *)
Theorem X15_scale_all_to_reference_outcome
        (libm : Libm) (ext : Externals) reference crystals :
  match scale_all_to_reference crystals reference with
  | Returned done =>
      length done = length crystals /\
      Forall2 (scaled_to reference) crystals done /\
      Forall (fun cr => linear_scale reference (reflections cr) <> Aborted)
             crystals
  | Aborted =>
      exists cr, In cr crystals /\
                 linear_scale reference (reflections cr) = Aborted
  end.
Proof.
  pose proof (scale_all_to_reference_spec reference crystals) as H.
  destruct (scale_all_to_reference crystals reference) as [done|];
    [|exact H].
  split; [symmetry; eapply Forall2_length, H|]. split; [exact H|].
  clear - H. induction H as [|cr cr' rest done' Hs _ IH]; constructor; auto.
  destruct Hs as [(s & G & E & _)|(G & E & _)]; rewrite E; discriminate.
Qed.

(** *** The outer loop of [scale_all] *)

Section ScaleAllFacts.
Context {libm : Libm} {ext : Externals}.
Variable merge_intensities : list Crystal -> RefList.

(** The crystals after the per-crystal refinement against the reference
    merged from them, and the total residual then. *)
Definition refined_once (crystals : list Crystal) : list Crystal :=
  map (fun cr => fst (fst (do_scale_refine cr (merge_intensities crystals))))
      crystals.

Definition residual_after (crystals : list Crystal) : float :=
  fst (total_log_r (refined_once crystals) (merge_intensities crystals)).

Lemma refined_once_same_data crystals :
  Forall2 same_data crystals (refined_once crystals).
Proof.
  unfold refined_once. generalize (merge_intensities crystals) as full.
  intros full. induction crystals as [|cr rest IH]; simpl; constructor; auto.
  destruct (scale_refine_loop_spec full (MAX_CYCLES - 1) cr
              (log_residual cr full false)) as (_ & Hc & Hr & _).
  split; assumption.
Qed.

Lemma same_data_trans l1 : forall l2 l3,
  Forall2 same_data l1 l2 -> Forall2 same_data l2 l3 ->
  Forall2 same_data l1 l3.
Proof.
  induction l1 as [|a l1 IH]; intros l2 l3 H12 H23;
    inversion H12; subst; inversion H23; subst; constructor.
  - unfold same_data in *. intuition congruence.
  - eapply IH; eassumption.
Qed.

Lemma scale_all_loop_spec todo : forall crystals res,
  let r := scale_all_loop merge_intensities todo crystals res in
  (1 <= snd r <= S todo)%nat /\
  Forall2 same_data crystals (fst (fst r)).
Proof.
  induction todo as [|todo IH]; intros crystals res; cbv zeta;
    cbn [scale_all_loop]; fold (refined_once crystals);
    fold (residual_after crystals).
  - cbn [fst snd]. split; [lia | apply refined_once_same_data].
  - destruct (_ >=? _).
    + specialize (IH (refined_once crystals) (residual_after crystals)).
      cbv zeta in IH.
      destruct (scale_all_loop merge_intensities todo _ _)
        as [[out res'] niter].
      cbn [fst snd] in *. destruct IH as [Hn Hd]. split; [lia|].
      eapply same_data_trans; [apply refined_once_same_data | exact Hd].
    + cbn [fst snd]. split; [lia | apply refined_once_same_data].
Qed.

Lemma residual_after_sign crystals :
  sf_sign_is false (Prim2SF (residual_after crystals)).
Proof.
  unfold residual_after, total_log_r.
  apply (total_log_r_spec (refined_once crystals)
           (merge_intensities crystals) 0.0 0%Z eq_refl).
Qed.

Lemma scale_all_loop_step todo crystals res :
  scale_all_loop merge_intensities (S todo) crystals res
  = if fabs (residual_after crystals - res) >=? 0.01 * res then
      let '(out, res', niter) :=
        scale_all_loop merge_intensities todo (refined_once crystals)
                       (residual_after crystals) in
      (out, res', S niter)
    else (refined_once crystals, residual_after crystals, 1%nat).
Proof. reflexivity. Qed.

Lemma scale_all_first_round crystals :
  snd (scale_all merge_intensities crystals)
  = if isinf (residual_after crystals) then 1%nat
    else S (snd (scale_all_loop merge_intensities 8
                   (refined_once crystals) (residual_after crystals))).
Proof.
  unfold scale_all. rewrite scale_all_loop_step.
  unfold fabs, isinf.
  rewrite (change_from_infinity _ (residual_after_sign crystals)).
  destruct (is_infinity (residual_after crystals)); cbn [negb];
    [reflexivity|].
  destruct (scale_all_loop merge_intensities 8 _ _) as [[out res] niter].
  reflexivity.
Qed.

End ScaleAllFacts.

(** X16.  [scale_all] makes at least one and at most ten rounds of
    merging and per-crystal refinement, and hands back the same crystals
    with the same cells and reflections: only scale factors, B factors and
    flags move.  Because the previous residual starts at [INFINITY], the
    convergence test cannot succeed after the first round when the
    residual is finite, so at least two rounds are made; when the first
    residual is infinite the test reads NaN and the loop stops after one
    round. *)
Theorem X16_scale_all_rounds
        (libm : Libm) (ext : Externals)
        (merge_intensities : list Crystal -> RefList) crystals :
  let out := fst (fst (scale_all merge_intensities crystals)) in
  let niter := snd (scale_all merge_intensities crystals) in
  (1 <= niter <= 10)%nat /\
  Forall2 same_data crystals out /\
  (isinf (residual_after merge_intensities crystals) = false ->
   (2 <= niter)%nat) /\
  (isinf (residual_after merge_intensities crystals) = true ->
   niter = 1%nat).
Proof.
  cbv zeta.
  destruct (scale_all_loop_spec merge_intensities 9 crystals infinity)
    as [Hn Hd]. cbv zeta in *. fold (scale_all merge_intensities crystals) in *.
  split; [exact Hn|]. split; [exact Hd|].
  rewrite scale_all_first_round.
  split; intros ->; [|reflexivity].
  destruct (scale_all_loop_spec merge_intensities 8
              (refined_once merge_intensities crystals)
              (residual_after merge_intensities crystals)) as [Hn' _].
  cbv zeta in Hn'. lia.
Qed.

(** Two crystals that match the reference in nothing: the residual is 0.0
    throughout, the test [fabs(new - old) >= 0.01*old] reads [0 >= 0] from
    the second round on, and all ten rounds are made. *)
Example scale_all_zero_residual :
  snd (@scale_all example_libm (scaling_externals no_fit)
                  (fun _ => merged_reference)
                  [crystal_of [measured 7 50 2 0.5 1];
                   crystal_of [measured 8 50 2 0.5 1]])
  = 10%nat.
Proof. vm_compute. reflexivity. Qed.


(** *** The normal equations of [scale_iterate] *)

Definition symmetric (A : matrix) : Prop := forall a b, A a b = A b a.

(** Nothing is stored outside the [num_params] x [num_params] block. *)
Definition within_block (A : matrix) : Prop :=
  forall a b, ~ ((0 <= a < num_params)%Z /\ (0 <= b < num_params)%Z) ->
              A a b = 0.

Definition within_range (u : vector) : Prop :=
  forall a, ~ (0 <= a < num_params)%Z -> u a = 0.

Ltac eqb_cases :=
  repeat match goal with
  | |- context [(?x =? ?y)%Z] => destruct (Z.eqb_spec x y)
  end.

Lemma fit_set_pair_symmetric A k g x :
  symmetric A ->
  symmetric (gsl_matrix_set (gsl_matrix_set A k g x) g k x).
Proof.
  intros H a b. unfold gsl_matrix_set.
  eqb_cases; subst; simpl; try reflexivity; try lia; apply H.
Qed.

Lemma fit_set_within_block A i j x :
  (0 <= i < num_params)%Z -> (0 <= j < num_params)%Z ->
  within_block A -> within_block (gsl_matrix_set A i j x).
Proof.
  intros Hi Hj H a b Hab. unfold gsl_matrix_set.
  eqb_cases; subst; simpl; try (exfalso; apply Hab; split; assumption);
    apply H, Hab.
Qed.

Lemma fit_set_within_range u i x :
  (0 <= i < num_params)%Z -> within_range u ->
  within_range (gsl_vector_set u i x).
Proof.
  intros Hi H a Ha. unfold gsl_vector_set.
  eqb_cases; subst; simpl; [contradiction | apply H, Ha].
Qed.

Definition well_formed (st : fit_state) : Prop :=
  symmetric (M st) /\ within_block (M st) /\ within_range (v st).

Section NormalEquations.
Context {libm : Libm} {ext : Externals}.

Lemma accumulate_well_formed cr refl m st :
  well_formed st -> well_formed (accumulate cr refl m st).
Proof.
  intros Hst. unfold accumulate.
  match goal with |- context [fold_left ?f (Zrange 0 num_params) ?i] =>
    assert (H : symmetric (fst (fold_left f (Zrange 0 num_params) i))
                /\ within_block (fst (fold_left f (Zrange 0 num_params) i))
                /\ within_range (snd (fold_left f (Zrange 0 num_params) i)))
  end.
  { apply (fold_left_inv
             (fun Mv : matrix * vector =>
                symmetric (fst Mv) /\ within_block (fst Mv)
                /\ within_range (snd Mv))); [|exact Hst].
    intros [A u] k Hk (Hs & Hb & Hr). apply Zrange_spec in Hk.
    cbn [fst snd] in *. split; [|split].
    - apply (fold_left_inv symmetric); [|exact Hs].
      intros A' g _ Hs'. destruct (g >? k)%Z; [exact Hs'|].
      apply fit_set_pair_symmetric, Hs'.
    - apply (fold_left_inv within_block); [|exact Hb].
      intros A' g Hg Hb'. apply Zrange_spec in Hg.
      destruct (g >? k)%Z; [exact Hb'|].
      repeat apply fit_set_within_block; assumption.
    - apply fit_set_within_range; assumption. }
  destruct (fold_left _ (Zrange 0 num_params) _) as [A u]. exact H.
Qed.

Lemma scale_term_well_formed cr full st refl :
  well_formed st -> well_formed (scale_term cr full st refl).
Proof.
  intros H. rewrite scale_term_excluded.
  destruct (excluded full refl); [exact H|].
  destruct (find_refl full (h refl) (k refl) (l refl)); [|exact H].
  apply accumulate_well_formed, H.
Qed.

End NormalEquations.

(** X25.  The normal equations that [scale_iterate] hands to the solver
    have a symmetric matrix, and nothing is stored outside its rows and
    columns 0 and 1 or outside entries 0 and 1 of the vector. *)
Theorem X25_scaling_normal_equations_symmetric
        (libm : Libm) (ext : Externals) cr full :
  let A := M (normal_eqs cr full) in
  let u := v (normal_eqs cr full) in
  (forall a b, A a b = A b a) /\
  (forall a b, ~ ((0 <= a < 2)%Z /\ (0 <= b < 2)%Z) -> A a b = 0) /\
  (forall a, ~ (0 <= a < 2)%Z -> u a = 0).
Proof.
  cbv zeta. change 2%Z with num_params.
  change (well_formed (normal_eqs cr full)).
  unfold normal_eqs. apply fold_left_invariant.
  - intros st refl. apply scale_term_well_formed.
  - repeat split; intros; reflexivity.
Qed.

End ScalingFacts.

(** ** The detector *)
Module DetectorFacts.

Import Double ListFacts Detector.

(** The pixel lies within the bounds of the panel. *)
Definition inside (p : panel) (x y : Z) : Prop :=
  (min_x p <= x <= max_x p)%Z /\ (min_y p <= y <= max_y p)%Z.

Lemma contains_inside p x y : contains p x y = true <-> inside p x y.
Proof.
  unfold contains, inside.
  rewrite !andb_true_iff, !Z.geb_le, !Z.leb_le. tauto.
Qed.

Lemma contains_outside p x y : contains p x y = false <-> ~ inside p x y.
Proof.
  rewrite <- contains_inside. destruct (contains p x y); split; congruence.
Qed.

Lemma find_panel_loop_spec ps x y :
  match find_panel_loop ps x y with
  | Some p =>
      exists before after,
        ps = before ++ p :: after /\ inside p x y /\
        Forall (fun q => ~ inside q x y) before
  | None => Forall (fun q => ~ inside q x y) ps
  end.
Proof.
  induction ps as [|q rest IH]; simpl; [constructor|].
  destruct (contains q x y) eqn:E.
  - exists [], rest. split; [reflexivity|].
    split; [apply contains_inside, E | constructor].
  - apply contains_outside in E.
    destruct (find_panel_loop rest x y) as [p|].
    + destruct IH as (before & after & -> & Hin & Hb).
      exists (q :: before), after. split; [reflexivity|].
      split; [exact Hin | constructor; assumption].
    + constructor; assumption.
Qed.

(** X23.  [find_panel] returns the first panel, in the order of the
    detector's array, whose bounds contain the pixel (both bounds
    included), and NULL exactly when no panel contains it. *)
Theorem X23_find_panel_first_containing det x y :
  match find_panel det x y with
  | Some p =>
      exists before after,
        panels det = before ++ p :: after /\ inside p x y /\
        Forall (fun q => ~ inside q x y) before
  | None => Forall (fun q => ~ inside q x y) (panels det)
  end.
Proof. apply find_panel_loop_spec. Qed.

(** Every field that the geometry file has to give has been given: none
    still holds the -1 it was initialised with. *)
Definition complete (p : panel) : Prop :=
  min_x p <> (-1)%Z /\ max_x p <> (-1)%Z /\
  min_y p <> (-1)%Z /\ max_y p <> (-1)%Z /\
  (cx p =? -1) = false /\ (cy p =? -1) = false /\
  (clen p =? -1) = false /\ (res p =? -1) = false.

Lemma check_panel_spec reject mx my p :
  let '(reject', mx', my') := check_panel (reject, mx, my) p in
  (reject' = 0%Z <-> reject = 0%Z /\ complete p) /\
  mx' = Z.max mx (max_x p) /\ my' = Z.max my (max_y p).
Proof.
  unfold check_panel, complete.
  destruct (Z.eqb_spec (min_x p) (-1)), (Z.eqb_spec (max_x p) (-1)),
           (Z.eqb_spec (min_y p) (-1)), (Z.eqb_spec (max_y p) (-1)),
           (cx p =? -1), (cy p =? -1), (clen p =? -1), (res p =? -1);
    (split; [split; [intros H; try discriminate; repeat split;
                     try assumption; try reflexivity
                    | intros (H & H1 & H2 & H3 & H4 & H5 & H6 & H7 & H8);
                      try contradiction; try discriminate; exact H]
            | split; [destruct (Z.gtb_spec (max_x p) mx)
                     | destruct (Z.gtb_spec (max_y p) my)]; lia]).
Qed.

Lemma check_panels_spec ps : forall reject mx my,
  let '(reject', mx', my') := fold_left check_panel ps (reject, mx, my) in
  (reject' = 0%Z <-> reject = 0%Z /\ Forall complete ps) /\
  (mx <= mx')%Z /\ (my <= my')%Z /\
  Forall (fun p => (max_x p <= mx')%Z /\ (max_y p <= my')%Z) ps /\
  (mx' = mx \/ exists p, In p ps /\ mx' = max_x p) /\
  (my' = my \/ exists p, In p ps /\ my' = max_y p).
Proof.
  induction ps as [|p rest IH]; intros reject mx my; cbn [fold_left].
  - repeat split; auto; try lia; try tauto.
  - pose proof (check_panel_spec reject mx my p) as Hp.
    destruct (check_panel (reject, mx, my) p) as [[r1 mx1] my1].
    destruct Hp as (Hr & -> & ->).
    specialize (IH r1 (Z.max mx (max_x p)) (Z.max my (max_y p))).
    destruct (fold_left check_panel rest _) as [[r2 mx2] my2].
    destruct IH as (Hr2 & Hx & Hy & Hall & Hex & Hey). cbv beta iota.
    split.
    { rewrite Hr2, Hr. split.
      - intros [[H0 Hc] Hrest]. split; [exact H0 | constructor; assumption].
      - intros [H0 Hall']. inversion Hall'; subst. tauto. }
    split; [lia|]. split; [lia|].
    split; [constructor; [lia | exact Hall]|].
    split.
    + destruct Hex as [->|(q & Hq & ->)].
      * destruct (Z.max_spec mx (max_x p)) as [[_ ->]|[_ ->]];
          [right; exists p; split; [left|]; reflexivity | left; reflexivity].
      * right. exists q. split; [right; exact Hq | reflexivity].
    + destruct Hey as [->|(q & Hq & ->)].
      * destruct (Z.max_spec my (max_y p)) as [[_ ->]|[_ ->]];
          [right; exists p; split; [left|]; reflexivity | left; reflexivity].
      * right. exists q. split; [right; exact Hq | reflexivity].
Qed.

Lemma has_gap_spec det mx my :
  has_gap det mx my = false <->
  forall x y, (0 <= x <= mx)%Z -> (0 <= y <= my)%Z ->
              exists p, In p (panels det) /\ inside p x y.
Proof.
  unfold has_gap. split.
  - intros H x y Hx Hy.
    destruct (find_panel det x y) as [p|] eqn:E.
    + pose proof (find_panel_loop_spec (panels det) x y) as Hs.
      unfold find_panel in E. rewrite E in Hs.
      destruct Hs as (before & after & Eq & Hin & _).
      exists p. split; [|exact Hin]. rewrite Eq. apply in_or_app.
      right. left. reflexivity.
    + assert (Hg : existsb
                (fun x => existsb (fun y => match find_panel det x y with
                                            | None => true
                                            | Some _ => false
                                            end) (Zrange 0 (my + 1)))
                (Zrange 0 (mx + 1)) = true).
      { apply existsb_exists. exists x. split; [apply Zrange_spec; lia|].
        apply existsb_exists. exists y. split; [apply Zrange_spec; lia|].
        now rewrite E. }
      congruence.
  - intros H. destruct (existsb _ _) eqn:E; [|reflexivity]. exfalso.
    apply existsb_exists in E. destruct E as (x & Hx & E).
    apply existsb_exists in E. destruct E as (y & Hy & E).
    apply Zrange_spec in Hx, Hy.
    destruct (H x y ltac:(lia) ltac:(lia)) as (p & Hp & Hin).
    pose proof (find_panel_loop_spec (panels det) x y) as Hs.
    unfold find_panel in E.
    destruct (find_panel_loop (panels det) x y); [discriminate|].
    rewrite Forall_forall in Hs. exact (Hs p Hp Hin).
Qed.

(** X24.  The checks that end [get_detector_geometry] accept a geometry
    ([reject] stays 0) exactly when nothing was rejected while the file
    was read, every panel has its four bounds, its centre, its camera
    length and its resolution, and every pixel from (0,0) to
    ([max_x], [max_y]) lies on some panel: a geometry that loads has no
    gaps.  The [max_x] and [max_y] stored in the detector are not negative
    and are the largest such bounds of the panels (0 when none is
    larger). *)
Theorem X24_accepted_geometry_has_no_gaps det reject0 :
  let '(reject, mx, my) := check_geometry det reject0 in
  (reject = 0%Z <->
   reject0 = 0%Z /\ Forall complete (panels det) /\
   forall x y, (0 <= x <= mx)%Z -> (0 <= y <= my)%Z ->
               exists p, In p (panels det) /\ inside p x y) /\
  (0 <= mx)%Z /\ (0 <= my)%Z /\
  Forall (fun p => (max_x p <= mx)%Z /\ (max_y p <= my)%Z) (panels det) /\
  (mx = 0%Z \/ exists p, In p (panels det) /\ mx = max_x p) /\
  (my = 0%Z \/ exists p, In p (panels det) /\ my = max_y p).
Proof.
  unfold check_geometry.
  pose proof (check_panels_spec (panels det) reject0 0%Z 0%Z) as H.
  destruct (fold_left check_panel (panels det) _) as [[r mx] my].
  destruct H as (Hr & Hx & Hy & Hall & Hex & Hey). cbv beta iota zeta.
  split; [|auto 10].
  pose proof (has_gap_spec det mx my) as Hg.
  destruct (has_gap det mx my).
  - split; [discriminate|]. intros (_ & _ & H).
    apply Hg in H. discriminate.
  - rewrite Hr. destruct Hg as [Hg _]. specialize (Hg eq_refl). tauto.
Qed.

(** Two panels side by side cover a 4 x 2 detector; with the second
    shifted by one column there is a gap, and the geometry is rejected. *)
Definition strip (x0 x1 : Z) : panel :=
  {| min_x := x0; max_x := x1; min_y := 0; max_y := 1;
     cx := 0; cy := 0; clen := 1; res := 1 |}.

Example geometry_without_gap :
  check_geometry {| panels := [strip 0 1; strip 2 3] |} 0 = (0, 3, 1)%Z.
Proof. vm_compute. reflexivity. Qed.

Example geometry_with_gap :
  check_geometry {| panels := [strip 0 1; strip 3 4] |} 0 = (1, 4, 1)%Z.
Proof. vm_compute. reflexivity. Qed.

End DetectorFacts.
